(** * grizli.fitting: the redshift/template fitting engine of [GroupFitter]

    A shallow embedding of [set_photometry], [unset_photometry],
    [_interpolate_photometry], [xfit_at_z], [xfit_redshift] and
    [_parse_zfit_output] from [grizli/fitting.py], with [_get_slices],
    [_init_background], [compute_scale_array] and [_loss] beside them,
    and of [log_zgrid], [get_hst_filter], [unset_dq_bits] and the
    arithmetic of [SpectrumTemplate] from [grizli/utils.py].

    Conventions.
    - A numpy array of floats is a [list Q]: the arithmetic is the exact
      arithmetic that the floating-point code approximates.  A 2-D array is
      the list of its rows.
    - A Python exception that leaves a function is the result [None] of the
      option monad; the one [try/except] of the source is a [match] on it.
      A division by zero that leaves values that are not finite in an
      array is [None] as well.
    - The numerical libraries (scipy's solvers, the matrix inverse, the
      Akima spline, [exp], [log], [sqrt], peakutils) and the instrument
      model ([beam.compute_model], filter integration, the IGM curve) are
      the fields of the record [Externals]; what the proofs need from them
      is stated as explicit contracts. *)

From Stdlib Require Import QArith Qround Qabs Qpower Lqa ZArith String Ascii
  DecimalString.
From stdpp Require Import base option list sorting gmap strings.

Local Open Scope nat_scope.

(** ** numpy operations on lists *)

Module Np.

Definition Qlt_bool (x y : Q) : bool := negb (Qle_bool y x).

(** [mask.sum()] for a boolean array *)
Definition count_true (mask : list bool) : nat :=
  length (filter (fun b => b = true) mask).

(** [l[mask]] for a boolean [mask] of the length of [l] *)
Fixpoint compress {A : Type} (mask : list bool) (l : list A) : list A :=
  match mask, l with
  | b :: mask', x :: l' =>
      if b then x :: compress mask' l' else compress mask' l'
  | _, _ => []
  end.

(** [l[mask]], raising IndexError when the lengths differ *)
Definition bool_index {A : Type} (mask : list bool) (l : list A)
  : option (list A) :=
  if length mask =? length l then Some (compress mask l) else None.

Definition zeros (n : nat) : list Q := replicate n 0%Q.

Definition zeros2 (r c : nat) : list (list Q) := replicate r (zeros c).

(** [out = np.zeros(len(mask)); out[mask] = vals] *)
Fixpoint scatter (mask : list bool) (vals : list Q) : list Q :=
  match mask with
  | [] => []
  | true :: mask' =>
      match vals with
      | v :: vals' => v :: scatter mask' vals'
      | [] => 0%Q :: scatter mask' []
      end
  | false :: mask' => 0%Q :: scatter mask' vals
  end.

Definition sum (l : list Q) : Q := foldr Qplus 0%Q l.

(** elementwise binary operation on two arrays of one shape *)
Definition elementwise (f : Q -> Q -> Q) (a b : list Q) : option (list Q) :=
  if length a =? length b then Some (zip_with f a b) else None.

(** [M * v] and [M / v]: the 1-D array [v] is broadcast along the rows *)
Definition rows_op (f : Q -> Q -> Q) (M : list (list Q)) (v : list Q)
  : option (list (list Q)) :=
  mapM (fun row => elementwise f row v) M.

(** [np.dot(c, M)] for a vector [c] and a matrix [M] with [ncols] columns *)
Definition dot_vm (ncols : nat) (c : list Q) (M : list (list Q))
  : option (list Q) :=
  if length c =? length M then
    if forallb (fun row => length row =? ncols) M then
      Some (foldr (fun '(ci, row) acc =>
                     zip_with Qplus (map (Qmult ci) row) acc)
                  (zeros ncols) (zip c M))
    else None
  else None.

Definition dot_vv (a b : list Q) : Q := sum (zip_with Qmult a b).

(** [M.T] for a matrix with [ncols] columns *)
Definition transpose (ncols : nat) (M : list (list Q)) : list (list Q) :=
  map (fun j => map (fun row => default 0%Q (row !! j)) M) (seq 0 ncols).

(** [np.dot(AxT.T, AxT)], from the rows of [Ax = AxT.T] *)
Definition gram (Ax : list (list Q)) : list (list Q) :=
  map (fun r => map (fun r' => dot_vv r r') Ax) Ax.

Definition diagonal (M : list (list Q)) : list Q :=
  imap (fun i row => default 0%Q (row !! i)) M.

(** [row[idx] = vals] for an integer index array [idx] *)
Definition assign_idx (idx : list nat) (vals : list Q) (row : list Q)
  : option (list Q) :=
  if (length idx =? length vals)
     && forallb (fun k => k <? length row) idx
  then Some (foldl (fun r '(k, v) => <[k:=v]> r) row (zip idx vals))
  else None.

(** [row[-n:] = vals] with [0 < n] *)
Definition assign_tail (n : nat) (vals : list Q) (row : list Q)
  : option (list Q) :=
  if (length vals =? n) && (n <=? length row)
  then Some (take (length row - n) row ++ vals)
  else None.

(** [l[:n] -= c] *)
Definition sub_head (n : nat) (c : Q) (l : list Q) : list Q :=
  map (fun x => (x - c)%Q) (take n l) ++ drop n l.

(** [l[n:] *= c] *)
Definition mul_from (n : nat) (c : Q) (l : list Q) : list Q :=
  take n l ++ map (fun x => (x * c)%Q) (drop n l).

(** [l.min()], [l.max()]: ValueError on an empty array *)
Definition amin (l : list Q) : option Q :=
  match l with
  | [] => None
  | x :: l' => Some (foldl (fun m y => if Qlt_bool y m then y else m) x l')
  end.

Definition amax (l : list Q) : option Q :=
  match l with
  | [] => None
  | x :: l' => Some (foldl (fun m y => if Qlt_bool m y then y else m) x l')
  end.

(** Python's [int(x)] of a float: truncation towards zero *)
Definition py_int (q : Q) : Z := Z.quot (Qnum q) (Z.pos (Qden q)).

(** [np.arange(start, stop, step)]: [ceil((stop-start)/step)] points;
    a zero step raises *)
Definition arange (start stop step : Q) : option (list Q) :=
  if Qeq_bool step 0 then None
  else Some (map (fun i => (start + inject_Z (Z.of_nat i) * step)%Q)
                 (seq 0 (Z.to_nat (Qceiling ((stop - start) / step))))).

(** [np.trapz(y, x)] *)
Fixpoint trapz (y x : list Q) : Q :=
  match y, x with
  | y0 :: ((y1 :: _) as y'), x0 :: ((x1 :: _) as x') =>
      ((x1 - x0) * (y1 + y0) / 2 + trapz y' x')%Q
  | _, _ => 0%Q
  end.

(** [np.cumsum] *)
Fixpoint cumsum_from (acc : Q) (l : list Q) : list Q :=
  match l with
  | [] => []
  | x :: l' => (acc + x)%Q :: cumsum_from (acc + x)%Q l'
  end.

Definition cumsum (l : list Q) : list Q := cumsum_from 0%Q l.

(** [np.gradient(f)] with unit spacing: one-sided differences at the
    ends, central differences inside; fewer than two points raise *)
Fixpoint gradient_inner (prev : Q) (l : list Q) : list Q :=
  match l with
  | [] => []
  | [x] => [(x - prev)%Q]
  | x :: ((y :: _) as l') => ((y - prev) / 2)%Q :: gradient_inner x l'
  end.

Definition gradient (f : list Q) : option (list Q) :=
  match f with
  | f0 :: ((f1 :: _) as f') => Some ((f1 - f0)%Q :: gradient_inner f0 f')
  | _ => None
  end.

(** [np.interp(x, xp, fp)] for increasing [xp]: [fp[0]] left of the
    samples, [fp[-1]] right of them, and between [xp[j] <= x < xp[j+1]]
    the line through the two samples *)
Fixpoint interp_from (x x0 f0 : Q) (rest : list (Q * Q)) : Q :=
  match rest with
  | [] => f0
  | (x1, f1) :: rest' =>
      if Qle_bool x1 x then interp_from x x1 f1 rest'
      else (f0 + (f1 - f0) / (x1 - x0) * (x - x0))%Q
  end.

Definition interp (x : Q) (xp fp : list Q) : option Q :=
  if length xp =? length fp then
    match zip xp fp with
    | [] => None
    | (x0, f0) :: rest =>
        Some (if Qlt_bool x x0 then f0 else interp_from x x0 f0 rest)
    end
  else None.

(** [l[idx]] for an integer index array *)
Definition take_idx {A : Type} (idx : list nat) (l : list A)
  : option (list A) :=
  mapM (fun i => l !! i) idx.

(** [np.argsort(l)]: the indices of [l] in the order of their values *)
Definition key_le (l : list Q) (i j : nat) : Prop :=
  (default 0 (l !! i) <= default 0 (l !! j))%Q.

Definition key_le_dec (l : list Q) (i j : nat) : Decision (key_le l i j) :=
  match Qlt_le_dec (default 0%Q (l !! j)) (default 0%Q (l !! i)) with
  | left H => right (Qlt_not_le _ _ H)
  | right H => left H
  end.

Definition argsort (l : list Q) : list nat :=
  @merge_sort nat (key_le l) (key_le_dec l) (seq 0 (length l)).

(** [np.argmin(l)] and [np.argmax(l)]: the first position of the
    extremum *)
Fixpoint argbest (better : Q -> Q -> bool) (i ibest : nat) (best : Q)
    (l : list Q) : nat :=
  match l with
  | [] => ibest
  | x :: l' =>
      if better x best then argbest better (S i) i x l'
      else argbest better (S i) ibest best l'
  end.

Definition argmin (l : list Q) : option nat :=
  match l with
  | [] => None
  | x :: l' => Some (argbest Qlt_bool 1 0 x l')
  end.

Definition argmax (l : list Q) : option nat :=
  match l with
  | [] => None
  | x :: l' => Some (argbest (fun a b => Qlt_bool b a) 1 0 x l')
  end.

End Np.

(** ** The data model *)

(** A photometric filter, as far as the fit uses it: [filter.pivot()] *)
Record FilterDefinition := { pivot : Q }.

(** eazy-py's [TemplateGrid]: [tempfilt.NTEMP] and the call [tempfilt(z)],
    a table of NTEMP rows with one entry per filter *)
Record TemplateGrid := {
  NTEMP_grid : nat;
  call_grid : Q -> list (list Q)
}.

(** [utils.SpectrumTemplate] *)
Record SpectrumTemplate := { wave : list Q; flux : list Q }.

(** A template set: an ordered mapping from names to templates *)
Definition TemplateSet := list (string * SpectrumTemplate).

(** One exposure: the flattened fit mask, the 2-D shape [sh], the
    wavelength of each column, and the names that have a thumbnail *)
Record Beam := {
  beam_fit_mask : list bool;
  sh : nat * nat;
  beam_wave : list Q;
  thumbs : list string
}.

(** [self.is_spec] is the scalar 1 or a boolean array *)
Inductive IsSpec :=
| IsSpecOne
| IsSpecArray (flags : list bool).

(** The attributes of a [GroupFitter] that the fitting engine reads and
    writes.  [Nbeams] is [self.N].  The attribute [photom_model], which
    [xfit_at_z] writes and nothing here reads, is part of its result. *)
Record GroupFitter := {
  Nbeams : nat;
  beams : list Beam;
  mslices : list (option (list nat));
  A_bgm : list (list Q);
  Nmask : nat;
  Nphot : nat;
  DoF : Z;
  scif : list Q;
  sivarf : list Q;
  weightf : list Q;
  fit_mask : list bool;
  wavef : list Q;
  is_spec : IsSpec;
  pscale : option (list Q);
  photom_flam : list Q;
  photom_eflam : list Q;
  photom_filters : list FilterDefinition;
  photom_pivot : list Q;
  tempfilt : option TemplateGrid
}.

(** What a Python function without a value on every path hands back *)
Inductive PyReturn := ReturnTrue | ReturnFalse | ReturnNone.

(** [int((self.weightf*self.fit_mask).sum())] *)
Definition masked_weight_sum (weightf : list Q) (fit_mask : list bool) : Z :=
  Np.py_int
    (Np.sum (zip_with (fun w (b : bool) => if b then w else (w * 0)%Q)
                      weightf fit_mask)).

Section Photometry.

(** [np.sqrt] *)
Variable np_sqrt : Q -> Q.

(** [set_photometry]: the group after the call and the value returned *)
Definition set_photometry (self : GroupFitter) (flam eflam : list Q)
    (filters : list FilterDefinition) (force : bool)
    (tempfilt_arg : option TemplateGrid) (min_err : Q)
  : GroupFitter * PyReturn :=
  if (0 <? Nphot self) && negb force then (self, ReturnTrue)
  else
    let nphot := Np.count_true (map (fun e => Np.Qlt_bool 0 e) eflam) in
    let counted :=
      {| Nbeams := Nbeams self; beams := beams self;
         mslices := mslices self; A_bgm := A_bgm self;
         Nmask := Nmask self; Nphot := nphot; DoF := DoF self;
         scif := scif self; sivarf := sivarf self;
         weightf := weightf self; fit_mask := fit_mask self;
         wavef := wavef self; is_spec := is_spec self;
         pscale := pscale self;
         photom_flam := photom_flam self;
         photom_eflam := photom_eflam self;
         photom_filters := photom_filters self;
         photom_pivot := photom_pivot self;
         tempfilt := tempfilt self |} in
    if nphot =? 0 then (counted, ReturnTrue)
    else if negb (length flam =? length eflam)
            || negb (length flam =? length filters)
    then (counted, ReturnFalse)
    else
      let eflam' :=
        zip_with (fun e f =>
                    if Np.Qlt_bool e 0 then (-99)%Q
                    else np_sqrt (e ^ 2 + (min_err * f) ^ 2)%Q)
                 eflam flam in
      let sivarf' := sivarf self ++ map (fun e => (1 / e)%Q) eflam' in
      let weightf' := weightf self ++ map (fun e => (e * 0 + 1)%Q) eflam' in
      let fit_mask' :=
        fit_mask self ++ map (fun e => Np.Qlt_bool 0 e) eflam in
      let scif' := scif self ++ flam in
      let pivots := map pivot filters in
      ({| Nbeams := Nbeams self; beams := beams self;
          mslices := mslices self; A_bgm := A_bgm self;
          Nmask := Np.count_true fit_mask';
          Nphot := nphot;
          DoF := masked_weight_sum weightf' fit_mask';
          scif := scif';
          sivarf := sivarf';
          weightf := weightf';
          fit_mask := fit_mask';
          wavef := wavef self ++ pivots;
          is_spec :=
            IsSpecArray (replicate (length scif' - length flam) true
                         ++ replicate (length flam) false);
          pscale := pscale self;
          photom_flam := flam;
          photom_eflam := eflam';
          photom_filters := filters;
          photom_pivot := pivots;
          tempfilt := tempfilt_arg |}, ReturnNone).

End Photometry.

(** [l[:-n]] for [0 < n] *)
Definition drop_tail {A : Type} (n : nat) (l : list A) : list A :=
  take (length l - n) l.

(** [unset_photometry] *)
Definition unset_photometry (self : GroupFitter) : GroupFitter * PyReturn :=
  if Nphot self =? 0 then (self, ReturnTrue)
  else
    let n := Nphot self in
    let weightf' := drop_tail n (weightf self) in
    let fit_mask' := drop_tail n (fit_mask self) in
    ({| Nbeams := Nbeams self; beams := beams self;
        mslices := mslices self; A_bgm := A_bgm self;
        Nmask := Np.count_true fit_mask';
        Nphot := 0;
        DoF := masked_weight_sum weightf' fit_mask';
        scif := drop_tail n (scif self);
        sivarf := drop_tail n (sivarf self);
        weightf := weightf';
        fit_mask := fit_mask';
        wavef := drop_tail n (wavef self);
        is_spec := IsSpecOne;
        pscale := pscale self;
        photom_flam := photom_flam self;
        photom_eflam := photom_eflam self;
        photom_filters := photom_filters self;
        photom_pivot := photom_pivot self;
        tempfilt := tempfilt self |}, ReturnNone).

(** ** The numerical libraries and the instrument model *)

(** A bound of [scipy.optimize.lsq_linear] *)
Inductive Bound := NegInf | Finite (q : Q) | PosInf.

(** The solvers receive the design matrix [AxT] as the list of its
    columns, which are the rows of [Ax]; they give one coefficient per
    column, or raise.  [matrix_inverse] is [np.matrix(M).I.A], which raises
    LinAlgError on a singular matrix.  [IGM] is the module-level object of
    [eazy.igm], [None] when eazy is not installed.  [compute_model] is
    [beam.compute_model(thumb=..., spectrum_1d=[wave, flux])], flattened.
    [spline] is [Akima1DInterpolator(x, y)], which may raise, and then a
    function of the point; its values and the values of [np_log] are
    [None] when they are not finite.  [polyfit x y deg] gives the
    coefficients from the highest degree down.  [peak_indexes] is
    [peakutils.indexes(y, thres=0.4, min_dist=8)], [polynomial_templates]
    and [load_templates] are the functions of [utils] of these names, as
    functions of the polynomial order and of the [stars] flag. *)
Record Externals := {
  np_sqrt : Q -> Q;
  np_exp : Q -> Q;
  np_log : Q -> option Q;
  nnls : list (list Q) -> list Q -> option (list Q);
  lstsq : list (list Q) -> list Q -> option (list Q);
  lsq_linear :
    list (list Q) -> list Q -> list Bound -> list Bound -> option (list Q);
  matrix_inverse : list (list Q) -> option (list (list Q));
  IGM : option (Q -> list Q -> list Q);
  compute_model : Beam -> option string -> list Q * list Q -> list Q;
  integrate_filter : SpectrumTemplate -> FilterDefinition -> Q;
  spline : list Q -> list (option Q) -> option (Q -> option Q);
  polyfit : list Q -> list Q -> nat -> list Q;
  peak_indexes : list Q -> list nat;
  polynomial_templates : nat -> TemplateSet;
  load_templates : bool -> TemplateSet
}.

Definition COEFF_SCALE : Q := 1 # 10000000000000000000.

Definition IGM_MINZ : Q := 4.

(** [3.e18] *)
Definition c_AA : Q := 3000000000000000000.

(** What [xfit_at_z] returns: [(AxT, data)] when the design matrix is asked
    for, else [(chi2, coeffs, coeffs_err, covar)] together with the value
    stored in [self.photom_model] when there is photometry. *)
Inductive XfitResult :=
| DesignMatrix (AxT : list (list Q)) (data : list Q)
| Fit (chi2 : Q) (coeffs coeffs_err : list Q) (covar : list (list Q))
      (stored_photom_model : option (list Q)).

(** Monadic left fold: a [for] loop whose body may raise *)
Fixpoint foldM {A B : Type} (f : B -> A -> option B) (l : list A) (b : B)
  : option B :=
  match l with
  | [] => Some b
  | x :: l' => b' ← f b x; foldM f l' b'
  end.

(** [_get_slices(masked=True)]: for each beam the index array of its
    unmasked pixels in the masked concatenated arrays, [None] for a beam
    without unmasked pixels *)
Fixpoint _get_slices_masked (x : nat) (bs : list Beam)
  : list (option (list nat)) :=
  match bs with
  | [] => []
  | b :: bs' =>
      let n := Np.count_true (beam_fit_mask b) in
      if n =? 0 then None :: _get_slices_masked x bs'
      else Some (seq x n) :: _get_slices_masked (x + n) bs'
  end.

(** [_init_background(masked=True)].  [A_bg[i, None] = 1.] for a beam
    without unmasked pixels indexes with [np.newaxis] and fills the row. *)
Definition _init_background (nmask : nat)
    (slices : list (option (list nat))) : list (list Q) :=
  map (fun sl =>
         match sl with
         | Some idx =>
             foldl (fun r k => <[k:=1%Q]> r) (Np.zeros nmask) idx
         | None => replicate nmask 1%Q
         end) slices.

(** [compute_scale_array(pscale, wave)]:
    [np.polyval((pscale/10**(arange(N)+1))[::-1], (wave-1.e4)/1000.)] *)
Definition compute_scale_array (ps : list Q) (wv : list Q) : list Q :=
  map (fun w =>
         let x := ((w - 10000) / 1000)%Q in
         Np.sum (imap (fun k p => (p / (10 ^ Z.of_nat (k + 1)) * x ^ Z.of_nat k)%Q)
                      ps))
      wv.

(** [mask_i = beam.fit_mask.reshape(beam.sh); clip = mask_i.sum(axis=0) > 0] *)
Definition column_clip (b : Beam) : option (list bool) :=
  let '(ny, nx) := sh b in
  if length (beam_fit_mask b) =? ny * nx then
    Some (map (fun c =>
                 existsb (fun r => default false (beam_fit_mask b !! (r * nx + c)))
                         (seq 0 ny))
              (seq 0 nx))
  else None.

(** Modelled from the spec: [utils.fill_masked_covar], which [xfit_at_z]
    calls and which is not among the sources.  The spec has the reduced
    system "re-expanded to full size afterward" with zeros for the dropped
    rows, and the covariance "square of that size": entry [(i, j)] of the
    result is the entry of [covar] for the ranks of [i] and [j] among the
    kept positions of [mask], and zero when [i] or [j] is dropped.  A
    [covar] that is not square of the number of kept positions raises. *)
Fixpoint fill_rows (mask m : list bool) (cv : list (list Q))
  : list (list Q) :=
  match m with
  | [] => []
  | true :: m' =>
      match cv with
      | r :: cv' => Np.scatter mask r :: fill_rows mask m' cv'
      | [] => Np.zeros (length mask) :: fill_rows mask m' []
      end
  | false :: m' => Np.zeros (length mask) :: fill_rows mask m' cv
  end.

Definition fill_masked_covar (covar : list (list Q)) (mask : list bool)
  : option (list (list Q)) :=
  let k := Np.count_true mask in
  if (length covar =? k) && forallb (fun r => length r =? k) covar
  then Some (fill_rows mask mask covar)
  else None.

(** The [zr] argument of [xfit_redshift]: a Python integer, or a list *)
Inductive ZrArg :=
| ZrInt (n : Z)
| ZrList (zr : list Q).

(** The table [fit] that [xfit_redshift] builds: the columns [zgrid],
    [chi2], [coeffs], [covar] and the header entries of the fit *)
Record GridTable := {
  fit_zgrid : list Q;
  fit_chi2 : list Q;
  fit_coeffs : list (list Q);
  fit_covar : list (list (list Q));
  meta_N : nat;
  meta_polyord : nat;
  meta_chi2poly : Q;
  meta_DoF : Z;
  meta_chimin : Q;
  meta_chimax : Q;
  meta_fitter : string;
  meta_bic_poly : option Q;
  meta_bic_temp : option Q;
  meta_NTEMP : nat
}.

(** The table after [_parse_zfit_output]: the columns [pdf], [risk] and
    [prior] and the header entries of the posterior.  A header value that
    is not finite is [None]. *)
Record FitTable := {
  grid : GridTable;
  meta_hasprior : bool;
  fit_prior : option (list Q);
  fit_pdf : list Q;
  fit_risk : list Q;
  meta_Z02 : Q;
  meta_Z16 : Q;
  meta_Z50 : Q;
  meta_Z84 : Q;
  meta_Z97 : Q;
  meta_ZWIDTH1 : Q;
  meta_ZWIDTH2 : Q;
  meta_z_map : option Q;
  meta_z_risk : option Q;
  meta_min_risk : option Q;
  meta_gam_loss : Q
}.

Section Engine.

Variable E : Externals.

(** [igmz] of [xfit_at_z]: the scalar 1 ([None]) or the IGM curve *)
Definition igm_factor (z : Q) (ti : SpectrumTemplate) : option (list Q) :=
  if Np.Qlt_bool IGM_MINZ z then
    match IGM E with
    | None => None
    | Some full_IGM => Some (full_IGM z (map (fun w => (w * (1 + z))%Q) (wave ti)))
    end
  else None.

(** [s = [ti.wave*(1+z), ti.flux/(1+z)*igmz]] *)
Definition redshifted (z : Q) (ti : SpectrumTemplate) (igmz : option (list Q))
  : option (list Q * list Q) :=
  let w := map (fun w => (w * (1 + z))%Q) (wave ti) in
  let f := map (fun f => (f / (1 + z))%Q) (flux ti) in
  match igmz with
  | None => Some (w, map (fun f => (f * 1)%Q) f)
  | Some curve => f' ← Np.elementwise Qmult f curve; Some (w, f')
  end.

(** [SpectrumTemplate.zscale(z, scalar=1)]: the IGM curve is applied
    whenever eazy is there, whatever the redshift *)
Definition zscale (ti : SpectrumTemplate) (z : Q) : option SpectrumTemplate :=
  let w := map (fun w => (w * (1 + z))%Q) (wave ti) in
  let f := map (fun f => (f * 1 / (1 + z))%Q) (flux ti) in
  match IGM E with
  | None => Some {| wave := w; flux := map (fun f => (f * 1)%Q) f |}
  | Some full_IGM =>
      f' ← Np.elementwise Qmult f (full_IGM z w);
      Some {| wave := w; flux := f' |}
  end.

(** The body of the loop over the beams in [xfit_at_z], for the template
    named [t] with redshifted spectrum [s]: the row of [A] after beam
    [j] *)
Definition template_row_step (self : GroupFitter) (t : string)
    (s : list Q * list Q) (row : list Q) (jb : nat * Beam)
  : option (list Q) :=
  let '(j, beam) := jb in
  clip ← column_clip beam;
  if Np.count_true clip =? 0 then Some row
  else
    lam_beam ← Np.bool_index clip (beam_wave beam);
    smin ← Np.amin (fst s);
    smax ← Np.amax (fst s);
    lmin ← Np.amin lam_beam;
    lmax ← Np.amax lam_beam;
    if Np.Qlt_bool lmax smin || Np.Qlt_bool smax lmin then Some row
    else
      osl ← mslices self !! j;
      sl ← osl;
      let thumb :=
        if existsb (String.eqb t) (thumbs beam) then Some t else None in
      m ← Np.bool_index (beam_fit_mask beam) (compute_model E beam thumb s);
      Np.assign_idx sl (map (fun v => (v * COEFF_SCALE)%Q) m) row.

(** Row [N+i] of [A] before the photometric columns are filled *)
Definition template_row (self : GroupFitter) (z : Q)
    (tt : string * SpectrumTemplate) : option (list Q) :=
  let '(t, ti) := tt in
  s ← redshifted z ti (igm_factor z ti);
  foldM (template_row_step self t s)
        (imap (fun j b => (j, b)) (beams self))
        (Np.zeros (Nmask self)).

(** [_interpolate_photometry(z, templates)] *)
Definition _interpolate_photometry (self : GroupFitter) (z : Q)
    (templates : TemplateSet) : option (list (list Q)) :=
  let NTEMP := length templates in
  let nflam := length (photom_flam self) in
  let mask := map (fun e => Np.Qlt_bool 0 e) (photom_eflam self) in
  let bg := Np.zeros2 (Nbeams self) nflam in
  let via_filters :=
    rows ← mapM (fun tt : string * SpectrumTemplate =>
                   tz ← zscale (snd tt) z;
                   if (length (photom_filters self) <=? nflam)
                      && (length (photom_filters self)
                            <=? length (photom_pivot self))
                   then
                     Some (zip_with
                             (fun filt p =>
                                (integrate_filter E tz filt * c_AA / p ^ 2)%Q)
                             (photom_filters self) (photom_pivot self)
                           ++ Np.zeros (nflam - length (photom_filters self)))
                   else None)
                templates;
    mapM (Np.bool_index mask) (bg ++ rows) in
  match tempfilt self with
  | Some grid =>
      if NTEMP_grid grid =? NTEMP then
        let table := call_grid grid z in
        if (length table =? NTEMP)
           && forallb (fun r => length r =? nflam) table
        then
          let factor :=
            map (fun p => (c_AA / p ^ 2 * (1 + z))%Q) (photom_pivot self) in
          scaled ← Np.rows_op Qmult (bg ++ table) factor;
          mapM (Np.bool_index mask) scaled
        else None
      else via_filters
  | None => via_filters
  end.

(** [A] of [xfit_at_z]: the background rows, the template rows and,
    with photometry, the photometric columns *)
Definition design_rows (self : GroupFitter) (z : Q)
    (templates : TemplateSet) (fit_background : bool)
  : option (list (list Q)) :=
  let N := Nbeams self in
  bg ← (if fit_background then
          if (length (A_bgm self) =? N)
             && forallb (fun r => length r =? Nmask self - Nphot self)
                        (A_bgm self)
             && (Nphot self <=? Nmask self)
          then Some (map (fun r => r ++ Np.zeros (Nphot self)) (A_bgm self))
          else None
        else Some (Np.zeros2 N (Nmask self)));
  trows ← mapM (template_row self z) templates;
  let A := bg ++ trows in
  if 0 <? Nphot self then
    A_phot ← _interpolate_photometry self z templates;
    if length A_phot =? length A then
      mapM (fun rp : list Q * list Q =>
              Np.assign_tail (Nphot self)
                (map (fun v => (v * COEFF_SCALE)%Q) (snd rp)) (fst rp))
           (zip A A_phot)
    else None
  else Some A.

(** [pedestal] of [xfit_at_z] *)
Definition pedestal_of (fitter : string) (fit_background : bool) : Q :=
  if fit_background then
    if String.eqb fitter "nnls" || String.eqb fitter "lstsq"
    then (4 # 100)%Q else 0%Q
  else 0%Q.

(** [lower_bound] and [upper_bound] *)
Definition lower_bound (self : GroupFitter) (templates : TemplateSet)
  : list Bound :=
  replicate (Nbeams self) (Finite (- (5 # 100))%Q)
  ++ map (fun tt : string * SpectrumTemplate =>
            if String.prefix "line" (fst tt) then NegInf else Finite 0%Q)
         templates.

Definition upper_bound (self : GroupFitter) (templates : TemplateSet)
  : list Bound :=
  replicate (Nbeams self) (Finite (5 # 100)%Q)
  ++ map (fun _ : string * SpectrumTemplate => PosInf) templates.

(** [oktemp = A.sum(axis=1) != 0] *)
Definition oktemp_of (A : list (list Q)) : list bool :=
  map (fun row => negb (Qeq_bool (Np.sum row) 0)) A.

(** [l[-n:] = v] on a 1-D array, for [0 < n] *)
Definition fill_tail (n : nat) (v : Q) (l : list Q) : list Q :=
  take (length l - n) l ++ replicate (Nat.min n (length l)) v.

(** The photometric rescaling of [Ax]: [Ax *= scale], then the first
    [self.N] rows of [Ax] are divided by [scale] again *)
Definition apply_pscale (self : GroupFitter) (fit_background : bool)
    (Ax : list (list Q)) : option (list (list Q)) :=
  match pscale self with
  | None => Some Ax
  | Some ps =>
      wave_m ← Np.bool_index (fit_mask self) (wavef self);
      let scale0 := compute_scale_array ps wave_m in
      let scale :=
        if 0 <? Nphot self then fill_tail (Nphot self) 1%Q scale0
        else scale0 in
      Ax' ← Np.rows_op Qmult Ax scale;
      if fit_background then
        if Nbeams self <=? length Ax' then
          head ← Np.rows_op Qdiv (take (Nbeams self) Ax') scale;
          Some (head ++ drop (Nbeams self) Ax')
        else None
      else Some Ax'
  end.

(** [pedestal*self.is_spec], broadcast to the shape of [scif] *)
Definition pedestal_array (self : GroupFitter) (pedestal : Q)
  : option (list Q) :=
  match is_spec self with
  | IsSpecOne => Some (map (fun _ => (pedestal * 1)%Q) (scif self))
  | IsSpecArray flags =>
      if length flags =? length (scif self) then
        Some (map (fun b : bool =>
                     if b then (pedestal * 1)%Q else (pedestal * 0)%Q)
                  flags)
      else None
  end.

(** [data = ((self.scif+pedestal*self.is_spec)*self.sivarf)[self.fit_mask]] *)
Definition masked_data (self : GroupFitter) (pedestal : Q)
  : option (list Q) :=
  ped ← pedestal_array self pedestal;
  a ← Np.elementwise Qplus (scif self) ped;
  b ← Np.elementwise Qmult a (sivarf self);
  Np.bool_index (fit_mask self) b.

(** The minimisation: [nnls], [lstsq] or bounded least squares *)
Definition solve (self : GroupFitter) (templates : TemplateSet)
    (fitter : string) (oktemp : list bool)
    (Ax : list (list Q)) (data : list Q) : option (list Q) :=
  if String.eqb fitter "nnls" then nnls E Ax data
  else if String.eqb fitter "lstsq" then lstsq E Ax data
  else lsq_linear E Ax data
         (Np.compress oktemp (lower_bound self templates))
         (Np.compress oktemp (upper_bound self templates)).

(** The body of the [try] block of [xfit_at_z]: the covariance and its
    diagonal's square root, [None] when anything in it raises *)
Definition covariance (oktemp : list bool) (Ax : list (list Q))
    (coeffs_i : list Q) (get_uncertainties : nat)
  : option (list (list Q) * list Q) :=
  covar_i ← matrix_inverse E (Np.gram Ax);
  covar ← fill_masked_covar covar_i oktemp;
  let covard := map (np_sqrt E) (Np.diagonal covar) in
  if get_uncertainties =? 2 then
    let nonzero := map (fun c => negb (Qeq_bool c 0)) coeffs_i in
    if 0 <? Np.count_true nonzero then
      AxTm ← Np.bool_index nonzero Ax;
      mcovar_i ← matrix_inverse E (Np.gram AxTm);
      mcovar0 ← fill_masked_covar mcovar_i nonzero;
      mcovar ← fill_masked_covar mcovar0 oktemp;
      Some (mcovar, map (np_sqrt E) (Np.diagonal mcovar))
    else Some (covar, covard)
  else Some (covar, covard).

(** [background] and [coeffs_i] after the pedestal is taken out *)
Definition background_model (self : GroupFitter) (fit_background : bool)
    (pedestal : Q) (A : list (list Q)) (coeffs_i : list Q)
  : option (list Q * list Q) :=
  let N := Nbeams self in
  if fit_background then
    b ← Np.dot_vm (Nmask self) (take N coeffs_i) (take N A);
    let b1 := map (fun x => (x - pedestal)%Q) b in
    let b2 := if 0 <? Nphot self then fill_tail (Nphot self) 0%Q b1 else b1 in
    Some (b2, Np.sub_head N pedestal coeffs_i)
  else
    scif_m ← Np.bool_index (fit_mask self) (scif self);
    Some (map (fun x => (x * 0)%Q) scif_m, coeffs_i).

(** [covar[self.N:,self.N:] *= COEFF_SCALE**2] *)
Definition scale_covar (N : nat) (covar : list (list Q)) : list (list Q) :=
  imap (fun i row =>
          if N <=? i then Np.mul_from N (COEFF_SCALE ^ 2)%Q row else row)
       covar.

(** The first part of [xfit_at_z], up to the [get_design_matrix] exit:
    [A], [oktemp], the weighted and rescaled reduced matrix [Ax], whose
    transpose is [AxT], and [data] *)
Definition design_system (self : GroupFitter) (z : Q)
    (templates : TemplateSet) (fitter : string) (fit_background : bool)
  : option (list (list Q) * list bool * list (list Q) * list Q) :=
  A ← design_rows self z templates fit_background;
  let oktemp := oktemp_of A in
  sivar_m ← Np.bool_index (fit_mask self) (sivarf self);
  if negb (length sivar_m =? Nmask self) then None else
  Ax0 ← Np.rows_op Qmult (Np.compress oktemp A) sivar_m;
  Ax ← apply_pscale self fit_background Ax0;
  data ← masked_data self (pedestal_of fitter fit_background);
  Some (A, oktemp, Ax, data).

(** The second part of [xfit_at_z]: from the solved coefficients to the
    returned tuple *)
Definition fit_outputs (self : GroupFitter) (NTEMP : nat)
    (fitter : string) (fit_background : bool) (get_uncertainties : nat)
    (A : list (list Q)) (oktemp : list bool) (Ax : list (list Q))
    (solved : list Q) : option XfitResult :=
  let N := Nbeams self in
  '(background, coeffs_i) ←
     background_model self fit_background
                      (pedestal_of fitter fit_background) A solved;
  sivar_m ← Np.bool_index (fit_mask self) (sivarf self);
  Am ← Np.rows_op Qdiv (if fit_background then drop N Ax else Ax) sivar_m;
  model ← Np.dot_vm (Nmask self)
             (if fit_background then drop N coeffs_i else coeffs_i) Am;
  scif_m ← Np.bool_index (fit_mask self) (scif self);
  r1 ← Np.elementwise Qminus scif_m model;
  resid ← Np.elementwise Qminus r1 background;
  weight_m ← Np.bool_index (fit_mask self) (weightf self);
  t1 ← Np.elementwise (fun r sv => (r ^ 2 * sv ^ 2)%Q) resid sivar_m;
  t2 ← Np.elementwise Qmult t1 weight_m;
  let chi2 := Np.sum t2 in
  let stored :=
    if 0 <? Nphot self
    then Some (map (fun x => (x * 1)%Q)
                   (drop (length model - Nphot self) model))
    else None in
  let cc :=
    if 0 <? get_uncertainties then
      match covariance oktemp Ax coeffs_i get_uncertainties with
      | Some cc => cc
      | None => (Np.zeros2 (N + NTEMP) (N + NTEMP), Np.zeros (N + NTEMP))
      end
    else (Np.zeros2 (N + NTEMP) (N + NTEMP), Np.zeros (N + NTEMP)) in
  if Np.count_true oktemp =? length coeffs_i then
    Some (Fit chi2
              (Np.mul_from N COEFF_SCALE (Np.scatter oktemp coeffs_i))
              (Np.mul_from N COEFF_SCALE (snd cc))
              (scale_covar N (fst cc))
              stored)
  else None.

(** [xfit_at_z(z, templates, fitter, fit_background, get_uncertainties,
    get_design_matrix)].  [get_uncertainties] is 0 for [False], 1 for
    [True], or 2. *)
Definition xfit_at_z (self : GroupFitter) (z : Q) (templates : TemplateSet)
    (fitter : string) (fit_background : bool) (get_uncertainties : nat)
    (get_design_matrix : bool) : option XfitResult :=
  '(A, oktemp, Ax, data) ←
     design_system self z templates fitter fit_background;
  if get_design_matrix
  then Some (DesignMatrix (Np.transpose (Nmask self) Ax) data)
  else
    solved ← solve self templates fitter oktemp Ax data;
    fit_outputs self (length templates) fitter fit_background
                get_uncertainties A oktemp Ax solved.

(** [utils.log_zgrid(zr, dz)]:
    [np.exp(np.arange(np.log(1+zr[0]), np.log(1+zr[1]), dz))-1] *)
Definition log_zgrid (zr : list Q) (dz : Q) : option (list Q) :=
  zr0 ← zr !! 0;
  zr1 ← zr !! 1;
  a ← np_log E (1 + zr0)%Q;
  b ← np_log E (1 + zr1)%Q;
  g ← Np.arange a b dz;
  Some (map (fun x => (np_exp E x - 1)%Q) g).

(** [_loss(dz, gamma)] *)
Definition _loss (dz gamma : Q) : Q := (1 - 1 / (1 + (dz / gamma) ^ 2))%Q.

(** [-c[1]/(2*c[0])] for the coefficients of [polyfit]: not finite, so
    [None], when [c[0]] is zero *)
Definition vertex (c : list Q) : option Q :=
  match c with
  | c0 :: c1 :: _ =>
      if Qeq_bool c0 0 then None else Some (- c1 / (2 * c0))%Q
  | _ => None
  end.

(** [l[ix-1:ix+2]] for [0 < ix] *)
Definition around {A : Type} (ix : nat) (l : list A) : list A :=
  take 3 (drop (ix - 1) l).

(** [zgrid_zoom]: for each peak inside the grid, the points of step
    [dz[1]] within [2*dz[0]] of the vertex of the parabola through the
    peak and its neighbours *)
Definition zoom_points (zgrid chi2 : list Q) (dz : Q * Q)
    (indexes : list nat) : option (list Q) :=
  foldM (fun acc ix =>
           if (0 <? ix) && (ix <? length chi2 - 1) then
             zi ← vertex (polyfit E (around ix zgrid) (around ix chi2) 2);
             pts ← Np.arange (zi - 2 * fst dz)%Q
                             (zi + 2 * fst dz + snd dz / 10)%Q (snd dz);
             Some (acc ++ pts)
           else Some acc)
        indexes [].

(** One pass of [xfit_at_z] over trial redshifts, stored in arrays of
    the shapes taken from the fit at [z=0] *)
Definition shape2 (M : list (list Q)) : nat * nat :=
  (length M, match M with r :: _ => length r | [] => 0 end).

Definition has_shape2 (sh2 : nat * nat) (M : list (list Q)) : bool :=
  (length M =? fst sh2) && forallb (fun r => length r =? snd sh2) M.

Definition eval_grid (self : GroupFitter) (templates : TemplateSet)
    (fitter : string) (fit_background : bool) (get_uncertainties : nat)
    (ncoeffs : nat) (covar_shape : nat * nat) (zs : list Q)
  : option (list (Q * list Q * list (list Q))) :=
  mapM (fun z =>
          out ← xfit_at_z self z templates fitter fit_background
                          get_uncertainties false;
          match out with
          | Fit chi2 coeffs _ covar _ =>
              if (length coeffs =? ncoeffs) && has_shape2 covar_shape covar
              then Some (chi2, coeffs, covar)
              else None
          | DesignMatrix _ _ => None
          end)
       zs.

(** [np.exp(-0.5*(fit['chi2']-fit['chi2'].min())/scl_nu)] with
    [scl_nu = fit['chi2'].min()/self.DoF], for [cmin] the minimum *)
Definition chi2_pdf (self : GroupFitter) (chi2 : list Q) (cmin : Q)
  : list Q :=
  let scl_nu := (cmin / inject_Z (DoF self))%Q in
  map (fun c => np_exp E (- (1 # 2) * (c - cmin) / scl_nu)%Q) chi2.

(** [pdf] of [_parse_zfit_output] once normalised, with the
    interpolated prior.  The result is [None] when a division by zero
    leaves values that are not finite in [pdf]: [scl_nu] is zero, or the
    trapezoidal integral is. *)
Definition posterior_pdf (self : GroupFitter) (zgrid chi2 : list Q)
    (prior : option (list Q * list Q))
  : option (list Q * option (list Q)) :=
  cmin ← Np.amin chi2;
  pdf0 ← (if (DoF self =? 0)%Z then
            if Qeq_bool cmin 0 then None
            else Some (map (fun _ => np_exp E 0%Q) chi2)
          else
            if Qeq_bool (cmin / inject_Z (DoF self)) 0 then None
            else Some (chi2_pdf self chi2 cmin));
  '(pdf1, interp_prior) ←
     match prior with
     | Some (pz, pp) =>
         ip ← mapM (fun z => Np.interp z pz pp) zgrid;
         pdf1 ← Np.elementwise Qmult pdf0 ip;
         Some (pdf1, Some ip)
     | None => Some (pdf0, None)
     end;
  if negb (length pdf1 =? length zgrid) then None else
  let norm := Np.trapz pdf1 zgrid in
  if Qeq_bool norm 0 then None
  else Some (map (fun p => (p / norm)%Q) pdf1, interp_prior).

(** [pz_percentiles]: the spline through [log(pdf)], evaluated on the
    fine grid, integrated to a cumulative distribution and inverted at
    2.5, 16, 50, 84 and 97.5 per cent *)
Definition levels : list Q := [25 # 1000; 16 # 100; 50 # 100; 84 # 100; 975 # 1000]%Q.

Definition pz_percentiles (zgrid pdf : list Q) : option (list Q) :=
  spl ← spline E zgrid (map (np_log E) pdf);
  zmin ← Np.amin zgrid;
  zmax ← Np.amax zgrid;
  zfine ← log_zgrid [zmin; zmax] (1 # 10000)%Q;
  let finite :=
    omap (fun z => match spl z with
                   | Some v => Some (z, np_exp E v)
                   | None => None
                   end) zfine in
  let zok := map fst finite in
  let p := map snd finite in
  let norm := Np.trapz p zok in
  dz ← Np.gradient zok;
  if Qeq_bool norm 0 then None else
  let cdf := Np.cumsum (zip_with (fun pv d => (pv * d / norm)%Q) p dz) in
  mapM (fun q => Np.interp q cdf zok) levels.

(** The redshift at the extremum at index [zi]: the vertex of the
    parabola through it and its neighbours, or the grid point at an
    edge *)
Definition refine (zgrid y : list Q) (zi : nat) : option Q :=
  if (zi <? length y - 1) && (0 <? zi)
  then vertex (polyfit E (around zi zgrid) (around zi y) 2)
  else zgrid !! zi.

(** [_parse_zfit_output(fit, prior)] *)
Definition _parse_zfit_output (self : GroupFitter) (fit : GridTable)
    (prior : option (list Q * list Q)) : option FitTable :=
  let zgrid := fit_zgrid fit in
  '(pdf, interp_prior) ← posterior_pdf self zgrid (fit_chi2 fit) prior;
  pz ← pz_percentiles zgrid pdf;
  match pz with
  | [z02; z16; z50; z84; z97] =>
      dz ← Np.gradient zgrid;
      let gamma := (15 # 100)%Q in
      let risk :=
        map (fun za =>
               Np.sum (zip_with
                         (fun pd zd =>
                            (fst pd
                             * _loss ((za - snd pd) / (1 + snd pd)) gamma
                             * zd)%Q)
                         (zip pdf zgrid) dz))
            zgrid in
      zi ← Np.argmin risk;
      let z_risk := refine zgrid risk zi in
      let min_risk :=
        zr ← z_risk;
        Some (Np.trapz
                (zip_with (fun pv zv =>
                             (pv * _loss ((zr - zv) / (1 + zv)) gamma)%Q)
                          pdf zgrid)
                zgrid) in
      zm ← Np.argmax pdf;
      Some {| grid := fit;
              meta_hasprior := match prior with Some _ => true | None => false end;
              fit_prior := interp_prior;
              fit_pdf := pdf;
              fit_risk := risk;
              meta_Z02 := z02; meta_Z16 := z16; meta_Z50 := z50;
              meta_Z84 := z84; meta_Z97 := z97;
              meta_ZWIDTH1 := (z84 - z16)%Q;
              meta_ZWIDTH2 := (z97 - z02)%Q;
              meta_z_map := refine zgrid pdf zm;
              meta_z_risk := z_risk;
              meta_min_risk := min_risk;
              meta_gam_loss := gamma |}
  | _ => None
  end.

(** The merged grid of [xfit_redshift]: the coarse pass, the zoom pass
    when there are peaks, the fit is not stellar and [zoom] is set, and
    the sort of the four arrays by [np.argsort(zgrid)] *)
Definition merged_grid (self : GroupFitter) (templates : TemplateSet)
    (fitter : string) (fit_background : bool) (get_uncertainties : nat)
    (stars zoom : bool) (chi2_poly : Q) (zr : list Q) (dz : Q * Q)
  : option (list Q * list Q * list (list Q) * list (list (list Q))) :=
  zgrid ← log_zgrid zr (fst dz);
  out ← xfit_at_z self 0%Q templates fitter fit_background
                  get_uncertainties false;
  match out with
  | DesignMatrix _ _ => None
  | Fit _ coeffs0 _ covar0 _ =>
      let ncoeffs := length coeffs0 in
      let cshape := shape2 covar0 in
      rows ← eval_grid self templates fitter fit_background
                       get_uncertainties ncoeffs cshape zgrid;
      let chi2 := map (fun r => fst (fst r)) rows in
      cmin ← Np.amin chi2;
      let shift :=
        if Np.Qlt_bool (cmin + 100)%Q chi2_poly then (cmin + 100)%Q
        else if Np.Qlt_bool chi2_poly (cmin + 9)%Q then (cmin + 16)%Q
        else chi2_poly in
      let chi2_rev :=
        map (fun c =>
               let v := ((shift - c) / inject_Z (DoF self))%Q in
               if Np.Qlt_bool v 0 then 0%Q else v)
            chi2 in
      let indexes := peak_indexes E chi2_rev in
      '(zgrid_all, rows_all) ←
         (if (0 <? length indexes) && negb stars && zoom then
            zgrid_zoom ← zoom_points zgrid chi2 dz indexes;
            rows_zoom ← eval_grid self templates fitter fit_background
                                  get_uncertainties ncoeffs cshape
                                  zgrid_zoom;
            Some (zgrid ++ zgrid_zoom, rows ++ rows_zoom)
          else Some (zgrid, rows));
      let so := Np.argsort zgrid_all in
      zs ← Np.take_idx so zgrid_all;
      rs ← Np.take_idx so rows_all;
      Some (zs, map (fun r => fst (fst r)) rs,
            map (fun r => snd (fst r)) rs, map snd rs)
  end.

(** [xfit_redshift(prior, zr, dz, fit_background, fitter, poly_order,
    zoom, templates, get_uncertainties)] *)
Definition xfit_redshift (self : GroupFitter)
    (prior : option (list Q * list Q)) (zr : ZrArg) (dz : Q * Q)
    (fit_background : bool) (fitter : string) (poly_order : nat)
    (zoom : bool) (templates : TemplateSet) (get_uncertainties : nat)
  : option FitTable :=
  let '(stars, zr1, fitter1) :=
    match zr with
    | ZrInt 0 => (true, Some [0; 1 # 100]%Q, "nnls"%string)
    | ZrInt _ => (false, None, fitter)
    | ZrList l => (false, Some l, fitter)
    end in
  zr2 ← zr1;
  _ ← log_zgrid zr2 (fst dz);
  out ← xfit_at_z self 0%Q (polynomial_templates E poly_order)
                  "lstsq" true 0 false;
  match out with
  | DesignMatrix _ _ => None
  | Fit chi2_poly _ _ _ _ =>
      let templates1 :=
        match templates with
        | [] => load_templates E stars
        | _ => templates
        end in
      '(zgrid, chi2, coeffs, covar) ←
         merged_grid self templates1 fitter1 fit_background
                     get_uncertainties stars zoom chi2_poly zr2 dz;
      cmin ← Np.amin chi2;
      cmax ← Np.amax chi2;
      izbest ← Np.argmin chi2;
      best ← coeffs !! izbest;
      let logdof := np_log E (inject_Z (DoF self)) in
      let clip :=
        Np.count_true (map (fun c => negb (Qeq_bool c 0)) best) in
      _parse_zfit_output self
        {| fit_zgrid := zgrid; fit_chi2 := chi2;
           fit_coeffs := coeffs; fit_covar := covar;
           meta_N := Nbeams self;
           meta_polyord := poly_order;
           meta_chi2poly := chi2_poly;
           meta_DoF := DoF self;
           meta_chimin := cmin;
           meta_chimax := cmax;
           meta_fitter := fitter1;
           meta_bic_poly :=
             ld ← logdof;
             Some (ld * inject_Z (Z.of_nat (poly_order + 1 + Nbeams self))
                   + (chi2_poly - cmin))%Q;
           meta_bic_temp :=
             ld ← logdof; Some (ld * inject_Z (Z.of_nat clip))%Q;
           meta_NTEMP := length templates1 |}
        prior
  end.

End Engine.

(** ** A small instance

    Executable stand-ins for the libraries, exact on the small systems
    they accept, and a group of one exposure of three pixels.  They are
    the concrete inputs at which the theorems below are evaluated. *)

Module Sample.

Definition sqrt_floor (q : Q) : Q :=
  let r := Qred q in Z.sqrt (Qnum r * Z.pos (Qden r)) # Qden r.

(** A positive, increasing rational stand-in for [exp], and its
    inverse: [1 + 10 x] from zero on, [1 / (1 - 10 x)] below *)
Definition exp1 (x : Q) : Q :=
  Qred (if Np.Qlt_bool x 0 then 1 / (1 - 10 * x) else 1 + 10 * x)%Q.

Definition log1 (y : Q) : option Q :=
  if Qle_bool y 0 then None
  else if Np.Qlt_bool y 1 then Some (Qred ((1 - 1 / y) / 10))
  else Some (Qred ((y - 1) / 10)).

Definition Qmax0 (x : Q) : Q := if Np.Qlt_bool x 0 then 0%Q else x.

(** The residual norm of [x] on the system of columns [cols] *)
Definition rss (cols : list (list Q)) (data x : list Q) : Q :=
  let fitted :=
    foldr (fun '(xi, col) acc => zip_with Qplus (map (Qmult xi) col) acc)
          (map (fun _ => 0%Q) data) (zip x cols) in
  Np.sum (zip_with (fun d f => ((d - f) ^ 2)%Q) data fitted).

(** Least squares by the normal equations, for at most two columns *)
Definition lstsq2 (cols : list (list Q)) (data : list Q)
  : option (list Q) :=
  match cols with
  | [] => Some []
  | [a] =>
      let aa := Np.dot_vv a a in
      Some [if Qeq_bool aa 0 then 0%Q else Qred (Np.dot_vv a data / aa)]
  | [a1; a2] =>
      let g11 := Np.dot_vv a1 a1 in
      let g12 := Np.dot_vv a1 a2 in
      let g22 := Np.dot_vv a2 a2 in
      let b1 := Np.dot_vv a1 data in
      let b2 := Np.dot_vv a2 data in
      let det := (g11 * g22 - g12 * g12)%Q in
      if Qeq_bool det 0 then None
      else Some [Qred ((g22 * b1 - g12 * b2) / det);
                 Qred ((g11 * b2 - g12 * b1) / det)]
  | _ => None
  end.

(** Non-negative least squares for at most two columns: the free
    solution when it is non-negative, else the better of the two
    one-column solutions *)
Definition nnls2 (cols : list (list Q)) (data : list Q)
  : option (list Q) :=
  match cols with
  | [] => Some []
  | [a] => x ← lstsq2 [a] data; Some (map Qmax0 x)
  | [a1; a2] =>
      let one a :=
        let aa := Np.dot_vv a a in
        if Qeq_bool aa 0 then 0%Q
        else Qmax0 (Qred (Np.dot_vv a data / aa)) in
      let c1 := [one a1; 0%Q] in
      let c2 := [0%Q; one a2] in
      let edge :=
        if Qle_bool (rss cols data c1) (rss cols data c2) then c1 else c2 in
      match lstsq2 cols data with
      | Some [x1; x2] =>
          if Qle_bool 0 x1 && Qle_bool 0 x2 then Some [x1; x2]
          else Some edge
      | _ => Some edge
      end
  | _ => None
  end.

Definition clip (lo hi : Bound) (x : Q) : Q :=
  let x1 := match lo with
            | Finite l => if Np.Qlt_bool x l then l else x
            | _ => x
            end in
  match hi with
  | Finite h => if Np.Qlt_bool h x1 then h else x1
  | _ => x1
  end.

(** Bounded least squares for one column *)
Definition bvls1 (cols : list (list Q)) (data : list Q)
    (lo hi : list Bound) : option (list Q) :=
  match cols, lo, hi with
  | [], _, _ => Some []
  | [a], [l], [h] => x ← lstsq2 [a] data; Some (map (clip l h) x)
  | _, _, _ => None
  end.

(** The inverse of a matrix of at most two rows *)
Definition inverse2 (M : list (list Q)) : option (list (list Q)) :=
  match M with
  | [] => Some []
  | [[a]] => if Qeq_bool a 0 then None else Some [[Qred (1 / a)]]
  | [[a; b]; [c; d]] =>
      let det := (a * d - b * c)%Q in
      if Qeq_bool det 0 then None
      else Some [[Qred (d / det); Qred (- b / det)];
                 [Qred (- c / det); Qred (a / det)]]
  | _ => None
  end.

(** A pixel model: pixel [k] sees the flux and the wavelength of the
    [k]-th sample of the spectrum *)
Definition pixel_model (b : Beam) (thumb : option string)
    (s : list Q * list Q) : list Q :=
  map (fun k => Qred (default 0 (snd s !! k) + default 0 (fst s !! k))%Q)
      (seq 0 (length (beam_fit_mask b))).

(** Piecewise-linear interpolation in place of the Akima spline *)
Definition linear_spline (x : list Q) (y : list (option Q))
  : option (Q -> option Q) :=
  if (length x <? 2) || negb (length x =? length y) then None
  else Some (fun z =>
               ys ← mapM id y;
               lo ← Np.amin x;
               hi ← Np.amax x;
               if Np.Qlt_bool z lo || Np.Qlt_bool hi z then None
               else Qred <$> Np.interp z x ys).

(** The parabola through three points *)
Definition parabola (x y : list Q) (deg : nat) : list Q :=
  match x, y with
  | [x0; x1; x2], [y0; y1; y2] =>
      let d01 := ((y1 - y0) / (x1 - x0))%Q in
      let d12 := ((y2 - y1) / (x2 - x1))%Q in
      let c0 := ((d12 - d01) / (x2 - x0))%Q in
      let c1 := (d01 - c0 * (x0 + x1))%Q in
      [Qred c0; Qred c1; Qred (y0 - c1 * x0 - c0 * x0 ^ 2)]
  | _, _ => [0; 0; 0]%Q
  end.

(** The interior local maxima *)
Definition local_maxima (y : list Q) : list nat :=
  List.filter (fun i =>
                 match y !! (i - 1), y !! i, y !! (i + 1) with
                 | Some a, Some b, Some c =>
                     Np.Qlt_bool a b && Qle_bool c b
                 | _, _, _ => false
                 end)
              (seq 1 (length y - 2)).

Definition sample_wave : list Q := [1; 2; 3]%Q.

Definition poly_templates (order : nat) : TemplateSet :=
  map (fun k =>
         ("poly"%string,
          {| wave := sample_wave;
             flux := map (fun w => (w ^ Z.of_nat k)%Q) sample_wave |}))
      (seq 0 (order + 1)).

Definition line_template : SpectrumTemplate :=
  {| wave := sample_wave; flux := [0; 1; 0]%Q |}.

Definition externals : Externals :=
  {| np_sqrt := sqrt_floor;
     np_exp := exp1;
     np_log := log1;
     nnls := nnls2;
     lstsq := lstsq2;
     lsq_linear := bvls1;
     matrix_inverse := inverse2;
     IGM := None;
     compute_model := pixel_model;
     integrate_filter := fun tz _ => Np.sum (flux tz);
     spline := linear_spline;
     polyfit := parabola;
     peak_indexes := local_maxima;
     polynomial_templates := poly_templates;
     load_templates := fun _ => [("line Ha"%string, line_template)] |}.

Definition beam3 : Beam :=
  {| beam_fit_mask := [true; true; true];
     sh := (1, 3);
     beam_wave := sample_wave;
     thumbs := [] |}.

(** One exposure of three unmasked pixels, no photometry *)
Definition group3 (data : list Q) : GroupFitter :=
  {| Nbeams := 1; beams := [beam3];
     mslices := _get_slices_masked 0 [beam3];
     A_bgm := _init_background 3 (_get_slices_masked 0 [beam3]);
     Nmask := 3; Nphot := 0; DoF := 3;
     scif := data; sivarf := [1; 1; 1]%Q; weightf := [1; 1; 1]%Q;
     fit_mask := [true; true; true];
     wavef := sample_wave;
     is_spec := IsSpecOne;
     pscale := None;
     photom_flam := []; photom_eflam := [];
     photom_filters := []; photom_pivot := [];
     tempfilt := None |}.

(** A second pixel model: pixel [k] sees the offset of the redshifted
    wavelength from the wavelength of the pixel, times the integral of
    flux times wavelength, which does not change with redshift *)
Definition offset_model (b : Beam) (thumb : option string)
    (s : list Q * list Q) : list Q :=
  let total := Qred (Np.dot_vv (snd s) (fst s)) in
  map (fun k =>
         Qred ((default 0 (beam_wave b !! k) - default 0 (fst s !! k))
               * total)%Q)
      (seq 0 (length (beam_fit_mask b))).

Definition line_externals : Externals :=
  {| np_sqrt := sqrt_floor;
     np_exp := exp1;
     np_log := log1;
     nnls := nnls2;
     lstsq := lstsq2;
     lsq_linear := bvls1;
     matrix_inverse := inverse2;
     IGM := None;
     compute_model := offset_model;
     integrate_filter := fun tz _ => Np.sum (flux tz);
     spline := linear_spline;
     polyfit := parabola;
     peak_indexes := local_maxima;
     polynomial_templates := poly_templates;
     load_templates := fun _ => [("line Ha"%string, line_template)] |}.

(** A line that sits on the middle pixel at redshift 0.004 *)
Definition line_beam : Beam :=
  {| beam_fit_mask := [true; true; true];
     sh := (1, 3);
     beam_wave := [1; 1004 # 1000; 0]%Q;
     thumbs := [] |}.

Definition line_group : GroupFitter :=
  {| Nbeams := 1; beams := [line_beam];
     mslices := _get_slices_masked 0 [line_beam];
     A_bgm := _init_background 3 (_get_slices_masked 0 [line_beam]);
     Nmask := 3; Nphot := 0; DoF := 3;
     scif := [1; 0; 1]%Q; sivarf := [1; 1; 1]%Q; weightf := [1; 1; 1]%Q;
     fit_mask := [true; true; true];
     wavef := [1; 1004 # 1000; 0]%Q;
     is_spec := IsSpecOne;
     pscale := None;
     photom_flam := []; photom_eflam := [];
     photom_filters := []; photom_pivot := [];
     tempfilt := None |}.

Definition line_templates : TemplateSet :=
  [("line"%string, {| wave := [0; 1; 0]%Q; flux := [0; 1; 0]%Q |})].

Definition masked_beam : Beam :=
  {| beam_fit_mask := [false; false; false];
     sh := (1, 3);
     beam_wave := sample_wave;
     thumbs := [] |}.

(** One exposure without any unmasked pixel *)
Definition masked_group : GroupFitter :=
  {| Nbeams := 1; beams := [masked_beam];
     mslices := _get_slices_masked 0 [masked_beam];
     A_bgm := _init_background 0 (_get_slices_masked 0 [masked_beam]);
     Nmask := 0; Nphot := 0; DoF := 0;
     scif := [1; 3; 2]%Q; sivarf := [1; 1; 1]%Q; weightf := [1; 1; 1]%Q;
     fit_mask := [false; false; false];
     wavef := sample_wave;
     is_spec := IsSpecOne;
     pscale := None;
     photom_flam := []; photom_eflam := [];
     photom_filters := []; photom_pivot := [];
     tempfilt := None |}.

(** The same with one photometric point, of flux 0.003 and uncertainty
    0.001, attached by [set_photometry] *)
Definition photometry_only_group : GroupFitter :=
  (set_photometry sqrt_floor masked_group [3 # 1000]%Q [1 # 1000]%Q
     [{| pivot := 1 |}] false None 0%Q).1.

(** A chi-squared curve over three redshifts, as [xfit_redshift] hands
    it to [_parse_zfit_output], and a prior that rises with redshift *)
Definition chi2_table (chi2 : list Q) : GridTable :=
  {| fit_zgrid := [0; 2 # 1000; 4 # 1000]%Q;
     fit_chi2 := chi2;
     fit_coeffs := [[1]; [1]; [1]]%Q;
     fit_covar := [[[0]]; [[0]]; [[0]]]%Q;
     meta_N := 1; meta_polyord := 0; meta_chi2poly := 2;
     meta_DoF := 3; meta_chimin := 1; meta_chimax := 2;
     meta_fitter := "nnls";
     meta_bic_poly := None; meta_bic_temp := None;
     meta_NTEMP := 1 |}.

Definition rising_prior : list Q * list Q := ([0; 1]%Q, [1; 2]%Q).

End Sample.

(** Whether [self.is_spec] flags position [k] as spectral *)
Definition spectral_at (self : GroupFitter) (k : nat) : bool :=
  match is_spec self with
  | IsSpecOne => true
  | IsSpecArray flags => default false (flags !! k)
  end.

(** ** Predicates of the statements *)

(** A 2-D array of [r] rows and [c] columns *)
Definition is_shape (r c : nat) (M : list (list Q)) : Prop :=
  length M = r /\ Forall (fun row => length row = c) M.

(** Row [(chi2, coeffs, covar)] is what [xfit_at_z] returns at [z]. *)
Definition fit_row (E : Externals) (g : GroupFitter) (T : TemplateSet)
    (fitter : string) (fb : bool) (gu : nat) (z : Q)
    (row : Q * list Q * list (list Q)) : Prop :=
  exists err ph,
    xfit_at_z E g z T fitter fb gu false
      = Some (Fit row.1.1 row.1.2 err row.2 ph).

(** The samples after [(x0, f0)] do not decrease, in either coordinate *)
Fixpoint rising (x0 f0 : Q) (rest : list (Q * Q)) : Prop :=
  match rest with
  | [] => True
  | (x1, f1) :: rest' => (x0 <= x1)%Q /\ (f0 <= f1)%Q /\ rising x1 f1 rest'
  end.

(** Reduction of a bind of the option monad on a known result *)
Ltac obind := cbn [mbind option_bind mret option_ret] in *.

(** ** [utils.unset_dq_bits] *)

(** [np.binary_repr(num)]: the binary digits from the highest down, ["0"]
    for zero, and a minus sign before the digits of [-num] for a negative
    number.  A Python string is the list of its characters. *)
Definition bit_char (b : bool) : ascii := if b then "1"%char else "0"%char.

Fixpoint pos_bits (p : positive) : list bool :=
  match p with
  | xH => [true]
  | xO q => false :: pos_bits q
  | xI q => true :: pos_bits q
  end.

Definition binary_repr (num : Z) : list ascii :=
  match num with
  | Z0 => ["0"%char]
  | Zpos p => reverse (map bit_char (pos_bits p))
  | Zneg p => "-"%char :: reverse (map bit_char (pos_bits p))
  end.

(** [unset_dq_bits(value, okbits)] for an integer [value]:
    [value -= (value & 2**i)] for every [i] with
    [bin_bits[-(i+1)] == '1'] *)
Definition unset_dq_bits (value okbits : Z) : Z :=
  let bin_bits := binary_repr okbits in
  let n := length bin_bits in
  foldl (fun value i =>
           match bin_bits !! (n - (i + 1)) with
           | Some c =>
               if Ascii.eqb c "1"
               then (value - Z.land value (2 ^ Z.of_nat i))%Z
               else value
           | None => value
           end)
        value (seq 0 n).

(** ** [utils.get_hst_filter] *)

(** Python's string methods on ASCII text, which FITS headers are:
    [str.strip()] removes the white space at both ends, [str.upper()]
    maps [a-z] to [A-Z], [pat in s] looks for a substring, and
    ['FILTER{0:d}'.format(i)] appends the decimal digits of [i]. *)
Definition is_space (c : ascii) : bool :=
  let n := nat_of_ascii c in
  ((9 <=? n) && (n <=? 13)) || ((28 <=? n) && (n <=? 32)).

Fixpoint lstrip (s : list ascii) : list ascii :=
  match s with
  | c :: s' => if is_space c then lstrip s' else s
  | [] => []
  end.

Definition strip (s : string) : string :=
  string_of_list_ascii
    (reverse (lstrip (reverse (lstrip (list_ascii_of_string s))))).

Definition upper_char (c : ascii) : ascii :=
  let n := nat_of_ascii c in
  if (97 <=? n) && (n <=? 122) then ascii_of_nat (n - 32) else c.

Fixpoint upper (s : string) : string :=
  match s with
  | EmptyString => EmptyString
  | String c s' => String (upper_char c) (upper s')
  end.

Fixpoint contains (pat s : string) : bool :=
  if String.prefix pat s then true
  else match s with
       | EmptyString => false
       | String _ s' => contains pat s'
       end.

Definition filter_key (i : nat) : string :=
  String.append "FILTER" (NilZero.string_of_uint (Nat.to_uint i)).

(** [get_hst_filter(header)]: a missing keyword raises KeyError, and the
    name [filter] is unbound, which raises too, when both ACS filters
    hold CLEAR *)
Definition get_hst_filter (header : gmap string string) : option string :=
  instrume ← header !! "INSTRUME"%string;
  filter ←
    (if String.eqb (strip instrume) "ACS" then
       bound ← foldM (fun (bound : option string) i =>
                        filter_i ← header !! filter_key i;
                        if contains "CLEAR" filter_i then Some bound
                        else Some (Some filter_i))
                     [1; 2] None;
       bound
     else header !! "FILTER"%string);
  Some (upper filter).

(** The header of an ACS exposure through the F814W filter, with the
    instrument name padded as FITS cards are *)
Definition acs_header : gmap string string :=
  <["INSTRUME"%string := "ACS   "%string]>
    (<["FILTER1"%string := "CLEAR1L"%string]>
       (<["FILTER2"%string := "f814w"%string]> ∅)).

(** ** [utils.SpectrumTemplate] *)

Definition Qle_dec (x y : Q) : Decision (x <= y)%Q :=
  match Qlt_le_dec y x with
  | left H => right (Qlt_not_le _ _ H)
  | right H => left H
  end.

(** [l.sort()] and [np.sort(l)] *)
Definition np_sort (l : list Q) : list Q := @merge_sort Q Qle Qle_dec l.

(** [np.unique(l)]: the sorted values of [l], each once *)
Fixpoint drop_repeats (prev : Q) (l : list Q) : list Q :=
  match l with
  | [] => []
  | x :: l' =>
      if Qeq_bool prev x then drop_repeats prev l'
      else x :: drop_repeats x l'
  end.

Definition np_unique (l : list Q) : list Q :=
  match np_sort l with
  | [] => []
  | x :: l' => x :: drop_repeats x l'
  end.

(** [np.interp(x, xp, fp)] for an array [x]: ValueError when [xp] is
    empty or [fp] has another length *)
Definition interp_array (x xp fp : list Q) : option (list Q) :=
  if (length xp =? length fp) && (0 <? length xp)
  then mapM (fun q => Np.interp q xp fp) x
  else None.

(** [SpectrumTemplate.zscale(z, scalar)]; [igm] is the curve
    [eazy.igm.Inoue14().full_IGM], [None] when the import fails *)
Definition SpectrumTemplate_zscale (igm : option (Q -> list Q -> list Q))
    (self : SpectrumTemplate) (z scalar : Q) : option SpectrumTemplate :=
  let w := map (fun w => (w * (1 + z))%Q) (wave self) in
  let f := map (fun f => (f * scalar / (1 + z))%Q) (flux self) in
  match igm with
  | None => Some {| wave := w; flux := map (fun f => (f * 1)%Q) f |}
  | Some full_IGM =>
      f' ← Np.elementwise Qmult f (full_IGM z w);
      Some {| wave := w; flux := f' |}
  end.

(** [SpectrumTemplate.__add__] *)
Definition SpectrumTemplate_add (self spectrum : SpectrumTemplate)
  : option SpectrumTemplate :=
  let new_wave := np_sort (np_unique (wave self ++ wave spectrum)) in
  f1 ← interp_array new_wave (wave self) (flux self);
  f2 ← interp_array new_wave (wave spectrum) (flux spectrum);
  new_flux ← Np.elementwise Qplus f1 f2;
  Some {| wave := new_wave; flux := new_flux |}.

(** [SpectrumTemplate.__mul__] *)
Definition SpectrumTemplate_mul (self : SpectrumTemplate) (scalar : Q)
  : SpectrumTemplate :=
  {| wave := wave self; flux := map (fun f => (f * scalar)%Q) (flux self) |}.

(** Two templates are the same spectrum: the same wavelengths and fluxes
    as numbers *)
Definition same_spectrum (a b : SpectrumTemplate) : Prop :=
  Forall2 Qeq (wave a) (wave b) /\ Forall2 Qeq (flux a) (flux b).

(** ** Counting over the beams *)

(** [sum(beam.fit_mask.sum() for beam in beams)] *)
Definition unmasked_total (bs : list Beam) : nat :=
  sum_list (map (fun b => Np.count_true (beam_fit_mask b)) bs).

(** ** Bounds of the bounded solver *)

(** [x] lies between the bounds [lo] and [hi] of [lsq_linear] *)
Definition within (lo hi : Bound) (x : Q) : Prop :=
  match lo with
  | NegInf => True
  | Finite l => (l <= x)%Q
  | PosInf => False
  end
  /\ match hi with
     | NegInf => False
     | Finite h => (x <= h)%Q
     | PosInf => True
     end.

(** What [scipy.optimize.lsq_linear] promises of its solution: every
    entry lies between its bounds *)
Definition respects_bounds (E : Externals) : Prop :=
  forall Ax data lo hi x,
    lsq_linear E Ax data lo hi = Some x ->
    forall k l h xk,
      lo !! k = Some l -> hi !! k = Some h -> x !! k = Some xk ->
      within l h xk.

(** A stand-in for [lsq_linear] that raises on bounds that cannot be
    met, as scipy does, and the libraries with it *)
Definition feasible (lo hi : Bound) : bool :=
  match lo, hi with
  | PosInf, _ => false
  | _, NegInf => false
  | Finite l, Finite h => Qle_bool l h
  | _, _ => true
  end.

Definition checked_bvls1 (cols : list (list Q)) (data : list Q)
    (lo hi : list Bound) : option (list Q) :=
  if forallb (fun lh : Bound * Bound => feasible (fst lh) (snd lh))
             (zip lo hi)
  then Sample.bvls1 cols data lo hi
  else None.

Definition bounded_externals : Externals :=
  {| np_sqrt := np_sqrt Sample.externals;
     np_exp := np_exp Sample.externals;
     np_log := np_log Sample.externals;
     nnls := nnls Sample.externals;
     lstsq := lstsq Sample.externals;
     lsq_linear := checked_bvls1;
     matrix_inverse := matrix_inverse Sample.externals;
     IGM := IGM Sample.externals;
     compute_model := compute_model Sample.externals;
     integrate_filter := integrate_filter Sample.externals;
     spline := spline Sample.externals;
     polyfit := polyfit Sample.externals;
     peak_indexes := peak_indexes Sample.externals;
     polynomial_templates := polynomial_templates Sample.externals;
     load_templates := load_templates Sample.externals |}.

(** ** More inputs *)

(** A group after [self.pscale = ps] *)
Definition with_pscale (g : GroupFitter) (ps : list Q) : GroupFitter :=
  {| Nbeams := Nbeams g; beams := beams g; mslices := mslices g;
     A_bgm := A_bgm g; Nmask := Nmask g; Nphot := Nphot g; DoF := DoF g;
     scif := scif g; sivarf := sivarf g; weightf := weightf g;
     fit_mask := fit_mask g; wavef := wavef g; is_spec := is_spec g;
     pscale := Some ps;
     photom_flam := photom_flam g; photom_eflam := photom_eflam g;
     photom_filters := photom_filters g; photom_pivot := photom_pivot g;
     tempfilt := tempfilt g |}.

(** Two photometric points, the second without a measured uncertainty *)
Definition two_filters : list FilterDefinition :=
  [{| pivot := 1 |}; {| pivot := 2 |}].

(** * Properties *)

(** ** Arrays *)

Lemma Qlt_bool_iff (x y : Q) : Np.Qlt_bool x y = true <-> (x < y)%Q.
Proof.
  unfold Np.Qlt_bool. rewrite negb_true_iff.
  split.
  - intros H. apply Qnot_le_lt. intros Hle.
    apply Qle_bool_iff in Hle. congruence.
  - intros H. destruct (Qle_bool y x) eqn:Hb; [|reflexivity].
    apply Qle_bool_iff in Hb. exfalso. exact (Qlt_not_le _ _ H Hb).
Qed.

Lemma Qlt_bool_false (x y : Q) : Np.Qlt_bool x y = false <-> (y <= x)%Q.
Proof.
  unfold Np.Qlt_bool. rewrite negb_false_iff. apply Qle_bool_iff.
Qed.

Lemma count_true_app (a b : list bool) :
  Np.count_true (a ++ b) = Np.count_true a + Np.count_true b.
Proof. unfold Np.count_true. by rewrite filter_app, length_app. Qed.

Lemma count_true_le (m : list bool) : Np.count_true m <= length m.
Proof. unfold Np.count_true. apply length_filter. Qed.



(** ** Photometry *)

Section PhotometryFacts.

Variable np_sqrt : Q -> Q.

(** Whatever the inputs, a call that does not get to the end of
    [set_photometry] leaves the concatenated arrays as they were. *)
Lemma set_photometry_early (g : GroupFitter) (flam eflam : list Q)
    (filters : list FilterDefinition) (force : bool)
    (tf : option TemplateGrid) (min_err : Q) :
  (set_photometry np_sqrt g flam eflam filters force tf min_err).2
    <> ReturnNone ->
  let g' := (set_photometry np_sqrt g flam eflam filters force tf min_err).1 in
  scif g' = scif g /\ sivarf g' = sivarf g /\ weightf g' = weightf g
  /\ fit_mask g' = fit_mask g /\ wavef g' = wavef g.
Proof.
  unfold set_photometry.
  destruct ((0 <? Nphot g) && negb force); [by cbn|].
  destruct (_ =? 0); [by cbn|].
  destruct (negb _ || negb _); [by cbn|].
  cbn. congruence.
Qed.

End PhotometryFacts.

(** C9, as amended.  When the flux, uncertainty and filter arrays differ in
    length, [set_photometry] leaves [scif], [sivarf], [weightf],
    [fit_mask] and [wavef] as they were; and it returns [False] when the
    call gets past its two guards, that is when no photometry is attached
    yet (or [force] is set) and at least one uncertainty is positive. *)
Theorem set_photometry_mismatch (np_sqrt : Q -> Q) (g : GroupFitter)
    (flam eflam : list Q) (filters : list FilterDefinition) (force : bool)
    (tf : option TemplateGrid) (min_err : Q) :
  length flam <> length eflam \/ length flam <> length filters ->
  (scif (set_photometry np_sqrt g flam eflam filters force tf min_err).1
     = scif g
   /\ sivarf (set_photometry np_sqrt g flam eflam filters force tf min_err).1
     = sivarf g
   /\ weightf (set_photometry np_sqrt g flam eflam filters force tf min_err).1
     = weightf g
   /\ fit_mask (set_photometry np_sqrt g flam eflam filters force tf min_err).1
     = fit_mask g
   /\ wavef (set_photometry np_sqrt g flam eflam filters force tf min_err).1
     = wavef g)
  /\ (Nphot g = 0 \/ force = true ->
      0 < Np.count_true (map (fun e => Np.Qlt_bool 0 e) eflam) ->
      (set_photometry np_sqrt g flam eflam filters force tf min_err).2
        = ReturnFalse).
Proof.
  intros Hmis.
  assert (Hchk : negb (length flam =? length eflam)
                 || negb (length flam =? length filters) = true).
  { apply orb_true_iff.
    destruct Hmis as [H|H]; [left|right];
      apply negb_true_iff, Nat.eqb_neq; exact H. }
  split.
  - apply set_photometry_early. unfold set_photometry.
    destruct ((0 <? Nphot g) && negb force); [by cbn|].
    destruct (_ =? 0); [by cbn|].
    rewrite Hchk. by cbn.
  - intros Hguard Hpos. unfold set_photometry.
    assert (Hg : (0 <? Nphot g) && negb force = false).
    { destruct Hguard as [->| ->]; [reflexivity|].
      by rewrite andb_false_r. }
    rewrite Hg.
    destruct (_ =? 0) eqn:Hz; [apply Nat.eqb_eq in Hz; lia|].
    by rewrite Hchk.
Qed.

Lemma set_photometry_mismatch_witness :
  (set_photometry Sample.sqrt_floor (Sample.group3 [1; 3; 2]%Q)
     [1; 2]%Q [1]%Q [{| pivot := 1 |}; {| pivot := 2 |}]
     false None (2 # 100)%Q).2 = ReturnFalse.
Proof.
  refine (proj2 (set_photometry_mismatch Sample.sqrt_floor
                   (Sample.group3 [1; 3; 2]%Q) [1; 2]%Q [1]%Q
                   [{| pivot := 1 |}; {| pivot := 2 |}]
                   false None (2 # 100)%Q _) _ _).
  - left. cbn. lia.
  - left. reflexivity.
  - vm_compute. lia.
Defined.

(** C9 as stated fails: with one flux and no uncertainty at all the
    lengths differ, and the call returns [True], since no uncertainty is
    positive. *)
Lemma set_photometry_mismatch_returns_true :
  ~ (length [1%Q] <> length (@nil Q)
     \/ length [1%Q] <> length (@nil FilterDefinition) ->
     (set_photometry Sample.sqrt_floor (Sample.group3 [1; 3; 2]%Q)
        [1%Q] [] [] false None (2 # 100)%Q).2 = ReturnFalse).
Proof.
  intros H.
  assert (Hm : length [1%Q] <> length (@nil Q)) by (cbn; lia).
  specialize (H (or_introl Hm)). vm_compute in H. discriminate H.
Qed.



(** ** Shapes of the array operations *)

Lemma bool_index_Some {A : Type} (m : list bool) (l r : list A) :
  Np.bool_index m l = Some r -> length m = length l /\ r = Np.compress m l.
Proof.
  unfold Np.bool_index. destruct (_ =? _) eqn:H; [|discriminate].
  apply Nat.eqb_eq in H. intros [= <-]. by split.
Qed.


Lemma length_compress {A : Type} (m : list bool) (l : list A) :
  length m = length l -> length (Np.compress m l) = Np.count_true m.
Proof.
  revert l. induction m as [|b m IH]; intros [|x l] Hl; try discriminate;
    [reflexivity|].
  cbn in Hl. injection Hl as Hl. unfold Np.count_true in *. cbn [Np.compress].
  destruct b.
  - rewrite filter_cons_True by reflexivity. cbn. by rewrite IH.
  - rewrite filter_cons_False by discriminate. by apply IH.
Qed.

Lemma Forall_compress {A : Type} (P : A -> Prop) (m : list bool) (l : list A) :
  Forall P l -> Forall P (Np.compress m l).
Proof.
  intros H. revert m. induction H as [|x l Hx _ IH]; intros [|[] m]; cbn;
    auto.
Qed.

Lemma elementwise_Some (f : Q -> Q -> Q) (a b r : list Q) :
  Np.elementwise f a b = Some r ->
  length a = length b /\ r = zip_with f a b /\ length r = length a.
Proof.
  unfold Np.elementwise. destruct (_ =? _) eqn:H; [|discriminate].
  apply Nat.eqb_eq in H. intros [= <-].
  repeat split; [exact H|]. rewrite length_zip_with. lia.
Qed.


Lemma rows_op_Some (f : Q -> Q -> Q) (M M' : list (list Q)) (v : list Q) :
  Np.rows_op f M v = Some M' ->
  length M' = length M
  /\ Forall (fun r => length r = length v) M
  /\ Forall (fun r => length r = length v) M'.
Proof.
  unfold Np.rows_op. intros H. apply mapM_Some in H.
  induction H as [|r r' M M' Hr _ IH]; [by repeat split|].
  destruct IH as (Hl & H1 & H2).
  apply elementwise_Some in Hr as (Ha & _ & Hb).
  repeat split; [cbn; lia| |]; constructor; auto; lia.
Qed.


Lemma length_dot_fold (n : nat) (l : list (Q * list Q)) :
  Forall (fun cr => length cr.2 = n) l ->
  length (foldr (fun '(ci, row) acc =>
                   zip_with Qplus (map (Qmult ci) row) acc)
                (Np.zeros n) l) = n.
Proof.
  induction 1 as [|[c r] l Hr _ IH]; cbn.
  - apply length_replicate.
  - cbn in Hr. rewrite length_zip_with, length_map, IH. lia.
Qed.

Lemma dot_vm_Some (n : nat) (c : list Q) (M : list (list Q)) (r : list Q) :
  Np.dot_vm n c M = Some r ->
  length c = length M /\ Forall (fun row => length row = n) M /\ length r = n.
Proof.
  unfold Np.dot_vm. destruct (_ =? _) eqn:Hc; [|discriminate].
  destruct (forallb _ M) eqn:Hf; [|discriminate].
  apply Nat.eqb_eq in Hc. intros [= <-].
  assert (HM : Forall (fun row => length row = n) M).
  { apply Forall_forall. intros row Hin.
    rewrite forallb_forall in Hf.
    apply Nat.eqb_eq, Hf. by apply list_elem_of_In. }
  repeat split; auto.
  apply length_dot_fold.
  apply Forall_forall. intros [ci row] Hin.
  apply elem_of_zip_r in Hin. cbn.
  rewrite Forall_forall in HM. auto.
Qed.


Lemma length_scatter (m : list bool) (v : list Q) :
  length (Np.scatter m v) = length m.
Proof.
  revert v. induction m as [|[] m IH]; intros v; cbn; [reflexivity| |].
  - destruct v; cbn; by rewrite IH.
  - by rewrite IH.
Qed.

Lemma length_mul_from (n : nat) (c : Q) (l : list Q) :
  length (Np.mul_from n c l) = length l.
Proof.
  unfold Np.mul_from.
  rewrite length_app, length_map, length_take, length_drop. lia.
Qed.

Lemma length_sub_head (n : nat) (c : Q) (l : list Q) :
  length (Np.sub_head n c l) = length l.
Proof.
  unfold Np.sub_head.
  rewrite length_app, length_map, length_take, length_drop. lia.
Qed.

Lemma length_fill_tail (n : nat) (v : Q) (l : list Q) :
  length (fill_tail n v l) = length l.
Proof.
  unfold fill_tail.
  rewrite length_app, length_take, length_replicate. lia.
Qed.





(** ** The design matrix *)

Lemma foldM_invariant {A B : Type} (P : B -> Prop)
    (f : B -> A -> option B) (l : list A) (b b' : B) :
  (forall x y y', P y -> f y x = Some y' -> P y') ->
  P b -> foldM f l b = Some b' -> P b'.
Proof.
  intros Hstep. revert b. induction l as [|x l IH]; intros b Hb; cbn.
  - by intros [= <-].
  - destruct (f b x) as [b1|] eqn:Hf; [|discriminate]. cbn.
    apply IH. by eapply Hstep.
Qed.

Lemma assign_idx_length (idx : list nat) (vals row row' : list Q) :
  Np.assign_idx idx vals row = Some row' -> length row' = length row.
Proof.
  unfold Np.assign_idx. destruct (_ && _); [|discriminate].
  intros [= <-]. generalize (zip idx vals). intros l. revert row.
  induction l as [|[k v] l IH]; intros row; cbn; [reflexivity|].
  by rewrite IH, length_insert.
Qed.

Lemma assign_tail_length (n : nat) (vals row row' : list Q) :
  Np.assign_tail n vals row = Some row' -> length row' = length row.
Proof.
  unfold Np.assign_tail. destruct (_ && _) eqn:H; [|discriminate].
  apply andb_true_iff in H as [H1 H2].
  apply Nat.eqb_eq in H1. apply Nat.leb_le in H2.
  intros [= <-]. rewrite length_app, length_take. lia.
Qed.

Section DesignFacts.

Variable E : Externals.

Lemma template_row_length (g : GroupFitter) (z : Q)
    (tt : string * SpectrumTemplate) (row : list Q) :
  template_row E g z tt = Some row -> length row = Nmask g.
Proof.
  unfold template_row. destruct tt as [t ti].
  destruct (redshifted _ _ _) as [s|]; [|discriminate]. cbn.
  apply (foldM_invariant (fun r => length r = Nmask g)).
  - intros [j b] y y' Hy. unfold template_row_step.
    destruct (column_clip b) as [clip|]; [|discriminate]. cbn.
    destruct (_ =? 0); [by intros [= <-]|].
    destruct (Np.bool_index clip _) as [lam|]; [|discriminate]. cbn.
    destruct (Np.amin s.1); [|discriminate]. cbn.
    destruct (Np.amax s.1); [|discriminate]. cbn.
    destruct (Np.amin lam); [|discriminate]. cbn.
    destruct (Np.amax lam); [|discriminate]. cbn.
    destruct (_ || _); [by intros [= <-]|].
    destruct (mslices g !! j) as [osl|]; [|discriminate]. cbn.
    destruct osl as [sl|]; [|discriminate]. cbn.
    destruct (Np.bool_index _ _) as [m|]; [|discriminate]. cbn.
    intros H. apply assign_idx_length in H. congruence.
  - apply length_replicate.
Qed.

(** [A] has one row per exposure and per template, whether or not the
    background is fitted, and one column per unmasked position. *)
Lemma design_rows_shape (g : GroupFitter) (z : Q) (T : TemplateSet)
    (fb : bool) (A : list (list Q)) :
  design_rows E g z T fb = Some A ->
  is_shape (Nbeams g + length T) (Nmask g) A.
Proof.
  unfold design_rows.
  destruct (if fb then _ else _) as [bg|] eqn:Hbg; [|discriminate]. obind.
  destruct (mapM _ T) as [trows|] eqn:Htr; [|discriminate]. obind.
  assert (Hs : is_shape (Nbeams g + length T) (Nmask g) (bg ++ trows)).
  { split.
    - rewrite length_app. f_equal.
      + destruct fb.
        * destruct (_ && _) eqn:Hc; [|discriminate].
          injection Hbg as <-. rewrite length_map.
          apply andb_true_iff in Hc as [Hc _].
          apply andb_true_iff in Hc as [Hc _]. by apply Nat.eqb_eq.
        * injection Hbg as <-. apply length_replicate.
      + apply length_mapM in Htr. congruence.
    - apply Forall_app. split.
      + destruct fb.
        * destruct (_ && _) eqn:Hc; [|discriminate].
          injection Hbg as <-.
          apply andb_true_iff in Hc as [Hc Hle].
          apply andb_true_iff in Hc as [_ Hc].
          apply Nat.leb_le in Hle.
          apply Forall_forall. intros r Hin.
          apply list_elem_of_fmap in Hin as (r0 & -> & Hin).
          rewrite forallb_forall in Hc.
          specialize (Hc r0 (proj1 (list_elem_of_In _ _) Hin)).
          apply Nat.eqb_eq in Hc.
          rewrite length_app. unfold Np.zeros. rewrite length_replicate. lia.
        * injection Hbg as <-. apply Forall_replicate, length_replicate.
      + apply mapM_Some in Htr.
        induction Htr as [|tt r T' R' Hr _ IH]; constructor; auto.
        by apply template_row_length in Hr. }
  destruct (0 <? Nphot g); [|by intros [= <-]].
  destruct (_interpolate_photometry _ _ _ _) as [Aph|]; [|discriminate].
  obind. destruct (length Aph =? _) eqn:Hl; [|discriminate].
  apply Nat.eqb_eq in Hl. intros HA. apply mapM_Some in HA.
  destruct Hs as [Hs1 Hs2]. split.
  - apply Forall2_length in HA. rewrite length_zip in HA. lia.
  - assert (Hz : Forall (fun rp : list Q * list Q => length rp.1 = Nmask g)
                        (zip (bg ++ trows) Aph)).
    { apply Forall_forall. intros [r p] Hin. cbn.
      apply elem_of_zip_l in Hin. rewrite Forall_forall in Hs2. auto. }
    clear Hs1 Hs2 Hl. induction HA as [|rp r l l' Hr _ IH];
      [constructor|].
    inversion Hz; subst. constructor; auto.
    apply assign_tail_length in Hr. congruence.
Qed.

End DesignFacts.

(** ** The fit at one redshift *)

Section FitFacts.

Variable E : Externals.



End FitFacts.

Lemma rows_op_rows (f : Q -> Q -> Q) (M M' : list (list Q)) (v : list Q)
    (c : nat) :
  Np.rows_op f M v = Some M' ->
  Forall (fun r => length r = c) M -> Forall (fun r => length r = c) M'.
Proof.
  unfold Np.rows_op. intros H. apply mapM_Some in H.
  induction H as [|r r' M M' Hr _ IH]; intros HM; [constructor|].
  inversion HM; subst. constructor; auto.
  apply elementwise_Some in Hr as (_ & _ & Hr). exact Hr.
Qed.

Lemma length_oktemp_of (A : list (list Q)) :
  length (oktemp_of A) = length A.
Proof. unfold oktemp_of. apply length_map. Qed.

Section SystemFacts.

Variable E : Externals.

Lemma apply_pscale_shape (g : GroupFitter) (fb : bool)
    (Ax0 Ax : list (list Q)) (c : nat) :
  apply_pscale g fb Ax0 = Some Ax ->
  Forall (fun r => length r = c) Ax0 ->
  length Ax = length Ax0 /\ Forall (fun r => length r = c) Ax.
Proof.
  unfold apply_pscale. destruct (pscale g) as [ps|];
    [|intros [= <-]; auto].
  destruct (Np.bool_index _ _) as [wm|]; [|discriminate]. obind.
  destruct (Np.rows_op Qmult Ax0 _) as [Ax'|] eqn:H1; [|discriminate].
  obind. intros H HAx0.
  pose proof (rows_op_rows _ _ _ _ _ H1 HAx0) as Hr1.
  apply rows_op_Some in H1 as (Hl1 & _ & _).
  destruct fb; [|injection H as <-; auto].
  destruct (_ <=? _) eqn:Hle; [|discriminate].
  apply Nat.leb_le in Hle.
  destruct (Np.rows_op Qdiv _ _) as [hd|] eqn:H2; [|discriminate].
  obind. injection H as <-.
  assert (Ht : Forall (fun r => length r = c) (take (Nbeams g) Ax'))
    by (by apply Forall_take).
  pose proof (rows_op_rows _ _ _ _ _ H2 Ht) as Hr2.
  apply rows_op_Some in H2 as (Hl2 & _ & _).
  split.
  - rewrite length_app, Hl2, length_take, length_drop. lia.
  - apply Forall_app. split; [exact Hr2|by apply Forall_drop].
Qed.

(** What a design system that could be built tells about the group *)
Lemma design_system_facts (g : GroupFitter) (z : Q) (T : TemplateSet)
    (fitter : string) (fb : bool) (A : list (list Q)) (oktemp : list bool)
    (Ax : list (list Q)) (data : list Q) :
  design_system E g z T fitter fb = Some (A, oktemp, Ax, data) ->
  is_shape (Nbeams g + length T) (Nmask g) A
  /\ oktemp = oktemp_of A
  /\ length (fit_mask g) = length (sivarf g)
  /\ length (fit_mask g) = length (scif g)
  /\ Np.count_true (fit_mask g) = Nmask g
  /\ is_shape (Np.count_true oktemp) (Nmask g) Ax
  /\ masked_data g (pedestal_of fitter fb) = Some data.
Proof.
  unfold design_system.
  destruct (design_rows E g z T fb) as [A0|] eqn:HA; [|discriminate].
  obind. apply design_rows_shape in HA.
  destruct (Np.bool_index _ (sivarf g)) as [sm|] eqn:Hsm; [|discriminate].
  obind. apply bool_index_Some in Hsm as [Hsl ->].
  destruct (negb _) eqn:Hn; [discriminate|].
  apply negb_false_iff, Nat.eqb_eq in Hn.
  rewrite (length_compress _ _ Hsl) in Hn.
  destruct (Np.rows_op Qmult _ _) as [Ax0|] eqn:H0; [|discriminate].
  obind.
  destruct (apply_pscale g fb Ax0) as [Ax1|] eqn:H1; [|discriminate].
  obind.
  destruct (masked_data g _) as [d|] eqn:Hd; [|discriminate]. obind.
  intros [= <- <- <- <-].
  destruct HA as [HA1 HA2].
  assert (Hc : Forall (fun r => length r = Nmask g)
                      (Np.compress (oktemp_of A0) A0))
    by (by apply Forall_compress).
  pose proof (rows_op_rows _ _ _ _ _ H0 Hc) as Hr0.
  apply rows_op_Some in H0 as (Hl0 & _ & _).
  apply (apply_pscale_shape _ _ _ _ _ H1) in Hr0 as [Hl1 Hr1].
  assert (Hscif : length (fit_mask g) = length (scif g)).
  { unfold masked_data in Hd.
    destruct (pedestal_array g _) as [ped|]; [|discriminate]. obind.
    destruct (Np.elementwise Qplus _ _) as [a|] eqn:Ha; [|discriminate].
    obind.
    destruct (Np.elementwise Qmult _ _) as [b|] eqn:Hb; [|discriminate].
    obind.
    apply elementwise_Some in Ha as (_ & _ & Ha).
    apply elementwise_Some in Hb as (_ & _ & Hb).
    apply bool_index_Some in Hd as [Hd _]. congruence. }
  repeat apply conj; auto.
  rewrite Hl1, Hl0. apply length_compress. by rewrite length_oktemp_of.
Qed.


End SystemFacts.

Lemma background_model_coeffs (g : GroupFitter) (fb : bool) (ped : Q)
    (A : list (list Q)) (solved bg ci : list Q) :
  background_model g fb ped A solved = Some (bg, ci) ->
  ci = if fb then Np.sub_head (Nbeams g) ped solved else solved.
Proof.
  unfold background_model. destruct fb.
  - destruct (Np.dot_vm _ _ _); [|discriminate]. obind. by intros [= _ <-].
  - destruct (Np.bool_index _ _); [|discriminate]. obind. by intros [= _ <-].
Qed.








(** ** Coefficients and the pedestal *)

Lemma count_true_cons (b : bool) (m : list bool) :
  Np.count_true (b :: m) = (if b then 1 else 0) + Np.count_true m.
Proof.
  unfold Np.count_true. destruct b.
  - by rewrite filter_cons_True.
  - by rewrite filter_cons_False.
Qed.

Lemma count_true_replicate (n : nat) :
  Np.count_true (replicate n true) = n.
Proof.
  induction n as [|n IH]; [reflexivity|].
  cbn [replicate]. rewrite count_true_cons, IH. reflexivity.
Qed.

Lemma scatter_lookup_true (m : list bool) (v : list Q) (i : nat) (x : Q) :
  m !! i = Some true ->
  v !! Np.count_true (take i m) = Some x ->
  Np.scatter m v !! i = Some x.
Proof.
  revert v i. induction m as [|b m IH]; intros v i Hm Hv; [done|].
  destruct i as [|i].
  - cbn in Hm. injection Hm as ->. cbn in *. by destruct v.
  - cbn in Hm. cbn [take] in Hv. rewrite count_true_cons in Hv.
    destruct b; cbn [Np.scatter].
    + destruct v as [|y v]; [done|]. cbn. apply IH; auto.
    + cbn. apply IH; auto.
Qed.

Lemma scatter_lookup_false (m : list bool) (v : list Q) (i : nat) :
  m !! i = Some false -> Np.scatter m v !! i = Some 0%Q.
Proof.
  revert v i. induction m as [|b m IH]; intros v i Hm; [done|].
  destruct i as [|i].
  - cbn in Hm. injection Hm as ->. reflexivity.
  - cbn in Hm. destruct b; cbn [Np.scatter].
    + destruct v; cbn; by apply IH.
    + cbn. by apply IH.
Qed.

Lemma count_true_take_lt (m : list bool) (i : nat) :
  m !! i = Some true -> Np.count_true (take i m) < Np.count_true m.
Proof.
  revert i. induction m as [|b m IH]; intros i Hm; [done|].
  destruct i as [|i].
  - cbn in Hm. injection Hm as ->. cbn [take].
    rewrite count_true_cons. cbn. unfold Np.count_true at 1. cbn. lia.
  - cbn in Hm. cbn [take]. rewrite !count_true_cons.
    specialize (IH _ Hm). lia.
Qed.

Lemma scatter_Forall (P : Q -> Prop) (m : list bool) (v : list Q) :
  P 0%Q -> Forall P v -> Forall P (Np.scatter m v).
Proof.
  intros H0. revert v. induction m as [|[] m IH]; intros v Hv; cbn.
  - constructor.
  - destruct Hv; constructor; auto.
  - constructor; auto.
Qed.

Lemma scatter_true_prefix (n : nat) (m : list bool) (v1 v2 : list Q) :
  length v1 = n ->
  Np.scatter (replicate n true ++ m) (v1 ++ v2) = v1 ++ Np.scatter m v2.
Proof.
  revert v1. induction n as [|n IH]; intros [|x v1] Hl; try discriminate;
    [reflexivity|].
  cbn. f_equal. apply IH. by injection Hl.
Qed.

Lemma sub_head_lookup (n : nat) (c : Q) (l : list Q) (r : nat) (x : Q) :
  r < n -> l !! r = Some x -> Np.sub_head n c l !! r = Some (x - c)%Q.
Proof.
  intros Hr Hl. unfold Np.sub_head.
  rewrite lookup_app_l.
  2: { rewrite length_map, length_take. apply lookup_lt_Some in Hl. lia. }
  change (map ?f ?l) with (f <$> l).
  by rewrite list_lookup_fmap, lookup_take_lt, Hl.
Qed.

Lemma mul_from_lookup_head (n : nat) (c : Q) (l : list Q) (i : nat) :
  i < n -> Np.mul_from n c l !! i = l !! i.
Proof.
  intros Hi. unfold Np.mul_from.
  destruct (decide (i < length l)) as [Hl|Hl].
  - rewrite lookup_app_l by (rewrite length_take; lia).
    by apply lookup_take_lt.
  - rewrite (lookup_ge_None_2 l) by lia.
    apply lookup_ge_None_2.
    rewrite length_app, length_map, length_take, length_drop. lia.
Qed.

Section CoefficientFacts.

Variable E : Externals.

(** The coefficients that [xfit_at_z] returns, from those of the solver *)
Lemma xfit_at_z_coeffs (g : GroupFitter) (z : Q) (T : TemplateSet)
    (fitter : string) (fb : bool) (gu : nat) (A : list (list Q))
    (ok : list bool) (Ax : list (list Q)) (data solved : list Q)
    (chi2 : Q) (coeffs err : list Q) (covar : list (list Q))
    (ph : option (list Q)) :
  design_system E g z T fitter fb = Some (A, ok, Ax, data) ->
  solve E g T fitter ok Ax data = Some solved ->
  xfit_at_z E g z T fitter fb gu false
    = Some (Fit chi2 coeffs err covar ph) ->
  let ci := if fb then Np.sub_head (Nbeams g) (pedestal_of fitter fb) solved
            else solved in
  coeffs = Np.mul_from (Nbeams g) COEFF_SCALE (Np.scatter ok ci)
  /\ Np.count_true ok = length solved
  /\ exists bg,
       background_model g fb (pedestal_of fitter fb) A solved
         = Some (bg, ci).
Proof.
  intros Hsys Hsolve. unfold xfit_at_z. rewrite Hsys. obind.
  rewrite Hsolve. obind. unfold fit_outputs.
  destruct (background_model _ _ _ _ _) as [[bg ci]|] eqn:Hbm;
    [|discriminate].
  obind. intros H.
  repeat (match type of H with
          | (match ?x with _ => _ end) = _ =>
              destruct x eqn:?; [|discriminate]
          | (?x ≫= _) = _ => destruct x; [|discriminate]
          end; obind).
  injection H as _ <- _ _ _.
  pose proof (background_model_coeffs _ _ _ _ _ _ _ Hbm) as Hci.
  cbn zeta. rewrite <- Hci. split; [reflexivity|]. split.
  - match goal with H : (_ =? _) = true |- _ =>
      apply Nat.eqb_eq in H; rewrite H end.
    subst ci. destruct fb; [apply length_sub_head|reflexivity].
  - by exists bg.
Qed.

End CoefficientFacts.

(** [set_photometry] flags as spectral the positions that were there
    before, and no appended position. *)
Lemma set_photometry_is_spec (np_sqrt : Q -> Q) (g : GroupFitter)
    (flam eflam : list Q) (filters : list FilterDefinition) (force : bool)
    (tf : option TemplateGrid) (min_err : Q) (k : nat) :
  (set_photometry np_sqrt g flam eflam filters force tf min_err).2
    = ReturnNone ->
  k < length (scif (set_photometry np_sqrt g flam eflam filters force
                      tf min_err).1) ->
  spectral_at (set_photometry np_sqrt g flam eflam filters force tf min_err).1 k
    = (k <? length (scif g)).
Proof.
  unfold set_photometry.
  destruct (_ && negb force); [discriminate|].
  destruct (_ =? 0); [discriminate|].
  destruct (negb _ || negb _); [discriminate|].
  cbn [fst snd scif]. intros _ Hk. unfold spectral_at. cbn [is_spec].
  rewrite length_app in *.
  replace (length (scif g) + length flam - length flam)
    with (length (scif g)) by lia.
  destruct (k <? length (scif g)) eqn:Hlt.
  - apply Nat.ltb_lt in Hlt.
    rewrite lookup_app_l by (rewrite length_replicate; lia).
    by rewrite lookup_replicate_2.
  - apply Nat.ltb_ge in Hlt.
    rewrite lookup_app_r by (rewrite length_replicate; lia).
    rewrite length_replicate, lookup_replicate_2 by lia. reflexivity.
Qed.

Lemma fill_tail_lookup (n : nat) (v : Q) (l : list Q) (k : nat) (x : Q) :
  l !! k = Some x ->
  fill_tail n v l !! k = Some (if length l - n <=? k then v else x).
Proof.
  intros Hl. pose proof (lookup_lt_Some _ _ _ Hl) as Hk.
  unfold fill_tail. destruct (length l - n <=? k) eqn:Hc.
  - apply Nat.leb_le in Hc.
    rewrite lookup_app_r by (rewrite length_take; lia).
    rewrite length_take. apply lookup_replicate_2. lia.
  - apply Nat.leb_gt in Hc.
    rewrite lookup_app_l by (rewrite length_take; lia).
    by rewrite lookup_take_lt.
Qed.

Lemma pedestal_of_background (fitter : string) :
  fitter = "nnls"%string \/ fitter = "lstsq"%string ->
  pedestal_of fitter true = (4 # 100)%Q.
Proof. by intros [-> | ->]. Qed.

(** C7.  With background fitting and the [nnls] or [lstsq] solver, the
    data vector is the masked [(scif + 0.04) * sivarf] at the positions
    that [is_spec] flags as spectral (after [set_photometry], all but the
    appended photometric ones, by [set_photometry_is_spec]) and
    [scif * sivarf] at the others; every solved background coefficient
    comes back with 0.04 taken off, a dropped one as 0; and the background
    model is the sum of the solved backgrounds less 0.04, zero at the
    photometric positions. *)
Theorem pedestal_added_and_removed (E : Externals) (g : GroupFitter) (z : Q)
    (T : TemplateSet) (fitter : string) (gu : nat) (A : list (list Q))
    (ok : list bool) (Ax : list (list Q)) (data solved : list Q)
    (chi2 : Q) (coeffs err : list Q) (covar : list (list Q))
    (ph : option (list Q)) :
  fitter = "nnls"%string \/ fitter = "lstsq"%string ->
  design_system E g z T fitter true = Some (A, ok, Ax, data) ->
  solve E g T fitter ok Ax data = Some solved ->
  xfit_at_z E g z T fitter true gu false
    = Some (Fit chi2 coeffs err covar ph) ->
  (exists full,
     data = Np.compress (fit_mask g) full
     /\ length full = length (scif g)
     /\ forall k s v,
          scif g !! k = Some s -> sivarf g !! k = Some v ->
          full !! k
            = Some ((s + (4 # 100) * (if spectral_at g k then 1 else 0))
                    * v)%Q)
  /\ (forall i, i < Nbeams g -> ok !! i = Some true ->
      exists s,
        solved !! Np.count_true (take i ok) = Some s
        /\ coeffs !! i = Some (s - (4 # 100))%Q)
  /\ (forall i, i < Nbeams g -> ok !! i = Some false ->
      coeffs !! i = Some 0%Q)
  /\ (exists b bg ci,
        Np.dot_vm (Nmask g) (take (Nbeams g) solved) (take (Nbeams g) A)
          = Some b
        /\ background_model g true (4 # 100)%Q A solved = Some (bg, ci)
        /\ forall k x,
             b !! k = Some x ->
             bg !! k
               = Some (if (0 <? Nphot g) && (Nmask g - Nphot g <=? k)
                       then 0 else x - (4 # 100))%Q).
Proof.
  intros Hfit Hsys Hsolve Hx.
  pose proof (pedestal_of_background _ Hfit) as Hped.
  pose proof (xfit_at_z_coeffs E _ _ _ _ _ _ _ _ _ _ _ _ _ _ _ _
                Hsys Hsolve Hx) as (Hco & Hcnt & bg & Hbm).
  cbn zeta in Hco, Hbm. rewrite Hped in Hco, Hbm.
  apply design_system_facts in Hsys as (_ & _ & _ & _ & _ & _ & Hd).
  rewrite Hped in Hd.
  split; [|split; [|split]].
  - unfold masked_data in Hd.
    destruct (pedestal_array g _) as [pa|] eqn:Hpa; [|discriminate]. obind.
    destruct (Np.elementwise Qplus _ _) as [a|] eqn:Ha; [|discriminate].
    obind.
    destruct (Np.elementwise Qmult _ _) as [b|] eqn:Hb; [|discriminate].
    obind.
    apply elementwise_Some in Ha as (Hal & -> & Hal').
    apply elementwise_Some in Hb as (Hbl & -> & Hbl').
    apply bool_index_Some in Hd as [_ ->].
    eexists. split; [reflexivity|]. split; [congruence|].
    intros k s v Hs Hv.
    rewrite !lookup_zip_with, Hs, Hv. cbn.
    assert (Hp : pa !! k
                 = Some ((4 # 100) * (if spectral_at g k then 1 else 0))%Q).
    { unfold pedestal_array, spectral_at in *.
      destruct (is_spec g) as [|fl].
      - injection Hpa as <-. change (map ?f ?l) with (f <$> l).
        by rewrite list_lookup_fmap, Hs.
      - destruct (_ =? _) eqn:Hl; [|discriminate].
        apply Nat.eqb_eq in Hl. injection Hpa as <-.
        change (map ?f ?l) with (f <$> l). rewrite list_lookup_fmap.
        destruct (fl !! k) as [b|] eqn:Hf.
        + cbn. by destruct b.
        + apply lookup_ge_None in Hf. apply lookup_lt_Some in Hs. lia. }
    rewrite Hp. reflexivity.
  - intros i Hi Hok.
    pose proof (count_true_take_lt _ _ Hok) as Hr.
    assert (Hr2 : Np.count_true (take i ok) <= i).
    { etransitivity; [apply count_true_le|]. rewrite length_take. lia. }
    destruct (lookup_lt_is_Some_2 solved (Np.count_true (take i ok)))
      as [s Hs]; [lia|].
    exists s. split; [exact Hs|].
    rewrite Hco, mul_from_lookup_head by exact Hi.
    apply scatter_lookup_true; [exact Hok|].
    apply sub_head_lookup; [lia|exact Hs].
  - intros i Hi Hok.
    rewrite Hco, mul_from_lookup_head by exact Hi.
    by apply scatter_lookup_false.
  - unfold background_model in Hbm.
    destruct (Np.dot_vm _ _ _) as [b|] eqn:Hb; [|discriminate]. obind.
    exists b. eexists _, _. split; [reflexivity|]. split.
    + unfold background_model. rewrite Hb. obind. reflexivity.
    + intros k x Hk.
      apply dot_vm_Some in Hb as (_ & _ & Hbl).
      assert (Hm : map (fun x => (x - (4 # 100))%Q) b !! k
                   = Some (x - (4 # 100))%Q).
      { change (map ?f ?l) with (f <$> l).
        by rewrite list_lookup_fmap, Hk. }
      destruct (0 <? Nphot g); cbn [andb].
      * rewrite (fill_tail_lookup _ _ _ _ _ Hm), length_map, Hbl.
        reflexivity.
      * exact Hm.
Qed.

Lemma pedestal_added_and_removed_witness :
  let g := Sample.group3 [1; 3; 2]%Q in
  exists (A : list (list Q)) (ok : list bool) (data solved coeffs : list Q),
    (exists full,
       data = Np.compress (fit_mask g) full
       /\ length full = length (scif g)
       /\ forall k s v,
            scif g !! k = Some s -> sivarf g !! k = Some v ->
            full !! k
              = Some ((s + (4 # 100) * (if spectral_at g k then 1 else 0))
                      * v)%Q)
    /\ (forall i, i < Nbeams g -> ok !! i = Some true ->
        exists s,
          solved !! Np.count_true (take i ok) = Some s
          /\ coeffs !! i = Some (s - (4 # 100))%Q)
    /\ (forall i, i < Nbeams g -> ok !! i = Some false ->
        coeffs !! i = Some 0%Q)
    /\ (exists b bg ci,
          Np.dot_vm (Nmask g) (take (Nbeams g) solved) (take (Nbeams g) A)
            = Some b
          /\ background_model g true (4 # 100)%Q A solved = Some (bg, ci)
          /\ forall k x,
               b !! k = Some x ->
               bg !! k
                 = Some (if (0 <? Nphot g) && (Nmask g - Nphot g <=? k)
                         then 0 else x - (4 # 100))%Q).
Proof.
  intros g. do 5 eexists.
  eapply (pedestal_added_and_removed Sample.externals
            (Sample.group3 [1; 3; 2]%Q) 0%Q
            [("line Ha"%string, Sample.line_template)] "nnls" 0).
  - left. reflexivity.
  - vm_compute. reflexivity.
  - vm_compute. reflexivity.
  - vm_compute. reflexivity.
Defined.

(** The template coefficients of [nnls] come back non-negative when the
    background is not fitted, or when every background row is kept by
    [oktemp]. *)
Lemma nnls_template_coefficients_nonneg (E : Externals) (g : GroupFitter)
    (z : Q) (T : TemplateSet) (fb : bool) (gu : nat) (A : list (list Q))
    (ok : list bool) (Ax : list (list Q)) (data solved : list Q)
    (chi2 : Q) (coeffs err : list Q) (covar : list (list Q))
    (ph : option (list Q)) :
  design_system E g z T "nnls" fb = Some (A, ok, Ax, data) ->
  nnls E Ax data = Some solved ->
  Forall (fun x => (0 <= x)%Q) solved ->
  (fb = true -> take (Nbeams g) ok = replicate (Nbeams g) true) ->
  xfit_at_z E g z T "nnls" fb gu false
    = Some (Fit chi2 coeffs err covar ph) ->
  forall i c, Nbeams g <= i -> coeffs !! i = Some c -> (0 <= c)%Q.
Proof.
  intros Hsys Hsolve Hpos Hkept Hx i c Hi Hc.
  assert (Hsolve' : solve E g T "nnls" ok Ax data = Some solved)
    by exact Hsolve.
  pose proof (xfit_at_z_coeffs E _ _ _ _ _ _ _ _ _ _ _ _ _ _ _ _
                Hsys Hsolve' Hx) as (Hco & Hcnt & _).
  cbn zeta in Hco.
  apply design_system_facts in Hsys as ([HA _] & Hok & _).
  assert (Hokl : length ok = Nbeams g + length T).
  { by rewrite Hok, length_oktemp_of. }
  assert (Htail : Forall (fun x => (0 <= x)%Q)
            (drop (Nbeams g)
               (Np.scatter ok
                  (if fb
                   then Np.sub_head (Nbeams g) (pedestal_of "nnls" fb) solved
                   else solved)))).
  { destruct fb.
    - specialize (Hkept eq_refl).
      assert (Hge : Nbeams g <= length solved).
      { rewrite <- Hcnt, <- (take_drop (Nbeams g) ok), Hkept.
        rewrite count_true_app, count_true_replicate. lia. }
      rewrite <- (take_drop (Nbeams g) ok), Hkept. unfold Np.sub_head.
      rewrite scatter_true_prefix
        by (rewrite length_map, length_take; lia).
      rewrite drop_app_length'
        by (rewrite length_map, length_take; lia).
      apply scatter_Forall; [apply Qle_refl|by apply Forall_drop].
    - apply Forall_drop, scatter_Forall; [apply Qle_refl|exact Hpos]. }
  rewrite Hco in Hc. unfold Np.mul_from in Hc.
  assert (Hlen : i < length ok).
  { apply lookup_lt_Some in Hc.
    rewrite length_app, length_map, length_take, length_drop,
      length_scatter in Hc. lia. }
  rewrite lookup_app_r in Hc by (rewrite length_take, length_scatter; lia).
  rewrite length_take, length_scatter in Hc.
  change (map ?f ?l) with (f <$> l) in Hc.
  rewrite list_lookup_fmap in Hc.
  destruct (drop _ _ !! _) as [x|] eqn:Hxl; [|discriminate].
  injection Hc as <-.
  rewrite Forall_forall in Htail.
  specialize (Htail x (list_elem_of_lookup_2 _ _ _ Hxl)).
  unfold COEFF_SCALE. apply Qmult_le_0_compat; [exact Htail|].
  discriminate.
Qed.

(** C5 fails on a group whose one exposure has no unmasked pixel and
    which has one photometric point.  The background row is dropped, the
    solver gives the template 0.01, and [coeffs_i[:self.N] -= pedestal]
    takes the pedestal off the template coefficient: the returned
    template coefficient is negative. *)
Theorem nnls_template_coefficient_negative :
  exists A ok Ax data chi2 coeffs err covar ph c,
    design_system Sample.externals Sample.photometry_only_group 0%Q
      [("line Ha"%string, Sample.line_template)] "nnls" true
      = Some (A, ok, Ax, data)
    /\ ok = [false; true]
    /\ nnls Sample.externals Ax data = Some [1 # 100]%Q
    /\ xfit_at_z Sample.externals Sample.photometry_only_group 0%Q
         [("line Ha"%string, Sample.line_template)] "nnls" true 0 false
       = Some (Fit chi2 coeffs err covar ph)
    /\ Nbeams Sample.photometry_only_group = 1
    /\ coeffs !! 1 = Some c
    /\ (c == ((1 # 100) - (4 # 100)) * COEFF_SCALE)%Q
    /\ (c < 0)%Q.
Proof.
  do 10 eexists.
  split; [vm_compute; reflexivity|].
  split; [reflexivity|].
  split; [vm_compute; reflexivity|].
  split; [vm_compute; reflexivity|].
  split; [reflexivity|].
  split; [reflexivity|].
  split; [vm_compute; reflexivity|].
  vm_compute. reflexivity.
Qed.

(** ** Sorting the grid *)

Lemma key_le_total (l : list Q) : Total (Np.key_le l).
Proof.
  intros i j. unfold Np.key_le.
  destruct (Qlt_le_dec (default 0%Q (l !! j)) (default 0%Q (l !! i)))
    as [H|H]; [right; by apply Qlt_le_weak|by left].
Qed.

Lemma argsort_Permutation (l : list Q) :
  Np.argsort l ≡ₚ seq 0 (length l).
Proof. unfold Np.argsort. apply merge_sort_Permutation. Qed.

Lemma argsort_Sorted (l : list Q) : Sorted (Np.key_le l) (Np.argsort l).
Proof. unfold Np.argsort. apply Sorted_merge_sort, key_le_total. Qed.

Lemma take_idx_lookup {A : Type} (idx : list nat) (l r : list A) (k : nat)
    (x : A) :
  Np.take_idx idx l = Some r -> r !! k = Some x ->
  exists i, idx !! k = Some i /\ l !! i = Some x.
Proof.
  unfold Np.take_idx. intros H. apply mapM_Some in H.
  revert k. induction H as [|i y idx r Hi _ IH]; intros k Hk; [done|].
  destruct k as [|k]; cbn in Hk.
  - injection Hk as ->. by exists i.
  - destruct (IH _ Hk) as (j & Hj & Hl). by exists j.
Qed.

Lemma take_idx_length {A : Type} (idx : list nat) (l r : list A) :
  Np.take_idx idx l = Some r -> length r = length idx.
Proof. unfold Np.take_idx. intros H. by apply length_mapM in H. Qed.

(** The values of a list, taken in the order of [argsort], are sorted. *)
Lemma take_idx_argsort_Sorted (l zs : list Q) :
  Np.take_idx (Np.argsort l) l = Some zs -> Sorted Qle zs.
Proof.
  intros H. pose proof (argsort_Sorted l) as Hs.
  unfold Np.take_idx in H. apply mapM_Some in H.
  revert Hs. induction H as [|i z idx zs Hi Hrest IH]; intros Hs;
    [constructor|].
  apply Sorted_inv in Hs as [Hs Hhd]. constructor; [by apply IH|].
  destruct Hrest as [|j z' idx' zs' Hj _]; constructor.
  apply HdRel_inv in Hhd. unfold Np.key_le in Hhd.
  by rewrite Hi, Hj in Hhd.
Qed.

Lemma mapM_Permutation {A B : Type} (f : A -> option B) (l l' : list A)
    (k : list B) :
  l ≡ₚ l' -> mapM f l = Some k ->
  exists k', mapM f l' = Some k' /\ k ≡ₚ k'.
Proof.
  intros Hp. revert k.
  induction Hp as [|x l l' _ IH|x y l|l l' l'' _ IH1 _ IH2]; intros k Hk.
  - exists k. by split.
  - cbn in *. destruct (f x) as [b|]; [|discriminate]. obind.
    destruct (mapM f l) as [k0|] eqn:H0; [|discriminate]. obind.
    injection Hk as <-. destruct (IH _ eq_refl) as (k' & -> & Hk').
    obind. exists (b :: k'). split; [reflexivity|by constructor].
  - cbn in *. destruct (f y) as [b|]; [|discriminate]. obind.
    destruct (f x) as [a|]; [|discriminate]. obind.
    destruct (mapM f l) as [k0|]; [|discriminate]. obind.
    injection Hk as <-. exists (a :: b :: k0).
    split; [reflexivity|by constructor].
  - destruct (IH1 _ Hk) as (k1 & H1 & Hp1).
    destruct (IH2 _ H1) as (k2 & H2 & Hp2).
    exists k2. split; [exact H2|by etransitivity].
Qed.

Lemma mapM_lookup_seq {A : Type} (l : list A) :
  mapM (fun i => l !! i) (seq 0 (length l)) = Some l.
Proof.
  apply mapM_Some. apply Forall2_same_length_lookup. split.
  - by rewrite length_seq.
  - intros i j x Hj Hx. apply lookup_seq in Hj as [-> _]. exact Hx.
Qed.

(** Indexing with [argsort] permutes. *)
Lemma take_idx_argsort_Permutation {A : Type} (key : list Q) (l r : list A) :
  length l = length key ->
  Np.take_idx (Np.argsort key) l = Some r -> r ≡ₚ l.
Proof.
  intros Hl H. unfold Np.take_idx in H.
  destruct (mapM_Permutation _ _ _ _ (argsort_Permutation key) H)
    as (k' & Hk' & Hp).
  rewrite <- Hl, mapM_lookup_seq in Hk'. injection Hk' as <-. exact Hp.
Qed.

(** ** The redshift grid *)

Section GridFacts.

Variable E : Externals.

Lemma eval_grid_rows (g : GroupFitter) (T : TemplateSet) (fitter : string)
    (fb : bool) (gu nc : nat) (cs : nat * nat) (zs : list Q)
    (rows : list (Q * list Q * list (list Q))) :
  eval_grid E g T fitter fb gu nc cs zs = Some rows ->
  Forall2 (fit_row E g T fitter fb gu) zs rows.
Proof.
  unfold eval_grid. intros H. apply mapM_Some in H.
  eapply Forall2_impl; [exact H|]. clear. intros z row H. cbn in H.
  destruct (xfit_at_z _ _ _ _ _ _ _ _) as [[|c co er cv ph]|] eqn:Hx;
    try discriminate.
  obind. destruct (_ && _); [|discriminate]. injection H as <-.
  exists er, ph. exact Hx.
Qed.

(** What the merged grid is: the coarse grid and, unless the fit is
    stellar or [zoom] is off, zoom points, in non-decreasing order of
    redshift, each with the row that [xfit_at_z] gives there. *)
Lemma merged_grid_spec (g : GroupFitter) (T : TemplateSet)
    (fitter : string) (fb : bool) (gu : nat) (stars zoom : bool)
    (chi2_poly : Q) (zr : list Q) (dz : Q * Q)
    (zs chi2 : list Q) (coeffs : list (list Q))
    (covar : list (list (list Q))) :
  merged_grid E g T fitter fb gu stars zoom chi2_poly zr dz
    = Some (zs, chi2, coeffs, covar) ->
  exists coarse zoomp rows,
    log_zgrid E zr dz.1 = Some coarse
    /\ zs ≡ₚ coarse ++ zoomp
    /\ (stars = true \/ zoom = false -> zoomp = [])
    /\ Sorted Qle zs
    /\ Forall2 (fit_row E g T fitter fb gu) zs rows
    /\ chi2 = map (fun r => r.1.1) rows
    /\ coeffs = map (fun r => r.1.2) rows
    /\ covar = map snd rows.
Proof.
  unfold merged_grid.
  destruct (log_zgrid E zr dz.1) as [coarse|]; [|discriminate]. obind.
  destruct (xfit_at_z _ _ _ _ _ _ _ _) as [[|c0 co0 er0 cv0 ph0]|];
    try discriminate.
  obind.
  destruct (eval_grid _ _ _ _ _ _ _ _ coarse) as [rows|] eqn:Hrows;
    [|discriminate].
  obind. apply eval_grid_rows in Hrows.
  destruct (Np.amin _) as [cmin|]; [|discriminate]. obind.
  match goal with
  | |- context [peak_indexes E ?x] => generalize (peak_indexes E x)
  end.
  intros indexes.
  destruct (if (0 <? length indexes) && negb stars && zoom then _ else _)
    as [[zall rall]|] eqn:Hzoom; [|discriminate].
  obind.
  assert (Hall : exists zoomp,
             zall = coarse ++ zoomp
             /\ (stars = true \/ zoom = false -> zoomp = [])
             /\ Forall2 (fit_row E g T fitter fb gu) zall rall).
  { destruct ((0 <? length indexes) && negb stars && zoom) eqn:Hc.
    - destruct (zoom_points _ _ _ _ _) as [zz|]; [|discriminate]. obind.
      destruct (eval_grid _ _ _ _ _ _ _ _ zz) as [rz|] eqn:Hrz;
        [|discriminate].
      obind. injection Hzoom as <- <-. apply eval_grid_rows in Hrz.
      exists zz. split; [reflexivity|]. split.
      + apply andb_true_iff in Hc as [Hc Hz].
        apply andb_true_iff in Hc as [_ Hs].
        apply negb_true_iff in Hs.
        intros [?|?]; congruence.
      + by apply Forall2_app.
    - injection Hzoom as <- <-. exists []. rewrite app_nil_r. auto. }
  destruct Hall as (zoomp & Hzall & Hnozoom & Hrel).
  destruct (Np.take_idx _ zall) as [zs'|] eqn:Hzs; [|discriminate]. obind.
  destruct (Np.take_idx _ rall) as [rs|] eqn:Hrs; [|discriminate]. obind.
  intros [= <- <- <- <-].
  exists coarse, zoomp, rs.
  split; [reflexivity|]. split.
  { rewrite <- Hzall. by eapply take_idx_argsort_Permutation. }
  split; [exact Hnozoom|]. split.
  { by eapply take_idx_argsort_Sorted. }
  split; [|auto].
  apply Forall2_same_length_lookup. split.
  - apply take_idx_length in Hzs, Hrs. congruence.
  - intros k z row Hz Hr.
    destruct (take_idx_lookup _ _ _ _ _ Hzs Hz) as (i & Hi & Hzi).
    destruct (take_idx_lookup _ _ _ _ _ Hrs Hr) as (i' & Hi' & Hri).
    assert (i' = i) by congruence. subst i'.
    by eapply Forall2_lookup_lr.
Qed.

(** The columns of the table that [xfit_redshift] returns are the
    merged grid; the solver it records is the one the grid was made
    with. *)
Lemma xfit_redshift_grid (g : GroupFitter)
    (prior : option (list Q * list Q)) (zr : ZrArg) (dz : Q * Q)
    (fb : bool) (fitter : string) (po : nat) (zoom : bool)
    (T : TemplateSet) (gu : nat) (r : FitTable) :
  xfit_redshift E g prior zr dz fb fitter po zoom T gu = Some r ->
  let stars := match zr with ZrInt 0 => true | _ => false end in
  let fitter1 := if stars then "nnls"%string else fitter in
  let T1 := match T with [] => load_templates E stars | _ => T end in
  exists chi2_poly zr2,
    (zr2 = match zr with
           | ZrInt _ => [0; 1 # 100]%Q
           | ZrList l => l
           end)
    /\ merged_grid E g T1 fitter1 fb gu stars zoom chi2_poly zr2 dz
       = Some (fit_zgrid (grid r), fit_chi2 (grid r),
               fit_coeffs (grid r), fit_covar (grid r))
    /\ meta_fitter (grid r) = fitter1
    /\ _parse_zfit_output E g (grid r) prior = Some r.
Proof.
  unfold xfit_redshift.
  destruct zr as [[|p|p]|l]; cbn zeta; cbn [mbind option_bind];
    try discriminate.
  all: destruct (log_zgrid E _ _); [|discriminate]; obind.
  all: destruct (xfit_at_z _ _ _ _ _ _ _ _) as [[|cp cop erp cvp php]|];
    try discriminate; obind.
  all: destruct (merged_grid _ _ _ _ _ _ _ _ _ _ _)
    as [[[[zs chi2] coeffs] covar]|] eqn:Hm; [|discriminate]; obind.
  all: destruct (Np.amin chi2); [|discriminate]; obind.
  all: destruct (Np.amax chi2); [|discriminate]; obind.
  all: destruct (Np.argmin chi2); [|discriminate]; obind.
  all: destruct (coeffs !! _); [|discriminate]; obind.
  all: intros Hp; exists cp; eexists; split; [reflexivity|].
  all: assert (Hg := Hp); unfold _parse_zfit_output in Hg.
  all: destruct (posterior_pdf _ _ _ _ _) as [[pdf ip]|];
    [|discriminate]; obind.
  all: destruct (pz_percentiles _ _ _) as [pz|]; [|discriminate]; obind.
  all: destruct pz as [|? [|? [|? [|? [|? [|? ?]]]]]]; try discriminate.
  all: destruct (Np.gradient _); [|discriminate]; obind.
  all: destruct (Np.argmin _); [|discriminate]; obind.
  all: destruct (Np.argmax _); [|discriminate]; obind.
  all: injection Hg as <-; cbn [grid fit_zgrid fit_chi2 fit_coeffs
                                fit_covar meta_fitter] in *.
  all: split; [exact Hm|split; [reflexivity|exact Hp]].
Qed.

End GridFacts.


Lemma merged_grid_stellar (E : Externals) (g : GroupFitter)
    (T : TemplateSet) (fitter : string) (fb : bool) (gu : nat) (zoom : bool)
    (chi2_poly : Q) (zr : list Q) (dz : Q * Q) :
  merged_grid E g T fitter fb gu true zoom chi2_poly zr dz
  = merged_grid E g T fitter fb gu true false chi2_poly zr dz.
Proof.
  unfold merged_grid.
  destruct (log_zgrid E zr dz.1); [|reflexivity]. obind.
  destruct (xfit_at_z _ _ _ _ _ _ _ _) as [[|c0 co0 er0 cv0 ph0]|];
    try reflexivity.
  obind. destruct (eval_grid _ _ _ _ _ _ _ _ _); [|reflexivity]. obind.
  destruct (Np.amin _); [|reflexivity]. obind.
  cbn [negb]. by rewrite !andb_false_r.
Qed.

(** C6, as amended.  When [xfit_redshift] is called with [zr] the integer
    0, the range is [0, 0.01], the result is the one of the [nnls] solver
    with the zoom switched off, whatever [fitter] and [zoom] are: the
    table records [nnls], its grid is the coarse grid, and every row is
    an [nnls] fit. *)
Theorem stellar_fit_forces_nnls_without_zoom (E : Externals)
    (g : GroupFitter) (prior : option (list Q * list Q)) (dz : Q * Q)
    (fb : bool) (fitter : string) (po : nat) (zoom : bool)
    (T : TemplateSet) (gu : nat) :
  xfit_redshift E g prior (ZrInt 0) dz fb fitter po zoom T gu
  = xfit_redshift E g prior (ZrInt 0) dz fb "nnls" po false T gu
  /\ forall r,
       xfit_redshift E g prior (ZrInt 0) dz fb fitter po zoom T gu
         = Some r ->
       meta_fitter (grid r) = "nnls"%string
       /\ exists coarse rows,
            log_zgrid E [0; 1 # 100]%Q dz.1 = Some coarse
            /\ fit_zgrid (grid r) ≡ₚ coarse
            /\ Forall2 (fit_row E g
                          (match T with
                           | [] => load_templates E true
                           | _ => T
                           end) "nnls" fb gu)
                       (fit_zgrid (grid r)) rows
            /\ fit_chi2 (grid r) = map (fun row => row.1.1) rows
            /\ fit_coeffs (grid r) = map (fun row => row.1.2) rows
            /\ fit_covar (grid r) = map snd rows.
Proof.
  split.
  - unfold xfit_redshift. cbn zeta. obind.
    destruct (log_zgrid E _ _); [|reflexivity]. obind.
    destruct (xfit_at_z _ _ _ _ _ _ _ _) as [[|cp cop erp cvp php]|];
      try reflexivity.
    obind. by rewrite merged_grid_stellar.
  - intros r H. apply xfit_redshift_grid in H.
    cbn zeta in H. destruct H as (cp & zr2 & -> & Hm & Hf & _).
    apply merged_grid_spec in Hm
      as (coarse & zoomp & rows & Hc & Hp & Hz & _ & Hr & H1 & H2 & H3).
    rewrite (Hz (or_introl eq_refl)), app_nil_r in Hp.
    split; [exact Hf|]. exists coarse, rows. auto 10.
Qed.

(** ** Interpolation *)

Lemma Qle_bool_false (x y : Q) : Qle_bool x y = false <-> (y < x)%Q.
Proof.
  split.
  - intros H. apply Qnot_le_lt. intros Hle.
    apply Qle_bool_iff in Hle. congruence.
  - intros H. destruct (Qle_bool x y) eqn:Hb; [|reflexivity].
    apply Qle_bool_iff in Hb. exfalso. exact (Qlt_not_le _ _ H Hb).
Qed.

Section Line.

Variables x0 x1 f0 f1 : Q.
Hypothesis Hx : (x0 < x1)%Q.
Hypothesis Hf : (f0 <= f1)%Q.

Local Abbreviation slope := ((f1 - f0) / (x1 - x0))%Q.

Lemma slope_nonneg : (0 <= slope)%Q.
Proof.
  apply Qle_shift_div_l; lra.
Qed.

Lemma slope_rise : (slope * (x1 - x0) == f1 - f0)%Q.
Proof. field. lra. Qed.

Lemma line_mono (q q' : Q) :
  (q <= q')%Q ->
  (f0 + slope * (q - x0) <= f0 + slope * (q' - x0))%Q.
Proof.
  intros Hq. pose proof slope_nonneg as Hs.
  assert (slope * (q - x0) <= slope * (q' - x0))%Q; [|lra].
  rewrite !(Qmult_comm slope). apply Qmult_le_compat_r; lra.
Qed.

Lemma line_lower (q : Q) :
  (x0 <= q)%Q -> (f0 <= f0 + slope * (q - x0))%Q.
Proof.
  intros Hq. pose proof (line_mono x0 q Hq) as H.
  assert (slope * (x0 - x0) == 0)%Q by ring. lra.
Qed.

Lemma line_upper (q : Q) :
  (q <= x1)%Q -> (f0 + slope * (q - x0) <= f1)%Q.
Proof.
  intros Hq. pose proof (line_mono q x1 Hq) as H.
  pose proof slope_rise. lra.
Qed.

End Line.

Lemma interp_from_lower (q x0 f0 : Q) (rest : list (Q * Q)) :
  rising x0 f0 rest -> (x0 <= q)%Q ->
  (f0 <= Np.interp_from q x0 f0 rest)%Q.
Proof.
  revert x0 f0. induction rest as [|[x1 f1] rest IH]; intros x0 f0 Hr Hq;
    cbn [Np.interp_from]; [lra|].
  destruct Hr as (Hx & Hf & Hr).
  destruct (Qle_bool x1 q) eqn:Hb.
  - apply Qle_bool_iff in Hb. specialize (IH _ _ Hr Hb). lra.
  - apply Qle_bool_false in Hb.
    apply line_lower; lra.
Qed.

(** [np.interp] does not decrease in the point, on samples that do not
    decrease. *)
Lemma interp_from_mono (q q' x0 f0 : Q) (rest : list (Q * Q)) :
  rising x0 f0 rest -> (x0 <= q)%Q -> (q <= q')%Q ->
  (Np.interp_from q x0 f0 rest <= Np.interp_from q' x0 f0 rest)%Q.
Proof.
  revert x0 f0. induction rest as [|[x1 f1] rest IH];
    intros x0 f0 Hr Hq Hqq; cbn [Np.interp_from]; [lra|].
  destruct Hr as (Hx & Hf & Hr).
  destruct (Qle_bool x1 q) eqn:Hb; destruct (Qle_bool x1 q') eqn:Hb'.
  - apply Qle_bool_iff in Hb. by apply IH.
  - apply Qle_bool_iff in Hb. apply Qle_bool_false in Hb'. lra.
  - apply Qle_bool_false in Hb. apply Qle_bool_iff in Hb'.
    pose proof (interp_from_lower q' x1 f1 rest Hr Hb') as Hl.
    assert (f0 + (f1 - f0) / (x1 - x0) * (q - x0) <= f1)%Q; [|lra].
    apply line_upper; lra.
  - apply Qle_bool_false in Hb. apply Qle_bool_false in Hb'.
    apply line_mono; lra.
Qed.

Lemma interp_mono (q q' : Q) (xp fp : list Q) (v v' : Q) :
  match zip xp fp with
  | [] => True
  | (x0, f0) :: rest => rising x0 f0 rest
  end ->
  (q <= q')%Q ->
  Np.interp q xp fp = Some v -> Np.interp q' xp fp = Some v' ->
  (v <= v')%Q.
Proof.
  unfold Np.interp. destruct (_ =? _); [|discriminate].
  destruct (zip xp fp) as [|[x0 f0] rest]; [discriminate|].
  intros Hr Hq [= <-] [= <-].
  destruct (Np.Qlt_bool q x0) eqn:Hb; destruct (Np.Qlt_bool q' x0) eqn:Hb'.
  - lra.
  - apply Qlt_bool_false in Hb'. by apply interp_from_lower.
  - apply Qlt_bool_false in Hb. apply Qlt_bool_iff in Hb'. lra.
  - apply Qlt_bool_false in Hb. by apply interp_from_mono.
Qed.

(** ** Sorted arrays *)

Lemma StronglySorted_map_seq (f : nat -> Q) (k n : nat) :
  (forall i j, i <= j -> (f i <= f j)%Q) ->
  StronglySorted Qle (map f (seq k n)).
Proof.
  intros Hf. revert k. induction n as [|n IH]; intros k; cbn.
  - constructor.
  - constructor; [apply IH|].
    apply List.Forall_forall. intros y Hy.
    apply in_map_iff in Hy as (j & <- & Hj).
    apply in_seq in Hj. apply Hf. lia.
Qed.

Lemma StronglySorted_map_mono (h : Q -> Q) (l : list Q) :
  (forall x y, (x <= y)%Q -> (h x <= h y)%Q) ->
  StronglySorted Qle l -> StronglySorted Qle (map h l).
Proof.
  intros Hh. induction 1 as [|x l Hs IH Hall]; cbn; constructor; [exact IH|].
  apply List.Forall_forall. intros y Hy.
  apply in_map_iff in Hy as (z & <- & Hz).
  apply Hh. rewrite List.Forall_forall in Hall. by apply Hall.
Qed.

Lemma Forall_omap_fst {B : Type} (P : Q -> Prop) (h : Q -> option (Q * B))
    (l : list Q) :
  (forall z p, h z = Some p -> fst p = z) ->
  Forall P l -> Forall P (map fst (omap h l)).
Proof.
  intros Hh. induction 1 as [|x l Hx Hl IH]; cbn; [constructor|].
  destruct (h x) as [p|] eqn:Hp; cbn; [|assumption].
  constructor; [|assumption]. by rewrite (Hh _ _ Hp).
Qed.

Lemma StronglySorted_omap_fst {B : Type} (h : Q -> option (Q * B))
    (l : list Q) :
  (forall z p, h z = Some p -> fst p = z) ->
  StronglySorted Qle l -> StronglySorted Qle (map fst (omap h l)).
Proof.
  intros Hh. induction 1 as [|x l Hs IH Hall]; cbn; [constructor|].
  destruct (h x) as [p|] eqn:Hp; cbn; [|exact IH].
  constructor; [exact IH|]. rewrite (Hh _ _ Hp). by apply Forall_omap_fst.
Qed.

Lemma cumsum_from_ge (acc : Q) (l : list Q) :
  Forall (Qle 0) l -> Forall (Qle acc) (Np.cumsum_from acc l).
Proof.
  intros H. revert acc. induction H as [|x l Hx Hl IH]; intros acc; cbn;
    constructor; [lra|].
  eapply Forall_impl; [apply IH|]. cbn. intros c Hc. lra.
Qed.

Lemma cumsum_from_sorted (acc : Q) (l : list Q) :
  Forall (Qle 0) l -> StronglySorted Qle (Np.cumsum_from acc l).
Proof.
  intros H. revert acc. induction H as [|x l Hx Hl IH]; intros acc; cbn;
    constructor; [apply IH|].
  by apply cumsum_from_ge.
Qed.

Lemma gradient_inner_nonneg (prev : Q) (l : list Q) :
  Forall (Qle prev) l -> StronglySorted Qle l ->
  Forall (Qle 0) (Np.gradient_inner prev l).
Proof.
  revert prev. induction l as [|x l IH]; intros prev Hp Hs; cbn;
    [constructor|].
  destruct l as [|y l'].
  - constructor; [|constructor]. inversion Hp; subst. lra.
  - inversion Hs as [|? ? Hs' Hall]; subst.
    constructor; [|by apply IH].
    inversion Hp as [|? ? _ Hp']; subst. inversion Hp'; subst.
    apply Qle_shift_div_l; lra.
Qed.

Lemma gradient_nonneg (l dz : list Q) :
  StronglySorted Qle l -> Np.gradient l = Some dz -> Forall (Qle 0) dz.
Proof.
  intros Hs. unfold Np.gradient. destruct l as [|f0 [|f1 l']]; try discriminate.
  intros [= <-]. inversion Hs as [|? ? Hs' Hall]; subst.
  constructor; [|by apply (gradient_inner_nonneg f0 (f1 :: l'))].
  inversion Hall; subst. lra.
Qed.

Lemma trapz_nonneg (y x : list Q) :
  Forall (Qle 0) y -> StronglySorted Qle x -> (0 <= Np.trapz y x)%Q.
Proof.
  intros Hy. revert x. induction Hy as [|y0 y Hy0 Hy IH]; intros x Hx.
  - destruct x; cbn; lra.
  - destruct y as [|y1 y']; [destruct x as [|? [|? ?]]; cbn; lra|].
    destruct x as [|x0 [|x1 x']]; [cbn; lra..|].
    inversion Hx as [|? ? Hx' Hall]; subst. inversion Hall; subst.
    specialize (IH _ Hx'). inversion Hy; subst.
    assert (0 <= (x1 - x0) * (y1 + y0))%Q by (apply Qmult_le_0_compat; lra).
    assert (0 <= (x1 - x0) * (y1 + y0) / 2)%Q by (apply Qle_shift_div_l; lra).
    change (Np.trapz (y0 :: y1 :: y') (x0 :: x1 :: x'))
      with ((x1 - x0) * (y1 + y0) / 2 + Np.trapz (y1 :: y') (x1 :: x'))%Q.
    lra.
Qed.

Lemma rising_zip (x0 f0 : Q) (xs fs : list Q) :
  StronglySorted Qle (x0 :: xs) -> StronglySorted Qle (f0 :: fs) ->
  rising x0 f0 (zip xs fs).
Proof.
  revert x0 f0 fs. induction xs as [|x1 xs IH]; intros x0 f0 fs Hx Hf;
    [exact I|].
  destruct fs as [|f1 fs]; [exact I|]. cbn.
  inversion Hx as [|? ? Hx' Hxa]; subst. inversion Hf as [|? ? Hf' Hfa]; subst.
  inversion Hxa; subst. inversion Hfa; subst. auto.
Qed.

Lemma rising_of_sorted (xs fs : list Q) :
  StronglySorted Qle xs -> StronglySorted Qle fs ->
  match zip xs fs with
  | [] => True
  | (x0, f0) :: rest => rising x0 f0 rest
  end.
Proof.
  intros Hx Hf. destruct xs as [|x0 xs]; [exact I|].
  destruct fs as [|f0 fs]; [exact I|]. cbn. by apply rising_zip.
Qed.

Lemma arange_sorted (start stop step : Q) (g : list Q) :
  (0 <= step)%Q -> Np.arange start stop step = Some g ->
  StronglySorted Qle g.
Proof.
  intros Hstep. unfold Np.arange. destruct (Qeq_bool step 0); [discriminate|].
  intros [= <-]. apply StronglySorted_map_seq. intros i j Hij.
  assert (inject_Z (Z.of_nat i) <= inject_Z (Z.of_nat j))%Q as Hq
    by (rewrite <- Zle_Qle; lia).
  assert (inject_Z (Z.of_nat i) * step <= inject_Z (Z.of_nat j) * step)%Q
    by (apply Qmult_le_compat_r; assumption).
  lra.
Qed.

Lemma Forall_zip_with_nonneg (norm : Q) (p dz : list Q) :
  (0 < norm)%Q -> Forall (Qle 0) p -> Forall (Qle 0) dz ->
  Forall (Qle 0) (zip_with (fun pv d => (pv * d / norm)%Q) p dz).
Proof.
  intros Hn Hp. revert dz. induction Hp as [|pv p Hpv Hp IH]; intros dz Hdz;
    [constructor|].
  destruct Hdz as [|d dz Hd Hdz]; cbn; constructor; [|by apply IH].
  apply Qle_shift_div_l; [assumption|].
  assert (0 <= pv * d)%Q by (by apply Qmult_le_0_compat). lra.
Qed.

Section PercentileFacts.

Variable E : Externals.

(** What the percentiles need of [np.exp]: no negative value, and no
    decrease *)
Hypothesis exp_nonneg : forall x, (0 <= np_exp E x)%Q.
Hypothesis exp_mono : forall x y, (x <= y)%Q -> (np_exp E x <= np_exp E y)%Q.

Lemma log_zgrid_sorted (zr : list Q) (dz : Q) (g : list Q) :
  (0 <= dz)%Q -> log_zgrid E zr dz = Some g -> StronglySorted Qle g.
Proof.
  intros Hdz. unfold log_zgrid. obind.
  destruct (zr !! 0) as [zr0|]; obind; [|discriminate].
  destruct (zr !! 1) as [zr1|]; obind; [|discriminate].
  destruct (np_log E (1 + zr0)); obind; [|discriminate].
  destruct (np_log E (1 + zr1)); obind; [|discriminate].
  destruct (Np.arange _ _ _) as [a|] eqn:Ha; obind; [|discriminate].
  intros [= <-].
  apply StronglySorted_map_mono; [|by eapply arange_sorted].
  intros x y Hxy. specialize (exp_mono x y Hxy). lra.
Qed.

Lemma pz_percentiles_sorted (zgrid pdf : list Q) (z02 z16 z50 z84 z97 : Q) :
  pz_percentiles E zgrid pdf = Some [z02; z16; z50; z84; z97] ->
  (z02 <= z16 /\ z16 <= z50 /\ z50 <= z84 /\ z84 <= z97)%Q.
Proof.
  unfold pz_percentiles. obind.
  destruct (spline E _ _) as [spl|]; obind; [|discriminate].
  destruct (Np.amin zgrid) as [zmin|]; obind; [|discriminate].
  destruct (Np.amax zgrid) as [zmax|]; obind; [|discriminate].
  destruct (log_zgrid E _ _) as [zfine|] eqn:Hfine; obind; [|discriminate].
  apply log_zgrid_sorted in Hfine; [|lra].
  set (finite := omap _ zfine).
  assert (StronglySorted Qle (map fst finite)) as Hzok.
  { subst finite. apply StronglySorted_omap_fst; [|exact Hfine].
    intros z p. destruct (spl z); [|discriminate]. by intros [= <-]. }
  assert (Forall (Qle 0) (map snd finite)) as Hp.
  { subst finite. clear - exp_nonneg. induction zfine as [|z l IH]; cbn; [constructor|].
    destruct (spl z); cbn; [constructor|]; auto. }
  destruct (Np.gradient _) as [dz|] eqn:Hdz; obind; [|discriminate].
  apply gradient_nonneg in Hdz; [|exact Hzok].
  destruct (Qeq_bool _ 0) eqn:Hnorm; [discriminate|].
  pose proof (trapz_nonneg _ _ Hp Hzok) as Hn.
  assert (0 < Np.trapz (map snd finite) (map fst finite))%Q as Hpos.
  { apply Qle_lt_or_eq in Hn as [Hn|Hn]; [exact Hn|].
    symmetry in Hn. apply Qeq_bool_iff in Hn. congruence. }
  set (cdf := Np.cumsum _).
  assert (StronglySorted Qle cdf) as Hcdf.
  { subst cdf. apply cumsum_from_sorted.
    by apply Forall_zip_with_nonneg. }
  pose proof (rising_of_sorted _ _ Hcdf Hzok) as Hr.
  unfold levels. cbn [mapM]. obind.
  destruct (Np.interp (25 # 1000) _ _) as [a|] eqn:Ha; obind; [|discriminate].
  destruct (Np.interp (16 # 100) _ _) as [b|] eqn:Hb; obind; [|discriminate].
  destruct (Np.interp (50 # 100) _ _) as [c|] eqn:Hc; obind; [|discriminate].
  destruct (Np.interp (84 # 100) _ _) as [d|] eqn:Hd; obind; [|discriminate].
  destruct (Np.interp (975 # 1000) _ _) as [e|] eqn:He; obind; [|discriminate].
  intros [= <- <- <- <- <-].
  repeat apply conj.
  - eapply (interp_mono _ _ _ _ _ _ Hr); [|exact Ha|exact Hb]. lra.
  - eapply (interp_mono _ _ _ _ _ _ Hr); [|exact Hb|exact Hc]. lra.
  - eapply (interp_mono _ _ _ _ _ _ Hr); [|exact Hc|exact Hd]. lra.
  - eapply (interp_mono _ _ _ _ _ _ Hr); [|exact Hd|exact He]. lra.
Qed.

End PercentileFacts.

(** ** The posterior *)

Lemma trapz_scale (c : Q) (y x : list Q) :
  (Np.trapz (map (fun p => p / c) y) x == Np.trapz y x / c)%Q.
Proof.
  revert x. induction y as [|y0 y IH]; intros x.
  - destruct x; cbn; unfold Qdiv; ring.
  - destruct y as [|y1 y']; [destruct x as [|? [|? ?]]; cbn; unfold Qdiv; ring|].
    destruct x as [|x0 [|x1 x']]; [cbn; unfold Qdiv; ring..|].
    change (Np.trapz (map (fun p => p / c) (y0 :: y1 :: y')) (x0 :: x1 :: x'))%Q
      with ((x1 - x0) * (y1 / c + y0 / c) / 2
            + Np.trapz (map (fun p => p / c) (y1 :: y')) (x1 :: x'))%Q.
    change (Np.trapz (y0 :: y1 :: y') (x0 :: x1 :: x'))
      with ((x1 - x0) * (y1 + y0) / 2 + Np.trapz (y1 :: y') (x1 :: x'))%Q.
    rewrite IH. unfold Qdiv. ring.
Qed.

(** Dividing by the integral leaves an integral of one *)
Lemma trapz_normalised (y x : list Q) :
  ~ (Np.trapz y x == 0)%Q ->
  (Np.trapz (map (fun p => p / Np.trapz y x) y) x == 1)%Q.
Proof.
  intros Hn. rewrite trapz_scale. by field.
Qed.

Section PosteriorFacts.

Variable E : Externals.
Variable g : GroupFitter.

(** The unnormalised [pdf] for the prior: the chi-squared likelihood, or
    its product with the prior interpolated on the grid *)
Lemma posterior_pdf_spec (zgrid chi2 : list Q)
    (prior : option (list Q * list Q)) (pdf : list Q)
    (ip : option (list Q)) :
  (0 < DoF g)%Z ->
  posterior_pdf E g zgrid chi2 prior = Some (pdf, ip) ->
  exists cmin pdf1,
    Np.amin chi2 = Some cmin
    /\ match prior with
       | None => ip = None /\ pdf1 = chi2_pdf E g chi2 cmin
       | Some (pz, pp) =>
           exists ipl,
             mapM (fun z => Np.interp z pz pp) zgrid = Some ipl
             /\ ip = Some ipl
             /\ pdf1 = zip_with Qmult (chi2_pdf E g chi2 cmin) ipl
       end
    /\ ~ (Np.trapz pdf1 zgrid == 0)%Q
    /\ pdf = map (fun p => (p / Np.trapz pdf1 zgrid)%Q) pdf1.
Proof.
  intros Hdof. unfold posterior_pdf.
  destruct (Np.amin chi2) as [cmin|]; obind; [|discriminate].
  destruct (DoF g =? 0)%Z eqn:Hz; [lia|].
  destruct (Qeq_bool (cmin / _) 0); obind; [discriminate|].
  intros H. exists cmin.
  destruct prior as [[pz pp]|]; obind.
  - destruct (mapM _ zgrid) as [ipl|] eqn:Hip; obind; [|discriminate].
    unfold Np.elementwise in H.
    destruct (_ =? _); obind; [|discriminate].
    destruct (negb _); [discriminate|].
    destruct (Qeq_bool _ 0) eqn:Hn; [discriminate|].
    injection H as <- <-. eexists. split; [reflexivity|].
    split; [by exists ipl|]. split; [|reflexivity].
    intros Heq. apply Qeq_bool_iff in Heq. congruence.
  - destruct (negb _); [discriminate|].
    destruct (Qeq_bool _ 0) eqn:Hn; [discriminate|].
    injection H as <- <-. eexists. split; [reflexivity|].
    split; [by split|]. split; [|reflexivity].
    intros Heq. apply Qeq_bool_iff in Heq. congruence.
Qed.

End PosteriorFacts.

Section ParseFacts.

Variable E : Externals.
Variable g : GroupFitter.

Lemma posterior_pdf_returns (zgrid chi2 : list Q)
    (prior : option (list Q * list Q)) (cmin : Q) (pdf1 : list Q) :
  (0 < DoF g)%Z ->
  Np.amin chi2 = Some cmin -> ~ (cmin == 0)%Q ->
  length chi2 = length zgrid ->
  match prior with
  | None => pdf1 = chi2_pdf E g chi2 cmin
  | Some (pz, pp) =>
      exists ipl,
        mapM (fun z => Np.interp z pz pp) zgrid = Some ipl
        /\ pdf1 = zip_with Qmult (chi2_pdf E g chi2 cmin) ipl
  end ->
  ~ (Np.trapz pdf1 zgrid == 0)%Q ->
  exists ip,
    posterior_pdf E g zgrid chi2 prior
    = Some (map (fun p => (p / Np.trapz pdf1 zgrid)%Q) pdf1, ip).
Proof.
  intros Hdof Hmin Hc Hlen Hprior Hnorm. unfold posterior_pdf.
  rewrite Hmin. obind.
  destruct (DoF g =? 0)%Z eqn:Hz; [lia|].
  destruct (Qeq_bool (cmin / _) 0) eqn:Hs.
  { exfalso. apply Qeq_bool_iff in Hs. apply Hc.
    assert (~ inject_Z (DoF g) == 0)%Q as Hd.
    { intros Hd. unfold Qeq in Hd. cbn in Hd. lia. }
    rewrite <- (Qmult_div_r cmin _ Hd). rewrite Hs. ring. }
  obind.
  assert (length (chi2_pdf E g chi2 cmin) = length zgrid) as Hl0
    by (unfold chi2_pdf; by rewrite length_map).
  destruct prior as [[pz pp]|]; obind.
  - destruct Hprior as (ipl & Hip & ->). rewrite Hip. obind.
    pose proof (length_mapM _ _ _ Hip) as Hl.
    unfold Np.elementwise.
    replace (length (chi2_pdf E g chi2 cmin) =? length ipl) with true
      by (symmetry; apply Nat.eqb_eq; congruence).
    obind.
    replace (length (zip_with Qmult (chi2_pdf E g chi2 cmin) ipl)
             =? length zgrid) with true.
    2:{ symmetry. apply Nat.eqb_eq. rewrite length_zip_with. lia. }
    cbn [negb].
    destruct (Qeq_bool (Np.trapz _ _) 0) eqn:Hn;
      [apply Qeq_bool_iff in Hn; contradiction|].
    by eexists.
  - subst pdf1.
    replace (length (chi2_pdf E g chi2 cmin) =? length zgrid) with true
      by (symmetry; by apply Nat.eqb_eq).
    cbn [negb].
    destruct (Qeq_bool (Np.trapz _ _) 0) eqn:Hn;
      [apply Qeq_bool_iff in Hn; contradiction|].
    by eexists.
Qed.

Lemma pz_percentiles_five (zgrid pdf pz : list Q) :
  pz_percentiles E zgrid pdf = Some pz ->
  exists z02 z16 z50 z84 z97, pz = [z02; z16; z50; z84; z97].
Proof.
  unfold pz_percentiles. obind.
  destruct (spline E _ _); obind; [|discriminate].
  destruct (Np.amin zgrid); obind; [|discriminate].
  destruct (Np.amax zgrid); obind; [|discriminate].
  destruct (log_zgrid E _ _); obind; [|discriminate].
  destruct (Np.gradient _); obind; [|discriminate].
  destruct (Qeq_bool _ 0); [discriminate|].
  intros H. apply length_mapM in H. unfold levels in H. cbn in H.
  destruct pz as [|a [|b [|c [|d [|e [|? ?]]]]]]; try discriminate.
  by exists a, b, c, d, e.
Qed.

(** What a table returned by [_parse_zfit_output] stores *)
Lemma _parse_zfit_output_inv (fit : GridTable)
    (prior : option (list Q * list Q)) (r : FitTable) :
  _parse_zfit_output E g fit prior = Some r ->
  grid r = fit
  /\ meta_hasprior r = match prior with Some _ => true | None => false end
  /\ posterior_pdf E g (fit_zgrid fit) (fit_chi2 fit) prior
     = Some (fit_pdf r, fit_prior r)
  /\ pz_percentiles E (fit_zgrid fit) (fit_pdf r)
     = Some [meta_Z02 r; meta_Z16 r; meta_Z50 r; meta_Z84 r; meta_Z97 r].
Proof.
  unfold _parse_zfit_output. cbv zeta.
  destruct (posterior_pdf _ _ _ _ _) as [[pdf ip]|]; obind; [|discriminate].
  destruct (pz_percentiles _ _ _) as [pz|] eqn:Hpz; obind; [|discriminate].
  destruct (pz_percentiles_five _ _ _ Hpz) as (a & b & c & d & e & ->).
  destruct (Np.gradient _); obind; [|discriminate].
  destruct (Np.argmin _); obind; [|discriminate].
  destruct (Np.argmax _); obind; [|discriminate].
  by intros [= <-].
Qed.

(** [_parse_zfit_output] returns a table once the posterior is finite,
    the percentiles exist and the grid has two points *)
Lemma _parse_zfit_output_returns (fit : GridTable)
    (prior : option (list Q * list Q)) (pdf : list Q)
    (ip : option (list Q)) :
  posterior_pdf E g (fit_zgrid fit) (fit_chi2 fit) prior = Some (pdf, ip) ->
  pz_percentiles E (fit_zgrid fit) pdf <> None ->
  2 <= length (fit_zgrid fit) ->
  pdf <> [] ->
  exists r,
    _parse_zfit_output E g fit prior = Some r
    /\ grid r = fit /\ fit_pdf r = pdf /\ fit_prior r = ip.
Proof.
  intros Hpdf Hpz Hlen Hne. unfold _parse_zfit_output. cbv zeta.
  rewrite Hpdf. obind.
  destruct (pz_percentiles _ _ _) as [pz|] eqn:Hp; [|done]. obind.
  destruct (pz_percentiles_five _ _ _ Hp) as (a & b & c & d & e & ->).
  destruct (fit_zgrid fit) as [|z0 [|z1 zs]] eqn:Hz; cbn in Hlen; try lia.
  cbn [Np.gradient]. obind.
  destruct pdf as [|p0 pdf]; [done|].
  cbn [map Np.argmin Np.argmax]. obind.
  eexists. split; [reflexivity|]. done.
Qed.

End ParseFacts.

(** ** The stand-in for [exp] *)

Lemma exp1_nonneg (x : Q) : (0 <= Sample.exp1 x)%Q.
Proof.
  unfold Sample.exp1. rewrite Qred_correct.
  destruct (Np.Qlt_bool x 0) eqn:Hx.
  - apply Qlt_bool_iff in Hx. apply Qle_shift_div_l; lra.
  - apply Qlt_bool_false in Hx. lra.
Qed.

Lemma exp1_mono (x y : Q) :
  (x <= y)%Q -> (Sample.exp1 x <= Sample.exp1 y)%Q.
Proof.
  intros Hxy. unfold Sample.exp1. rewrite !Qred_correct.
  destruct (Np.Qlt_bool x 0) eqn:Hx; destruct (Np.Qlt_bool y 0) eqn:Hy.
  - apply Qlt_bool_iff in Hx. apply Qlt_bool_iff in Hy.
    apply Qle_shift_div_r; [lra|].
    assert (1 / (1 - 10 * y) * (1 - 10 * x)
            == (1 - 10 * x) / (1 - 10 * y))%Q as -> by (field; lra).
    apply Qle_shift_div_l; lra.
  - apply Qlt_bool_iff in Hx. apply Qlt_bool_false in Hy.
    assert (1 / (1 - 10 * x) <= 1)%Q; [|lra].
    apply Qle_shift_div_r; lra.
  - apply Qlt_bool_false in Hx. apply Qlt_bool_iff in Hy. lra.
  - apply Qlt_bool_false in Hx. apply Qlt_bool_false in Hy. lra.
Qed.

(** C3 (corrected): with positive degrees of freedom, every table that
    [_parse_zfit_output] returns stores a [pdf] whose trapezoidal
    integral over the redshift grid is one; the [pdf] is the chi-squared
    likelihood divided by its integral when no prior is given, and with
    a prior it is the product of the likelihood and the prior
    interpolated on the grid by [np.interp], divided by the integral of
    that product, the interpolated prior being stored with it.  The table
    is returned when the minimum of chi-squared is not zero, the integral
    of the unnormalised [pdf] is not zero, the grid has two points and
    the percentiles exist. *)
Theorem parse_zfit_pdf_unit_integral (E : Externals) (g : GroupFitter)
    (fit : GridTable) (prior : option (list Q * list Q)) :
  (0 < DoF g)%Z ->
  (forall r,
     _parse_zfit_output E g fit prior = Some r ->
     grid r = fit
     /\ (Np.trapz (fit_pdf r) (fit_zgrid fit) == 1)%Q
     /\ exists cmin pdf1,
          Np.amin (fit_chi2 fit) = Some cmin
          /\ match prior with
             | None =>
                 meta_hasprior r = false /\ fit_prior r = None
                 /\ pdf1 = chi2_pdf E g (fit_chi2 fit) cmin
             | Some (pz, pp) =>
                 meta_hasprior r = true
                 /\ exists ipl,
                      mapM (fun z => Np.interp z pz pp) (fit_zgrid fit)
                      = Some ipl
                      /\ fit_prior r = Some ipl
                      /\ pdf1
                         = zip_with Qmult (chi2_pdf E g (fit_chi2 fit) cmin)
                                    ipl
             end
          /\ fit_pdf r
             = map (fun p => (p / Np.trapz pdf1 (fit_zgrid fit))%Q) pdf1)
  /\ (forall cmin pdf1,
        Np.amin (fit_chi2 fit) = Some cmin -> ~ (cmin == 0)%Q ->
        length (fit_chi2 fit) = length (fit_zgrid fit) ->
        2 <= length (fit_zgrid fit) ->
        match prior with
        | None => pdf1 = chi2_pdf E g (fit_chi2 fit) cmin
        | Some (pz, pp) =>
            exists ipl,
              mapM (fun z => Np.interp z pz pp) (fit_zgrid fit) = Some ipl
              /\ pdf1
                 = zip_with Qmult (chi2_pdf E g (fit_chi2 fit) cmin) ipl
        end ->
        ~ (Np.trapz pdf1 (fit_zgrid fit) == 0)%Q ->
        pz_percentiles E (fit_zgrid fit)
          (map (fun p => (p / Np.trapz pdf1 (fit_zgrid fit))%Q) pdf1)
        <> None ->
        exists r, _parse_zfit_output E g fit prior = Some r).
Proof.
  intros Hdof. split.
  - intros r Hr.
    destruct (_parse_zfit_output_inv E g fit prior r Hr)
      as (Hgrid & Hhas & Hpdf & _).
    destruct (posterior_pdf_spec E g _ _ _ _ _ Hdof Hpdf)
      as (cmin & pdf1 & Hmin & Hprior & Hnorm & Heq).
    split; [exact Hgrid|]. split.
    + rewrite Heq. by apply trapz_normalised.
    + exists cmin, pdf1. split; [exact Hmin|]. split; [|exact Heq].
      destruct prior as [[pz pp]|].
      * destruct Hprior as (ipl & Hip & Hfp & Hp1).
        split; [exact Hhas|]. by exists ipl.
      * destruct Hprior as [Hfp Hp1]. by repeat apply conj.
  - intros cmin pdf1 Hmin Hc Hlen Hlen2 Hprior Hnorm Hpz.
    destruct (posterior_pdf_returns E g _ _ prior cmin pdf1
                Hdof Hmin Hc Hlen Hprior Hnorm) as [ip Hpdf].
    destruct (_parse_zfit_output_returns E g fit prior _ ip Hpdf Hpz Hlen2)
      as (r & Hr & _); [|by exists r].
    assert (length pdf1 = length (fit_zgrid fit)) as Hl1.
    { destruct prior as [[pz pp]|].
      - destruct Hprior as (ipl & Hip & ->).
        apply length_mapM in Hip. rewrite length_zip_with.
        unfold chi2_pdf. rewrite length_map. lia.
      - subst pdf1. unfold chi2_pdf. by rewrite length_map. }
    destruct pdf1; [cbn in Hl1; lia|discriminate].
Qed.

Lemma parse_zfit_pdf_unit_integral_witness :
  (0 < DoF Sample.line_group)%Z
  /\ exists r,
       _parse_zfit_output Sample.externals Sample.line_group
         (Sample.chi2_table [2; 1; 2]%Q) (Some Sample.rising_prior) = Some r
       /\ (Np.trapz (fit_pdf r) [0; 2 # 1000; 4 # 1000]%Q == 1)%Q
       /\ meta_hasprior r = true.
Proof.
  assert (0 < DoF Sample.line_group)%Z as Hdof by (cbn; lia).
  split; [exact Hdof|].
  destruct (parse_zfit_pdf_unit_integral Sample.externals Sample.line_group
              (Sample.chi2_table [2; 1; 2]%Q) (Some Sample.rising_prior)
              Hdof) as [Ha Hb].
  destruct (Hb 1%Q
              (zip_with Qmult
                 (chi2_pdf Sample.externals Sample.line_group
                           [2; 1; 2]%Q 1%Q)
                 [1; 1002 # 1000; 1004 # 1000]%Q)) as [r Hr].
  - reflexivity.
  - intros H. discriminate H.
  - reflexivity.
  - cbn. lia.
  - exists [1; 1002 # 1000; 1004 # 1000]%Q. split; [|reflexivity].
    vm_compute. reflexivity.
  - intros H. vm_compute in H. discriminate H.
  - vm_compute. discriminate.
  - exists r. split; [exact Hr|].
    destruct (Ha r Hr) as (_ & Hint & cmin & pdf1 & _ & (Hhas & _) & _).
    split; [exact Hint|exact Hhas].
Defined.

(** A perfect fit, of minimum chi-squared zero, makes the scale
    [scl_nu] zero and the [pdf] not finite, with positive degrees of
    freedom and whatever the prior is: no [pdf] of integral one is
    stored. *)
Lemma parse_zfit_pdf_perfect_fit_not_finite :
  (0 < DoF Sample.line_group)%Z
  /\ forall E prior,
       posterior_pdf E Sample.line_group
         (fit_zgrid (Sample.chi2_table [0; 1; 2]%Q)) [0; 1; 2]%Q prior = None
       /\ _parse_zfit_output E Sample.line_group
            (Sample.chi2_table [0; 1; 2]%Q) prior = None.
Proof.
  split; [cbn; lia|]. intros E prior. split; reflexivity.
Qed.

(** C8: for every table that [_parse_zfit_output] returns, the five
    percentile redshifts do not decrease,
    Z02 <= Z16 <= Z50 <= Z84 <= Z97, when [np.exp] takes no negative
    value and does not decrease. *)
Theorem percentiles_increasing (E : Externals) (g : GroupFitter)
    (fit : GridTable) (prior : option (list Q * list Q)) (r : FitTable) :
  (forall x, (0 <= np_exp E x)%Q) ->
  (forall x y, (x <= y)%Q -> (np_exp E x <= np_exp E y)%Q) ->
  _parse_zfit_output E g fit prior = Some r ->
  (meta_Z02 r <= meta_Z16 r /\ meta_Z16 r <= meta_Z50 r
   /\ meta_Z50 r <= meta_Z84 r /\ meta_Z84 r <= meta_Z97 r)%Q.
Proof.
  intros Hnn Hmono Hr.
  destruct (_parse_zfit_output_inv E g fit prior r Hr) as (_ & _ & _ & Hpz).
  exact (pz_percentiles_sorted E Hnn Hmono _ _ _ _ _ _ _ Hpz).
Qed.

Lemma percentiles_increasing_witness :
  exists r,
    _parse_zfit_output Sample.externals Sample.line_group
      (Sample.chi2_table [2; 1; 2]%Q) None = Some r
    /\ (meta_Z02 r <= meta_Z16 r /\ meta_Z16 r <= meta_Z50 r
        /\ meta_Z50 r <= meta_Z84 r /\ meta_Z84 r <= meta_Z97 r)%Q.
Proof.
  edestruct (_parse_zfit_output_returns Sample.externals Sample.line_group
               (Sample.chi2_table [2; 1; 2]%Q) None) as (r & Hr & _).
  - vm_compute. reflexivity.
  - vm_compute. discriminate.
  - cbn. lia.
  - discriminate.
  - exists r. split; [exact Hr|].
    exact (percentiles_increasing Sample.externals Sample.line_group
             _ _ r exp1_nonneg exp1_mono Hr).
Defined.

(** ** Runs of [xfit_redshift] *)

Lemma argbest_lt (better : Q -> Q -> bool) (i ibest : nat) (best : Q)
    (l : list Q) :
  ibest < i -> Np.argbest better i ibest best l < i + length l.
Proof.
  revert i ibest best. induction l as [|x l IH]; intros i ibest best Hi;
    cbn [Np.argbest length]; [lia|].
  destruct (better x best).
  - specialize (IH (S i) i x). lia.
  - specialize (IH (S i) ibest best). lia.
Qed.

Lemma argmin_lt (l : list Q) (k : nat) :
  Np.argmin l = Some k -> k < length l.
Proof.
  destruct l as [|x l]; [discriminate|]. intros [= <-].
  pose proof (argbest_lt Np.Qlt_bool 1 0 x l). cbn [length]. lia.
Qed.

Lemma posterior_pdf_length (E : Externals) (g : GroupFitter)
    (zgrid chi2 : list Q) (prior : option (list Q * list Q))
    (pdf : list Q) (ip : option (list Q)) :
  posterior_pdf E g zgrid chi2 prior = Some (pdf, ip) ->
  length pdf = length zgrid.
Proof.
  unfold posterior_pdf.
  destruct (Np.amin chi2) as [cmin|]; obind; [|discriminate].
  match goal with
  | |- context [mbind _ ?x] => destruct x as [pdf0|]
  end; obind; [|discriminate].
  match goal with
  | |- context [mbind _ ?x] => destruct x as [[pdf1 ip1]|]
  end; obind; [|discriminate].
  destruct (length pdf1 =? length zgrid) eqn:Hl; cbn [negb]; [|discriminate].
  destruct (Qeq_bool _ 0); [discriminate|].
  intros [= <- <-]. rewrite length_map. by apply Nat.eqb_eq.
Qed.

Section RunFacts.

Variable E : Externals.

(** [xfit_redshift] returns a table once the polynomial fit, the merged
    grid, the posterior and its percentiles are there, and the grid has
    two points *)
Lemma xfit_redshift_returns (g : GroupFitter)
    (prior : option (list Q * list Q)) (zr : ZrArg) (dz : Q * Q)
    (fb : bool) (fitter : string) (po : nat) (zoom : bool)
    (T : TemplateSet) (gu : nat) (zr2 : list Q)
    (chi2_poly : Q) (cop erp : list Q) (cvp : list (list Q))
    (php : option (list Q))
    (zs chi2 : list Q) (coeffs : list (list Q))
    (covar : list (list (list Q))) (pdf : list Q) (ip : option (list Q)) :
  let stars := match zr with ZrInt 0 => true | _ => false end in
  let fitter1 := if stars then "nnls"%string else fitter in
  let T1 := match T with [] => load_templates E stars | _ => T end in
  match zr with
  | ZrInt 0 => Some [0; 1 # 100]%Q
  | ZrInt _ => None
  | ZrList l => Some l
  end = Some zr2 ->
  xfit_at_z E g 0%Q (polynomial_templates E po) "lstsq" true 0 false
    = Some (Fit chi2_poly cop erp cvp php) ->
  merged_grid E g T1 fitter1 fb gu stars zoom chi2_poly zr2 dz
    = Some (zs, chi2, coeffs, covar) ->
  posterior_pdf E g zs chi2 prior = Some (pdf, ip) ->
  pz_percentiles E zs pdf <> None ->
  2 <= length zs ->
  exists r,
    xfit_redshift E g prior zr dz fb fitter po zoom T gu = Some r
    /\ fit_zgrid (grid r) = zs /\ fit_chi2 (grid r) = chi2
    /\ fit_coeffs (grid r) = coeffs /\ fit_covar (grid r) = covar
    /\ meta_fitter (grid r) = fitter1 /\ fit_pdf r = pdf.
Proof.
  intros stars fitter1 T1 Hzr Hpoly Hm Hpdf Hpz Hlen.
  pose proof (merged_grid_spec E _ _ _ _ _ _ _ _ _ _ _ _ _ _ Hm)
    as (coarse & zoomp & rows & Hc & _ & _ & _ & Hr & H1 & H2 & _).
  apply Forall2_length in Hr.
  assert (length chi2 = length zs) as Hl1 by (subst; rewrite length_map; lia).
  assert (length coeffs = length zs) as Hl2
    by (subst; rewrite length_map; lia).
  clear H1 H2.
  assert (exists cmin, Np.amin chi2 = Some cmin) as [cmin Hmin]
    by (destruct chi2; [cbn in Hl1; lia|by eexists]).
  assert (exists cmax, Np.amax chi2 = Some cmax) as [cmax Hmax]
    by (destruct chi2; [cbn in Hl1; lia|by eexists]).
  assert (exists k, Np.argmin chi2 = Some k) as [k Hk]
    by (destruct chi2; [cbn in Hl1; lia|by eexists]).
  pose proof (argmin_lt _ _ Hk) as Hkl.
  destruct (lookup_lt_is_Some_2 coeffs k) as [best Hbest]; [lia|].
  pose proof (posterior_pdf_length _ _ _ _ _ _ _ Hpdf) as Hl3.
  unfold xfit_redshift.
  set (F := _parse_zfit_output E g).
  destruct zr as [[|p|p]|l]; try discriminate; injection Hzr as <-;
    cbn zeta; obind; subst stars fitter1 T1; cbn iota in Hm;
    rewrite Hc; obind; rewrite Hpoly; obind; rewrite Hm; obind;
    rewrite Hmin; obind; rewrite Hmax; obind; rewrite Hk; obind;
    rewrite Hbest; obind; subst F.
  all: match goal with
       | |- exists r, _parse_zfit_output _ _ ?fit _ = Some r /\ _ =>
           destruct (_parse_zfit_output_returns E g fit prior pdf ip)
             as (r & Hr' & Hg & Hp & _);
           [exact Hpdf|exact Hpz|exact Hlen
           |destruct pdf; [cbn in Hl3; lia|discriminate]|]
       end.
  all: exists r; split; [exact Hr'|]; rewrite Hg; cbn.
  all: by repeat apply conj.
Qed.

End RunFacts.

Lemma is_Some_check {A : Type} (x : option A) :
  match x with Some _ => true | None => false end = true -> x <> None.
Proof. by destruct x. Qed.

(** The run on the line group over the list range [0, 0.01] with the
    [lstsq] solver and the zoom: the table records [lstsq], and its grid
    holds the three coarse points and the nine points of the zoom *)
Lemma line_run :
  exists r,
    xfit_redshift Sample.line_externals Sample.line_group None
      (ZrList [0; 1 # 100]%Q) (4 # 10000, 2 # 10000)%Q false "lstsq" 0 true
      Sample.line_templates 0 = Some r
    /\ meta_fitter (grid r) = "lstsq"%string
    /\ map Qred (fit_zgrid (grid r))
       = [0; 2 # 625; 17 # 5000; 9 # 2500; 19 # 5000; 1 # 250; 1 # 250;
          21 # 5000; 11 # 2500; 23 # 5000; 3 # 625; 1 # 125]%Q.
Proof.
  edestruct (xfit_redshift_returns Sample.line_externals Sample.line_group
               None (ZrList [0; 1 # 100]%Q) (4 # 10000, 2 # 10000)%Q false
               "lstsq" 0 true Sample.line_templates 0)
    as (r & Hr & Hz & _ & _ & _ & Hf & _).
  - reflexivity.
  - vm_compute. reflexivity.
  - vm_compute. reflexivity.
  - vm_compute. reflexivity.
  - apply is_Some_check. vm_compute. reflexivity.
  - cbn. lia.
  - exists r. split; [exact Hr|]. split; [exact Hf|].
    rewrite Hz. vm_compute. reflexivity.
Qed.

(** The run with [zr] the integer 0, asked with the [lstsq] solver and
    the zoom *)
Lemma stellar_run :
  exists r,
    xfit_redshift Sample.line_externals Sample.line_group None
      (ZrInt 0) (4 # 10000, 2 # 10000)%Q false "lstsq" 0 true
      Sample.line_templates 0 = Some r.
Proof.
  edestruct (xfit_redshift_returns Sample.line_externals Sample.line_group
               None (ZrInt 0) (4 # 10000, 2 # 10000)%Q false
               "lstsq" 0 true Sample.line_templates 0)
    as (r & Hr & _).
  - reflexivity.
  - vm_compute. reflexivity.
  - vm_compute. reflexivity.
  - vm_compute. reflexivity.
  - apply is_Some_check. vm_compute. reflexivity.
  - cbn. lia.
  - by exists r.
Qed.



Lemma stellar_fit_forces_nnls_without_zoom_witness :
  exists r,
    xfit_redshift Sample.line_externals Sample.line_group None
      (ZrInt 0) (4 # 10000, 2 # 10000)%Q false "lstsq" 0 true
      Sample.line_templates 0 = Some r
    /\ meta_fitter (grid r) = "nnls"%string
    /\ length (fit_zgrid (grid r)) = 3.
Proof.
  destruct stellar_run as (r & Hr). exists r. split; [exact Hr|].
  destruct (stellar_fit_forces_nnls_without_zoom
              Sample.line_externals Sample.line_group None
              (4 # 10000, 2 # 10000)%Q false "lstsq" 0 true
              Sample.line_templates 0) as [_ H].
  destruct (H r Hr) as (Hf & coarse & rows & Hc & Hp & _).
  split; [exact Hf|].
  apply Permutation_length in Hp. rewrite Hp.
  vm_compute in Hc. by injection Hc as <-.
Defined.

(** A list range that starts at zero is not the stellar fit: over
    [0, 0.01] the table keeps the [lstsq] solver that was asked for, and
    the zoom adds nine points to the three of the coarse grid. *)
Lemma zero_based_range_keeps_fitter_and_zoom :
  exists r coarse,
    xfit_redshift Sample.line_externals Sample.line_group None
      (ZrList [0; 1 # 100]%Q) (4 # 10000, 2 # 10000)%Q false "lstsq" 0 true
      Sample.line_templates 0 = Some r
    /\ meta_fitter (grid r) = "lstsq"%string
    /\ log_zgrid Sample.line_externals [0; 1 # 100]%Q (4 # 10000)%Q
       = Some coarse
    /\ length coarse = 3
    /\ length (fit_zgrid (grid r)) = 12.
Proof.
  destruct line_run as (r & Hr & Hf & Hz).
  exists r, [0; 1 # 250; 1 # 125]%Q.
  split; [exact Hr|]. split; [exact Hf|].
  split; [vm_compute; reflexivity|]. split; [reflexivity|].
  apply (f_equal length) in Hz. by rewrite length_map in Hz.
Qed.

(** ** Data-quality bits *)

Lemma pos_bits_testbit (p : positive) (i : nat) :
  Z.testbit (Zpos p) (Z.of_nat i) = default false (pos_bits p !! i).
Proof.
  revert i. induction p as [p IH|p IH|]; intros [|i]; cbn [pos_bits]; try reflexivity.
  - rewrite Nat2Z.inj_succ, Pos2Z.inj_xI, Z.testbit_odd_succ by lia. apply IH.
  - rewrite Nat2Z.inj_succ, Pos2Z.inj_xO, Z.testbit_even_succ by lia. apply IH.
Qed.

Lemma binary_repr_digit (okbits : Z) (i : nat) :
  i < length (binary_repr okbits) ->
  match binary_repr okbits !! (length (binary_repr okbits) - (i + 1)) with
  | Some c => Ascii.eqb c "1"
  | None => false
  end = Z.testbit (Z.abs okbits) (Z.of_nat i).
Proof.
  assert (Hpos : forall p, i < length (pos_bits p) ->
            match reverse (map bit_char (pos_bits p))
                    !! (length (pos_bits p) - (i + 1)) with
            | Some c => Ascii.eqb c "1"
            | None => false
            end = Z.testbit (Zpos p) (Z.of_nat i)).
  { intros p Hi. rewrite pos_bits_testbit.
    replace (length (pos_bits p) - (i + 1))
      with (length (map bit_char (pos_bits p)) - S i)
      by (rewrite length_map; lia).
    rewrite reverse_lookup.
    2:{ rewrite length_map. lia. }
    replace (length (map bit_char (pos_bits p))
             - S (length (map bit_char (pos_bits p)) - S i)) with i
      by (rewrite length_map; lia).
    change (map bit_char ?l) with (bit_char <$> l).
    rewrite list_lookup_fmap.
    by destruct (pos_bits p !! i) as [[|]|]. }
  destruct okbits as [|p|p]; cbn [binary_repr Z.abs length].
  - intros Hi. assert (i = 0) as -> by lia. reflexivity.
  - change (Z.abs (Z.pos p)) with (Z.pos p).
    rewrite length_reverse, length_map. apply Hpos.
  - change (Z.abs (Z.neg p)) with (Z.pos p).
    rewrite length_reverse, length_map. intros Hi.
    destruct (decide (i = length (pos_bits p))) as [->|Hne].
    + replace (S (length (pos_bits p)) - (length (pos_bits p) + 1)) with 0
        by lia.
      transitivity false; [reflexivity|].
      rewrite pos_bits_testbit. by rewrite lookup_ge_None_2.
    + replace (S (length (pos_bits p)) - (i + 1))
        with (S (length (pos_bits p) - (i + 1))) by lia.
      cbn [lookup list_lookup]. apply Hpos. lia.
Qed.

Lemma binary_repr_high (okbits : Z) (i : nat) :
  length (binary_repr okbits) <= i ->
  Z.testbit (Z.abs okbits) (Z.of_nat i) = false.
Proof.
  destruct okbits as [|p|p]; cbn [binary_repr Z.abs length]; intros Hi.
  - apply Z.bits_0.
  - change (Z.abs (Z.pos p)) with (Z.pos p).
    rewrite length_reverse, length_map in Hi.
    rewrite pos_bits_testbit. by rewrite lookup_ge_None_2.
  - change (Z.abs (Z.neg p)) with (Z.pos p).
    rewrite length_reverse, length_map in Hi.
    rewrite pos_bits_testbit. rewrite lookup_ge_None_2; [done|lia].
Qed.

Lemma sub_land_pow2 (v : Z) (i : nat) :
  (v - Z.land v (2 ^ Z.of_nat i))%Z = Z.clearbit v (Z.of_nat i).
Proof.
  rewrite Z.clearbit_spec'. rewrite Z.sub_nocarry_ldiff.
  - apply Z.bits_inj'. intros k Hk.
    rewrite !Z.ldiff_spec, Z.land_spec.
    destruct (Z.testbit v k), (Z.testbit (2 ^ Z.of_nat i) k); reflexivity.
  - apply Z.bits_inj'. intros k Hk.
    rewrite Z.ldiff_spec, Z.land_spec, Z.bits_0.
    destruct (Z.testbit v k), (Z.testbit (2 ^ Z.of_nat i) k); reflexivity.
Qed.

Lemma unset_loop_testbit (bits : list ascii) (ok value : Z) (k : nat) (j : Z) :
  (forall i, i < k ->
     match bits !! (length bits - (i + 1)) with
     | Some c => Ascii.eqb c "1"
     | None => false
     end = Z.testbit ok (Z.of_nat i)) ->
  (0 <= j)%Z ->
  Z.testbit
    (foldl (fun value i =>
              match bits !! (length bits - (i + 1)) with
              | Some c =>
                  if Ascii.eqb c "1"
                  then (value - Z.land value (2 ^ Z.of_nat i))%Z
                  else value
              | None => value
              end) value (seq 0 k)) j
  = Z.testbit value j && negb ((j <? Z.of_nat k)%Z && Z.testbit ok j).
Proof.
  intros Hbits Hj. induction k as [|k IH].
  - cbn [seq foldl]. assert ((j <? Z.of_nat 0)%Z = false) as -> by (apply Z.ltb_ge; lia).
    by destruct (Z.testbit value j).
  - rewrite seq_S, foldl_app. cbn [foldl Nat.add].
    pose proof (Hbits k (Nat.lt_succ_diag_r k)) as Hk.
    assert (IH' := IH (fun i Hi => Hbits i (Nat.lt_lt_succ_r _ _ Hi))).
    clear IH.
    set (v := foldl _ value (seq 0 k)) in *.
    assert (Z.testbit
              (if match bits !! (length bits - (k + 1)) with
                  | Some c => Ascii.eqb c "1"
                  | None => false
                  end
               then (v - Z.land v (2 ^ Z.of_nat k))%Z else v) j
            = Z.testbit value j
              && negb ((j <? Z.of_nat (S k))%Z && Z.testbit ok j)) as Hgoal.
    { rewrite Hk.
      destruct (Z.eqb_spec (Z.of_nat k) j) as [<-|Hne].
      - assert ((Z.of_nat k <? Z.of_nat (S k))%Z = true) as ->
        by (apply Z.ltb_lt; lia).
        destruct (Z.testbit ok (Z.of_nat k)) eqn:Hok.
        + rewrite sub_land_pow2, Z.clearbit_eq by lia.
          by destruct (Z.testbit value (Z.of_nat k)).
        + rewrite IH', Z.ltb_irrefl.
          by destruct (Z.testbit value (Z.of_nat k)).
      - assert ((j <? Z.of_nat (S k))%Z = (j <? Z.of_nat k)%Z) as ->
        by (destruct (Z.ltb_spec j (Z.of_nat (S k))),
                     (Z.ltb_spec j (Z.of_nat k)); lia).
        destruct (Z.testbit ok (Z.of_nat k)).
        + rewrite sub_land_pow2, Z.clearbit_neq by lia. exact IH'.
        + exact IH'. }
    destruct (bits !! (length bits - (k + 1))) as [c|]; [|exact Hgoal].
    by destruct (Ascii.eqb c "1").
Qed.

Lemma unset_dq_bits_spec (value okbits : Z) :
  unset_dq_bits value okbits = Z.ldiff value (Z.abs okbits).
Proof.
  apply Z.bits_inj'. intros j Hj. unfold unset_dq_bits. cbv zeta.
  rewrite (unset_loop_testbit _ (Z.abs okbits)); [|
    intros i Hi; by apply binary_repr_digit | exact Hj].
  rewrite Z.ldiff_spec.
  destruct (Z.ltb_spec j (Z.of_nat (length (binary_repr okbits))))
    as [Hlt|Hge]; [reflexivity|].
  cbn [andb]. rewrite <- (Z2Nat.id j Hj).
  rewrite (binary_repr_high okbits (Z.to_nat j)) by lia. reflexivity.
Qed.

(** X1.  [unset_dq_bits(value, okbits)] is [value & ~abs(okbits)]: it
    clears the bits of [okbits] (of [-okbits] for a negative [okbits],
    whose minus sign is no digit) and keeps every other bit of [value],
    the sign of a negative [value] included. *)
Theorem unset_dq_bits_ldiff (value okbits : Z) :
  unset_dq_bits value okbits = Z.ldiff value (Z.abs okbits)
  /\ forall j : Z,
       Z.testbit (unset_dq_bits value okbits) j
       = Z.testbit value j && negb (Z.testbit (Z.abs okbits) j).
Proof.
  split; [apply unset_dq_bits_spec|].
  intros j. rewrite unset_dq_bits_spec.
  destruct (Z.le_gt_cases 0 j) as [Hj|Hj].
  - apply Z.ldiff_spec.
  - by rewrite !Z.testbit_neg_r by lia.
Qed.

(** X2.  Unsetting two sets of bits one after the other unsets their
    union; in particular unsetting the same bits twice changes nothing
    more. *)
Theorem unset_dq_bits_compose (value a b : Z) :
  (0 <= a)%Z -> (0 <= b)%Z ->
  unset_dq_bits (unset_dq_bits value a) b = unset_dq_bits value (Z.lor a b)
  /\ unset_dq_bits (unset_dq_bits value a) a = unset_dq_bits value a.
Proof.
  intros Ha Hb. rewrite !unset_dq_bits_spec.
  assert (0 <= Z.lor a b)%Z by (by apply Z.lor_nonneg).
  rewrite !Z.abs_eq by assumption.
  split; apply Z.bits_inj'; intros k Hk;
    rewrite !Z.ldiff_spec, ?Z.lor_spec;
    destruct (Z.testbit value k), (Z.testbit a k), (Z.testbit b k);
    reflexivity.
Qed.

Lemma unset_dq_bits_compose_witness :
  unset_dq_bits (unset_dq_bits 612 32) 576 = unset_dq_bits 612 608
  /\ unset_dq_bits 612 608 = 4%Z.
Proof.
  split; [|reflexivity].
  apply (unset_dq_bits_compose 612 32 576); lia.
Defined.

(** X3.  A non-negative [value] stays non-negative and does not grow, and
    no bit of a non-negative [okbits] is left in it. *)
Theorem unset_dq_bits_range (value okbits : Z) :
  (0 <= value)%Z -> (0 <= okbits)%Z ->
  (0 <= unset_dq_bits value okbits <= value)%Z
  /\ Z.land (unset_dq_bits value okbits) okbits = 0%Z.
Proof.
  intros Hv Ho. rewrite unset_dq_bits_spec, Z.abs_eq by assumption.
  split; [split|].
  - apply Z.ldiff_nonneg. by left.
  - assert (value = Z.ldiff value okbits + Z.land value okbits)%Z as Heq.
    { rewrite Z.add_nocarry_lxor.
      - apply Z.bits_inj'. intros k Hk.
        rewrite Z.lxor_spec, Z.ldiff_spec, Z.land_spec.
        destruct (Z.testbit value k), (Z.testbit okbits k); reflexivity.
      - apply Z.bits_inj'. intros k Hk.
        rewrite !Z.land_spec, Z.ldiff_spec, Z.bits_0.
        destruct (Z.testbit value k), (Z.testbit okbits k); reflexivity. }
    assert (0 <= Z.land value okbits)%Z by (apply Z.land_nonneg; by left).
    lia.
  - apply Z.bits_inj'. intros k Hk.
    rewrite Z.land_spec, Z.ldiff_spec, Z.bits_0.
    destruct (Z.testbit value k), (Z.testbit okbits k); reflexivity.
Qed.

Lemma unset_dq_bits_range_witness :
  (0 <= unset_dq_bits 612 608 <= 612)%Z
  /\ Z.land (unset_dq_bits 612 608) 608 = 0%Z.
Proof. apply (unset_dq_bits_range 612 608); lia. Defined.

(** ** Header keywords *)

(** X4.  For an ACS header, [get_hst_filter] returns [FILTER2] in upper
    case unless it holds CLEAR, then [FILTER1] in upper case unless that
    holds CLEAR too, and then it raises. *)
Theorem get_hst_filter_acs (header : gmap string string)
    (instrume f1 f2 : string) :
  header !! "INSTRUME"%string = Some instrume ->
  strip instrume = "ACS"%string ->
  header !! "FILTER1"%string = Some f1 ->
  header !! "FILTER2"%string = Some f2 ->
  get_hst_filter header
  = if contains "CLEAR" f2
    then if contains "CLEAR" f1 then None else Some (upper f1)
    else Some (upper f2).
Proof.
  intros Hi Hs H1 H2. unfold get_hst_filter. rewrite Hi. obind.
  rewrite Hs. cbn [String.eqb Ascii.eqb Bool.eqb foldM].
  change (filter_key 1) with "FILTER1"%string.
  change (filter_key 2) with "FILTER2"%string.
  rewrite H1. obind.
  destruct (contains "CLEAR" f1); obind; rewrite H2; obind;
    by destruct (contains "CLEAR" f2).
Qed.

Lemma get_hst_filter_acs_witness :
  get_hst_filter acs_header = Some "F814W"%string.
Proof.
  exact (get_hst_filter_acs acs_header "ACS   " "CLEAR1L" "f814w"
           eq_refl eq_refl eq_refl eq_refl).
Defined.

Lemma upper_char_idemp (c : ascii) : upper_char (upper_char c) = upper_char c.
Proof.
  unfold upper_char.
  destruct ((97 <=? nat_of_ascii c) && (nat_of_ascii c <=? 122)) eqn:Hc.
  - apply andb_true_iff in Hc as [H1 H2].
    apply Nat.leb_le in H1, H2.
    rewrite nat_ascii_embedding by lia.
    replace ((97 <=? nat_of_ascii c - 32) && _) with false; [reflexivity|].
    symmetry. apply andb_false_iff. left. apply Nat.leb_gt. lia.
  - by rewrite Hc.
Qed.

Lemma upper_idemp (s : string) : upper (upper s) = upper s.
Proof.
  induction s as [|c s IH]; [reflexivity|].
  cbn [upper]. by rewrite upper_char_idemp, IH.
Qed.

Lemma upper_fixed_no_lower (s : string) :
  upper s = s ->
  Forall (fun c => ~ (97 <= nat_of_ascii c <= 122))
         (list_ascii_of_string s).
Proof.
  induction s as [|c s IH]; intros H; [constructor|].
  cbn [upper] in H. injection H as Hc Hs.
  cbn [list_ascii_of_string]. constructor; [|by apply IH].
  intros [H1 H2]. unfold upper_char in Hc.
  assert ((97 <=? nat_of_ascii c) && (nat_of_ascii c <=? 122) = true) as Hb.
  { apply andb_true_iff. split; apply Nat.leb_le; lia. }
  rewrite Hb in Hc. apply (f_equal nat_of_ascii) in Hc.
  rewrite nat_ascii_embedding in Hc by lia. lia.
Qed.

(** X5.  Whatever the header, the name that [get_hst_filter] returns is in
    upper case: it holds none of the letters [a] to [z], and [upper]
    leaves it as it is. *)
Theorem get_hst_filter_upper (header : gmap string string) (f : string) :
  get_hst_filter header = Some f ->
  upper f = f
  /\ Forall (fun c => ~ (97 <= nat_of_ascii c <= 122))
            (list_ascii_of_string f).
Proof.
  unfold get_hst_filter.
  destruct (header !! "INSTRUME"%string); obind; [|discriminate].
  match goal with
  | |- context [mbind _ ?x] => destruct x
  end; obind; [|discriminate].
  intros [= <-].
  split; [apply upper_idemp|apply upper_fixed_no_lower, upper_idemp].
Qed.

Lemma get_hst_filter_upper_witness :
  get_hst_filter acs_header = Some "F814W"%string
  /\ upper "F814W" = "F814W"%string.
Proof.
  assert (get_hst_filter acs_header = Some "F814W"%string) as H
    by (vm_compute; reflexivity).
  split; [exact H|].
  exact (proj1 (get_hst_filter_upper acs_header "F814W" H)).
Defined.

(** ** Templates *)

Lemma SpectrumTemplate_zscale_one (E : Externals) (t : SpectrumTemplate)
    (z : Q) :
  zscale E t z = SpectrumTemplate_zscale (IGM E) t z 1.
Proof. reflexivity. Qed.

(** X6.  Without the IGM curve, redshifting by [z1] and then by [z2] is
    redshifting once by [(1+z1)(1+z2)-1], with the product of the
    scalars; and a redshift of zero is the multiplication by the
    scalar. *)
Theorem SpectrumTemplate_zscale_compose (t : SpectrumTemplate)
    (z1 s1 z2 s2 : Q) :
  ~ (1 + z1 == 0)%Q -> ~ (1 + z2 == 0)%Q ->
  (exists t1 t2 t12,
     SpectrumTemplate_zscale None t z1 s1 = Some t1
     /\ SpectrumTemplate_zscale None t1 z2 s2 = Some t2
     /\ SpectrumTemplate_zscale None t ((1 + z1) * (1 + z2) - 1) (s1 * s2)
        = Some t12
     /\ same_spectrum t2 t12)
  /\ exists t0,
       SpectrumTemplate_zscale None t 0 s1 = Some t0
       /\ same_spectrum t0 (SpectrumTemplate_mul t s1).
Proof.
  intros H1 H2. split.
  - do 3 eexists. split; [reflexivity|]. split; [reflexivity|].
    split; [reflexivity|]. unfold same_spectrum. cbn [wave flux].
    rewrite !map_map. split.
    + induction (wave t) as [|w l IH]; cbn [map]; constructor; [ring|exact IH].
    + induction (flux t) as [|f l IH]; cbn [map]; constructor; [|exact IH].
      field. split; [|split]; try assumption.
      intros H. apply H2. 
      assert ((1 + z1) * (1 + z2) == 0)%Q as Hm by lra.
      apply Qmult_integral in Hm as [Hm|Hm]; [contradiction|exact Hm].
  - eexists. split; [reflexivity|]. unfold same_spectrum, SpectrumTemplate_mul.
    cbn [wave flux]. rewrite !map_map. split.
    + induction (wave t) as [|w l IH]; cbn [map]; constructor; [ring|exact IH].
    + induction (flux t) as [|f l IH]; cbn [map]; constructor; [|exact IH].
      field.
Qed.

Lemma SpectrumTemplate_zscale_compose_witness :
  exists t1 t2 t12,
    SpectrumTemplate_zscale None Sample.line_template 1 2 = Some t1
    /\ SpectrumTemplate_zscale None t1 2 3 = Some t2
    /\ SpectrumTemplate_zscale None Sample.line_template
         ((1 + 1) * (1 + 2) - 1) (2 * 3) = Some t12
    /\ same_spectrum t2 t12.
Proof.
  apply (SpectrumTemplate_zscale_compose Sample.line_template 1 2 2 3);
    discriminate.
Defined.

#[local] Instance Qle_total : Total Qle.
Proof.
  intros x y. destruct (Qlt_le_dec x y) as [H|H]; [left|right]; lra.
Qed.

#[local] Instance Qle_trans' : Transitive Qle.
Proof. intros x y z. apply Qle_trans. Qed.

Lemma np_sort_Permutation (l : list Q) : np_sort l ≡ₚ l.
Proof. apply merge_sort_Permutation. Qed.

Lemma np_sort_StronglySorted (l : list Q) : StronglySorted Qle (np_sort l).
Proof.
  apply Sorted_StronglySorted; [apply _|]. apply Sorted_merge_sort. apply _.
Qed.

Lemma Qred_eq_iff (x y : Q) : Qred x = Qred y <-> (x == y)%Q.
Proof.
  split; [|apply Qred_complete].
  intros H. rewrite <- (Qred_correct x), <- (Qred_correct y). by rewrite H.
Qed.

Lemma strict_NoDup (l : list Q) :
  StronglySorted Qlt l -> NoDup (map Qred l).
Proof.
  induction 1 as [|x l Hs IH Hall]; cbn; constructor; [|exact IH].
  intros Hin. apply list_elem_of_fmap in Hin as (y & Heq & Hy).
  apply Qred_eq_iff in Heq.
  rewrite List.Forall_forall in Hall.
  apply list_elem_of_In in Hy. specialize (Hall y Hy). lra.
Qed.

Lemma NoDup_strict (l : list Q) :
  StronglySorted Qle l -> NoDup (map Qred l) -> StronglySorted Qlt l.
Proof.
  induction 1 as [|x l Hs IH Hall]; cbn; intros Hnd; constructor.
  - apply IH. by apply NoDup_cons_1_2 in Hnd.
  - apply NoDup_cons_1_1 in Hnd.
    apply List.Forall_forall. intros y Hy.
    rewrite List.Forall_forall in Hall. specialize (Hall y Hy).
    apply Qle_lt_or_eq in Hall as [Hlt|Heq]; [exact Hlt|].
    exfalso. apply Hnd. apply list_elem_of_fmap. exists y. split.
    + by apply Qred_eq_iff.
    + by apply list_elem_of_In.
Qed.

(** Sorting keeps a strictly increasing array strictly increasing *)
Lemma np_sort_strict (l : list Q) :
  StronglySorted Qlt l -> StronglySorted Qlt (np_sort l).
Proof.
  intros Hs. apply NoDup_strict; [apply np_sort_StronglySorted|].
  rewrite (np_sort_Permutation l). by apply strict_NoDup.
Qed.

Lemma drop_repeats_spec (prev : Q) (l : list Q) :
  StronglySorted Qle (prev :: l) ->
  StronglySorted Qlt (prev :: drop_repeats prev l)
  /\ (forall x, x ∈ l ->
        exists y, y ∈ prev :: drop_repeats prev l /\ (x == y)%Q)
  /\ (forall y, y ∈ drop_repeats prev l -> y ∈ l).
Proof.
  revert prev. induction l as [|x l IH]; intros prev Hs.
  - cbn. split; [repeat constructor|]. split; [|done].
    intros x Hx. by apply elem_of_nil in Hx.
  - inversion Hs as [|? ? Hs' Hall]; subst.
    inversion Hall as [|? ? Hpx Hall']; subst.
    inversion Hs' as [|? ? Hs'' Hallx]; subst.
    cbn [drop_repeats]. destruct (Qeq_bool prev x) eqn:Heq.
    + apply Qeq_bool_iff in Heq.
      destruct (IH prev) as (H1 & H2 & H3); [by constructor|].
      split; [exact H1|]. split.
      * intros w Hw. apply elem_of_cons in Hw as [->|Hw].
        -- exists prev. split; [by left|by symmetry].
        -- by apply H2.
      * intros y Hy. right. by apply H3.
    + assert (prev < x)%Q as Hlt.
      { apply Qle_lt_or_eq in Hpx as [?|Hq]; [done|].
        apply Qeq_bool_iff in Hq. congruence. }
      destruct (IH x Hs') as (H1 & H2 & H3).
      split; [|split].
      * constructor; [exact H1|].
        inversion H1 as [|? ? _ Hgt]; subst.
        constructor; [exact Hlt|].
        eapply Forall_impl; [exact Hgt|]. cbn. intros y Hy. lra.
      * intros w Hw. apply elem_of_cons in Hw as [->|Hw].
        -- exists x. split; [right; by left|reflexivity].
        -- destruct (H2 w Hw) as (y & Hy & Hwy).
           exists y. split; [by right|exact Hwy].
      * intros y Hy. apply elem_of_cons in Hy as [->|Hy]; [by left|].
        right. by apply H3.
Qed.

Lemma np_unique_spec (l : list Q) :
  StronglySorted Qlt (np_unique l)
  /\ (forall x, x ∈ l -> exists y, y ∈ np_unique l /\ (x == y)%Q)
  /\ (forall y, y ∈ np_unique l -> y ∈ l).
Proof.
  unfold np_unique.
  pose proof (np_sort_StronglySorted l) as Hs.
  pose proof (np_sort_Permutation l) as Hp.
  destruct (np_sort l) as [|x s].
  - apply Permutation_nil_l in Hp. subst l.
    split; [constructor|]. split; [|done].
    intros x Hx. by apply elem_of_nil in Hx.
  - destruct (drop_repeats_spec x s Hs) as (H1 & H2 & H3).
    split; [exact H1|]. split.
    + intros w Hw. rewrite <- Hp in Hw.
      apply elem_of_cons in Hw as [->|Hw].
      * exists x. split; [by left|reflexivity].
      * by apply H2.
    + intros y Hy. rewrite <- Hp.
      apply elem_of_cons in Hy as [->|Hy]; [by left|].
      right. by apply H3.
Qed.

Lemma length_interp_array (x xp fp v : list Q) :
  interp_array x xp fp = Some v -> length v = length x.
Proof.
  unfold interp_array. destruct (_ && _); [|discriminate].
  intros H. by apply length_mapM in H.
Qed.

Lemma SpectrumTemplate_add_grid (a b c : SpectrumTemplate) :
  SpectrumTemplate_add a b = Some c ->
  StronglySorted Qlt (wave c)
  /\ (forall w, w ∈ wave a ++ wave b ->
        exists w', w' ∈ wave c /\ (w == w')%Q)
  /\ (forall w', w' ∈ wave c -> w' ∈ wave a ++ wave b)
  /\ length (flux c) = length (wave c).
Proof.
  unfold SpectrumTemplate_add. cbv zeta.
  destruct (interp_array _ (wave a) _) as [f1|] eqn:H1; obind;
    [|discriminate].
  destruct (interp_array _ (wave b) _) as [f2|] eqn:H2; obind;
    [|discriminate].
  destruct (Np.elementwise Qplus f1 f2) as [nf|] eqn:Hf; obind;
    [|discriminate].
  intros [= <-]. cbn [wave flux].
  destruct (np_unique_spec (wave a ++ wave b)) as (Hs & Hin & Hout).
  split; [by apply np_sort_strict|]. split; [|split].
  - intros w Hw. destruct (Hin w Hw) as (y & Hy & Hwy).
    exists y. split; [|exact Hwy]. by rewrite np_sort_Permutation.
  - intros w' Hw'. rewrite np_sort_Permutation in Hw'. by apply Hout.
  - apply elementwise_Some in Hf as (Hl & -> & _).
    apply length_interp_array in H1, H2.
    rewrite length_zip_with. lia.
Qed.

(** X7.  The sum of two templates is sampled on the wavelengths of both,
    each once and in strictly increasing order, and its flux at each of
    them is the sum of the two templates interpolated there. *)
Theorem SpectrumTemplate_add_wave (a b c : SpectrumTemplate) :
  SpectrumTemplate_add a b = Some c ->
  StronglySorted Qlt (wave c)
  /\ (forall w, w ∈ wave a ++ wave b ->
        exists w', w' ∈ wave c /\ (w == w')%Q)
  /\ (forall w', w' ∈ wave c -> w' ∈ wave a ++ wave b)
  /\ length (flux c) = length (wave c)
  /\ forall k w,
       wave c !! k = Some w ->
       exists fa fb,
         Np.interp w (wave a) (flux a) = Some fa
         /\ Np.interp w (wave b) (flux b) = Some fb
         /\ flux c !! k = Some (fa + fb)%Q.
Proof.
  intros Hab.
  destruct (SpectrumTemplate_add_grid a b c Hab) as (G1 & G2 & G3 & G4).
  do 4 (split; [assumption|]).
  revert Hab. unfold SpectrumTemplate_add. cbv zeta.
  destruct (interp_array _ (wave a) _) as [f1|] eqn:H1; obind;
    [|discriminate].
  destruct (interp_array _ (wave b) _) as [f2|] eqn:H2; obind;
    [|discriminate].
  destruct (Np.elementwise Qplus f1 f2) as [nf|] eqn:Hf; obind;
    [|discriminate].
  intros [= <-]. cbn [wave flux]. intros k w Hk.
  apply elementwise_Some in Hf as (Hl & -> & _).
  unfold interp_array in H1, H2.
  destruct ((length (wave a) =? length (flux a)) && _); [|discriminate].
  destruct ((length (wave b) =? length (flux b)) && _); [|discriminate].
  apply mapM_Some in H1, H2.
  destruct (Forall2_lookup_l _ _ _ _ _ H1 Hk) as (fa & Hfa & Hia).
  destruct (Forall2_lookup_l _ _ _ _ _ H2 Hk) as (fb & Hfb & Hib).
  exists fa, fb. split; [exact Hia|]. split; [exact Hib|].
  by rewrite lookup_zip_with, Hfa, Hfb.
Qed.

Lemma SpectrumTemplate_add_wave_witness :
  exists c,
    SpectrumTemplate_add {| wave := [1; 3]%Q; flux := [1; 3]%Q |}
                         {| wave := [2; 3]%Q; flux := [0; 4]%Q |} = Some c
    /\ StronglySorted Qlt (wave c)
    /\ length (flux c) = length (wave c).
Proof.
  eexists. split; [vm_compute; reflexivity|].
  match goal with
  | |- StronglySorted Qlt (wave ?c) /\ _ =>
      destruct (SpectrumTemplate_add_wave
                  {| wave := [1; 3]%Q; flux := [1; 3]%Q |}
                  {| wave := [2; 3]%Q; flux := [0; 4]%Q |} c)
        as (H1 & _ & _ & H4 & _); [vm_compute; reflexivity|]
  end.
  split; [exact H1|exact H4].
Defined.

Lemma strict_same_elements (l1 l2 : list Q) :
  StronglySorted Qlt l1 -> StronglySorted Qlt l2 ->
  (forall x, x ∈ l1 -> exists y, y ∈ l2 /\ (x == y)%Q) ->
  (forall y, y ∈ l2 -> exists x, x ∈ l1 /\ (y == x)%Q) ->
  Forall2 Qeq l1 l2.
Proof.
  intros H1. revert l2. induction H1 as [|x r1 Hs1 IH Hall1];
    intros l2 H2 H12 H21.
  - destruct l2 as [|y r2]; [constructor|].
    destruct (H21 y) as (x & Hx & _); [by left|]. by apply elem_of_nil in Hx.
  - destruct H2 as [|y r2 Hs2 Hall2].
    { destruct (H12 x) as (y & Hy & _); [by left|].
      by apply elem_of_nil in Hy. }
    rewrite List.Forall_forall in Hall1, Hall2.
    assert (forall w, w ∈ r1 -> (x < w)%Q) as Hr1
      by (intros w Hw; apply Hall1; by apply list_elem_of_In).
    assert (forall w, w ∈ r2 -> (y < w)%Q) as Hr2
      by (intros w Hw; apply Hall2; by apply list_elem_of_In).
    assert (x == y)%Q as Hxy.
    { destruct (H12 x) as (y' & Hy' & Hxy'); [by left|].
      destruct (H21 y) as (x' & Hx' & Hyx'); [by left|].
      apply elem_of_cons in Hy' as [->|Hy']; [exact Hxy'|].
      apply elem_of_cons in Hx' as [->|Hx']; [by symmetry|].
      specialize (Hr1 _ Hx'). specialize (Hr2 _ Hy'). lra. }
    constructor; [exact Hxy|]. apply IH; [exact Hs2| |].
    + intros w Hw. destruct (H12 w) as (y' & Hy' & Hwy'); [by right|].
      apply elem_of_cons in Hy' as [->|Hy'].
      * specialize (Hr1 _ Hw). lra.
      * by exists y'.
    + intros w Hw. destruct (H21 w) as (x' & Hx' & Hwx'); [by right|].
      apply elem_of_cons in Hx' as [->|Hx'].
      * specialize (Hr2 _ Hw). lra.
      * by exists x'.
Qed.

Lemma Qle_bool_Qeq (a x y : Q) : (x == y)%Q -> Qle_bool a x = Qle_bool a y.
Proof.
  intros H. destruct (Qle_bool a y) eqn:Hy.
  - apply Qle_bool_iff. apply Qle_bool_iff in Hy. lra.
  - apply Qle_bool_false. apply Qle_bool_false in Hy. lra.
Qed.

Lemma interp_from_Qeq (q q' x0 f0 : Q) (rest : list (Q * Q)) :
  (q == q')%Q ->
  (Np.interp_from q x0 f0 rest == Np.interp_from q' x0 f0 rest)%Q.
Proof.
  intros Hq. revert x0 f0. induction rest as [|[x1 f1] rest IH];
    intros x0 f0; cbn [Np.interp_from]; [reflexivity|].
  rewrite (Qle_bool_Qeq x1 q q' Hq).
  destruct (Qle_bool x1 q'); [apply IH|]. by rewrite Hq.
Qed.

Lemma interp_Qeq (q q' : Q) (xp fp : list Q) (v : Q) :
  (q == q')%Q -> Np.interp q xp fp = Some v ->
  exists v', Np.interp q' xp fp = Some v' /\ (v == v')%Q.
Proof.
  intros Hq. unfold Np.interp. destruct (_ =? _); [|discriminate].
  destruct (zip xp fp) as [|[x0 f0] rest]; [discriminate|].
  intros [= <-]. eexists. split; [reflexivity|].
  assert (Np.Qlt_bool q x0 = Np.Qlt_bool q' x0) as ->.
  { destruct (Np.Qlt_bool q' x0) eqn:Hb.
    - apply Qlt_bool_iff. apply Qlt_bool_iff in Hb. lra.
    - apply Qlt_bool_false. apply Qlt_bool_false in Hb. lra. }
  destruct (Np.Qlt_bool q' x0); [reflexivity|]. by apply interp_from_Qeq.
Qed.

Lemma interp_array_Qeq (x x' xp fp v : list Q) :
  Forall2 Qeq x x' -> interp_array x xp fp = Some v ->
  exists v', interp_array x' xp fp = Some v' /\ Forall2 Qeq v v'.
Proof.
  unfold interp_array. destruct (_ && _); [|discriminate].
  intros Hx. revert v. induction Hx as [|q q' x x' Hq Hx IH]; intros v.
  - intros [= <-]. exists []. split; [reflexivity|constructor].
  - cbn [mapM]. obind.
    destruct (Np.interp q xp fp) as [w|] eqn:Hw; obind; [|discriminate].
    destruct (mapM _ x) as [ws|] eqn:Hws; obind; [|discriminate].
    intros [= <-].
    destruct (interp_Qeq q q' xp fp w Hq Hw) as (w' & -> & Hww).
    destruct (IH ws eq_refl) as (ws' & -> & Hwsws). obind.
    exists (w' :: ws'). split; [reflexivity|by constructor].
Qed.

(** X8.  Adding two templates in either order gives the same spectrum. *)
Theorem SpectrumTemplate_add_comm (a b c : SpectrumTemplate) :
  SpectrumTemplate_add a b = Some c ->
  exists c', SpectrumTemplate_add b a = Some c' /\ same_spectrum c c'.
Proof.
  intros Hab. pose proof (SpectrumTemplate_add_grid a b c Hab) as Hc.
  revert Hab Hc.
  unfold SpectrumTemplate_add. cbv zeta.
  set (w := np_sort (np_unique (wave a ++ wave b))).
  set (w' := np_sort (np_unique (wave b ++ wave a))).
  destruct (interp_array w (wave a) _) as [f1|] eqn:H1; obind;
    [|discriminate].
  destruct (interp_array w (wave b) _) as [f2|] eqn:H2; obind;
    [|discriminate].
  destruct (Np.elementwise Qplus f1 f2) as [nf|] eqn:Hf; obind;
    [|discriminate].
  intros [= <-] _. cbn [wave flux].
  assert (Forall2 Qeq w w') as Hww.
  { destruct (np_unique_spec (wave a ++ wave b)) as (Hs & Hin & Hout).
    destruct (np_unique_spec (wave b ++ wave a)) as (Hs' & Hin' & Hout').
    apply strict_same_elements; [by apply np_sort_strict..| |].
    - intros x Hx. subst w w'. rewrite np_sort_Permutation in Hx.
      apply Hout in Hx. destruct (Hin' x) as (y & Hy & Hxy).
      { rewrite elem_of_app in *. tauto. }
      exists y. split; [by rewrite np_sort_Permutation|exact Hxy].
    - intros x Hx. subst w w'. rewrite np_sort_Permutation in Hx.
      apply Hout' in Hx. destruct (Hin x) as (y & Hy & Hxy).
      { rewrite elem_of_app in *. tauto. }
      exists y. split; [by rewrite np_sort_Permutation|exact Hxy]. }
  destruct (interp_array_Qeq _ _ _ _ _ Hww H1) as (f1' & H1' & Hf1).
  destruct (interp_array_Qeq _ _ _ _ _ Hww H2) as (f2' & H2' & Hf2).
  rewrite H2'. obind. rewrite H1'. obind.
  apply elementwise_Some in Hf as (Hl & -> & _).
  unfold Np.elementwise.
  assert (length f2' = length f1') as Hl'.
  { apply Forall2_length in Hf1, Hf2. lia. }
  rewrite Hl', Nat.eqb_refl. obind. eexists. split; [reflexivity|].
  split; cbn [wave flux]; [exact Hww|].
  clear - Hf1 Hf2 Hl. revert f2 f2' Hf2 Hl.
  induction Hf1 as [|u u' f1 f1' Hu Hf1 IH]; intros f2 f2' Hf2 Hl.
  - destruct Hf2; [constructor|discriminate].
  - destruct Hf2 as [|v v' f2 f2' Hv Hf2]; [discriminate|].
    cbn [zip_with]. constructor; [rewrite Hu, Hv; ring|].
    apply IH; [exact Hf2|]. cbn in Hl. lia.
Qed.

Lemma SpectrumTemplate_add_comm_witness :
  exists c c',
    SpectrumTemplate_add {| wave := [1; 3]%Q; flux := [1; 3]%Q |}
                         {| wave := [2; 3]%Q; flux := [0; 4]%Q |} = Some c
    /\ SpectrumTemplate_add {| wave := [2; 3]%Q; flux := [0; 4]%Q |}
                            {| wave := [1; 3]%Q; flux := [1; 3]%Q |} = Some c'
    /\ same_spectrum c c'.
Proof.
  eexists.
  match goal with
  | |- exists c', ?A = Some ?c /\ _ =>
      assert (A = Some c) as Hab by (vm_compute; reflexivity)
  end.
  destruct (SpectrumTemplate_add_comm _ _ _ Hab) as (c' & Hba & Hsame).
  exists c'. split; [exact Hab|]. split; [exact Hba|exact Hsame].
Defined.

(** ** The logarithmic grid *)

Lemma arange_bounds (start stop step : Q) (g : list Q) :
  (0 < step)%Q -> Np.arange start stop step = Some g ->
  Forall (fun x => start <= x /\ x < stop)%Q g
  /\ (forall x, g !! 0 = Some x -> (x == start)%Q)
  /\ (g = [] <-> (stop <= start)%Q).
Proof.
  intros Hstep. unfold Np.arange.
  destruct (Qeq_bool step 0); [discriminate|]. intros [= <-].
  remember (Z.to_nat (Qceiling ((stop - start) / step))) as n eqn:Hn.
  assert (forall i, i < n ->
            (inject_Z (Z.of_nat i) * step < stop - start)%Q) as Hlt.
  { intros i Hi. subst n.
    pose proof (Qceiling_lt ((stop - start) / step)) as Hc.
    assert (inject_Z (Z.of_nat i)
            <= inject_Z (Qceiling ((stop - start) / step) - 1))%Q as Hi'
      by (rewrite <- Zle_Qle; lia).
    assert (inject_Z (Z.of_nat i) < (stop - start) / step)%Q as Hq by lra.
    assert (inject_Z (Z.of_nat i) * step
            < (stop - start) / step * step)%Q as Hm
      by (by apply Qmult_lt_r).
    assert ((stop - start) / step * step == stop - start)%Q as Hf
      by (field; lra).
    lra. }
  split; [|split].
  - apply List.Forall_forall. intros x Hx.
    apply in_map_iff in Hx as (i & <- & Hi). apply in_seq in Hi.
    specialize (Hlt i ltac:(lia)).
    assert (0 <= inject_Z (Z.of_nat i) * step)%Q.
    { apply Qmult_le_0_compat; [|lra].
      change 0%Q with (inject_Z 0). rewrite <- Zle_Qle. lia. }
    lra.
  - intros x Hx. destruct n as [|m]; [discriminate|].
    cbn in Hx. injection Hx as <-. ring.
  - split.
    + intros Hnil. destruct n as [|m]; [|discriminate].
      pose proof (Qle_ceiling ((stop - start) / step)) as Hc.
      assert (Qceiling ((stop - start) / step) <= 0)%Z as Hz by lia.
      assert (inject_Z (Qceiling ((stop - start) / step)) <= 0)%Q as Hq
        by (change 0%Q with (inject_Z 0); by rewrite <- Zle_Qle).
      assert ((stop - start) / step <= 0)%Q as Hd by lra.
      assert ((stop - start) / step * step <= 0 * step)%Q as Hm
        by (apply Qmult_le_compat_r; lra).
      assert ((stop - start) / step * step == stop - start)%Q as Hf
        by (field; lra).
      lra.
    + intros Hle. destruct n as [|m]; [reflexivity|].
      specialize (Hlt 0 ltac:(lia)). cbn in Hlt.
      assert (inject_Z 0 * step == 0)%Q as H0 by ring.
      change (inject_Z (Z.of_nat 0)) with (inject_Z 0) in Hlt.
      lra.
Qed.



Section LogGrid.

Variable E : Externals.

(** What the grid needs of [np.exp] and [np.log]: [exp] does not
    decrease, increases strictly, and undoes [log] *)
Hypothesis exp_mono :
  forall x y, (x <= y)%Q -> (np_exp E x <= np_exp E y)%Q.
Hypothesis exp_increasing :
  forall x y, (x < y)%Q -> (np_exp E x < np_exp E y)%Q.
Hypothesis exp_log :
  forall x y, np_log E x = Some y -> (np_exp E y == x)%Q.


End LogGrid.




(** ** Slices and the background rows *)

Lemma _get_slices_masked_lookup (x : nat) (bs : list Beam) (i : nat)
    (b : Beam) :
  bs !! i = Some b ->
  _get_slices_masked x bs !! i
  = Some (if Np.count_true (beam_fit_mask b) =? 0 then None
          else Some (seq (x + unmasked_total (take i bs))
                         (Np.count_true (beam_fit_mask b)))).
Proof.
  revert x i. induction bs as [|b0 bs IH]; intros x i Hi; [done|].
  cbn [_get_slices_masked]. destruct i as [|i].
  - injection Hi as ->. cbn [take unmasked_total map sum_list].
    rewrite Nat.add_0_r. by destruct (_ =? 0).
  - cbn in Hi. destruct (Np.count_true (beam_fit_mask b0) =? 0) eqn:H0.
    + apply Nat.eqb_eq in H0.
      change ((?a :: ?l) !! S i) with (l !! i).
      rewrite (IH x i Hi). unfold unmasked_total.
      cbn [take map sum_list]. by rewrite H0.
    + change ((?a :: ?l) !! S i) with (l !! i).
      rewrite (IH _ i Hi). unfold unmasked_total.
      cbn [take map sum_list]. by rewrite Nat.add_assoc.
Qed.

(** X10.  The index arrays of [_get_slices(masked=True)], one per beam and
    [None] for a beam without unmasked pixels, are consecutive: put end
    to end they count from the start to the number of unmasked pixels of
    all beams. *)
Theorem _get_slices_masked_partition (x : nat) (bs : list Beam) :
  length (_get_slices_masked x bs) = length bs
  /\ concat (omap id (_get_slices_masked x bs)) = seq x (unmasked_total bs)
  /\ forall i b,
       bs !! i = Some b ->
       (_get_slices_masked x bs !! i = Some None
        <-> Np.count_true (beam_fit_mask b) = 0).
Proof.
  split; [|split].
  - revert x. induction bs as [|b bs IH]; intros x; [reflexivity|].
    cbn [_get_slices_masked]. destruct (_ =? 0); cbn [length]; by rewrite IH.
  - revert x. induction bs as [|b bs IH]; intros x; [reflexivity|].
    cbn [_get_slices_masked]. unfold unmasked_total. cbn [map sum_list].
    destruct (Np.count_true (beam_fit_mask b) =? 0) eqn:H0.
    + apply Nat.eqb_eq in H0. rewrite H0. cbn. apply IH.
    + cbn [omap option_bind id concat]. cbn. rewrite IH. by rewrite seq_app.
  - intros i b Hb. rewrite (_get_slices_masked_lookup x bs i b Hb).
    destruct (Np.count_true (beam_fit_mask b) =? 0) eqn:H0.
    + apply Nat.eqb_eq in H0. done.
    + apply Nat.eqb_neq in H0. split; [discriminate|done].
Qed.

Lemma _get_slices_masked_partition_witness :
  concat (omap id (_get_slices_masked 0
            [Sample.beam3; Sample.masked_beam; Sample.beam3]))
  = seq 0 6.
Proof.
  exact (proj1 (proj2 (_get_slices_masked_partition 0
           [Sample.beam3; Sample.masked_beam; Sample.beam3]))).
Defined.

Lemma foldl_insert_ones (idx : list nat) (row : list Q) (k : nat) :
  foldl (fun r j => <[j:=1%Q]> r) row idx !! k
  = if bool_decide (k ∈ idx) && (k <? length row) then Some 1%Q
    else row !! k.
Proof.
  revert row. induction idx as [|j idx IH]; intros row; cbn [foldl].
  - rewrite bool_decide_eq_false_2 by apply not_elem_of_nil. done.
  - rewrite IH, length_insert.
    destruct (decide (k = j)) as [->|Hne].
    + rewrite (bool_decide_eq_true_2 (j ∈ j :: idx)) by (by left).
      destruct (j <? length row) eqn:Hlt.
      * apply Nat.ltb_lt in Hlt. rewrite list_lookup_insert_eq by done.
        by destruct (bool_decide _).
      * apply Nat.ltb_ge in Hlt. rewrite !andb_false_r.
        by rewrite list_insert_ge by lia.
    + rewrite list_lookup_insert_ne by done.
      destruct (decide (k ∈ idx)) as [Hin|Hnin].
      * rewrite !bool_decide_eq_true_2; [done|by right|done].
      * rewrite !bool_decide_eq_false_2; [done| |done].
        intros [?|?]%elem_of_cons; done.
Qed.

Lemma length_foldl_insert (idx : list nat) (row : list Q) :
  length (foldl (fun r j => <[j:=1%Q]> r) row idx) = length row.
Proof.
  revert row. induction idx as [|j idx IH]; intros row; [reflexivity|].
  cbn [foldl]. by rewrite IH, length_insert.
Qed.

(** X11.  With the slices of its beams, row [i] of the masked background
    matrix is 1 over the unmasked pixels of beam [i] and 0 over those of
    the other beams; but the row of a beam without unmasked pixels, whose
    slice is [None], is 1 everywhere. *)
Theorem _init_background_rows (bs : list Beam) (i : nat) (b : Beam)
    (row : list Q) :
  bs !! i = Some b ->
  _init_background (unmasked_total bs) (_get_slices_masked 0 bs) !! i
    = Some row ->
  length row = unmasked_total bs
  /\ forall k,
       k < unmasked_total bs ->
       row !! k
       = Some (if (Np.count_true (beam_fit_mask b) =? 0)
                  || ((unmasked_total (take i bs) <=? k)
                      && (k <? unmasked_total (take i bs)
                               + Np.count_true (beam_fit_mask b)))
               then 1%Q else 0%Q).
Proof.
  intros Hb. unfold _init_background.
  change (map ?f ?l) with (f <$> l). rewrite list_lookup_fmap.
  rewrite (_get_slices_masked_lookup 0 bs i b Hb). cbn [fmap option_fmap option_map].
  destruct (Np.count_true (beam_fit_mask b) =? 0) eqn:H0.
  - intros [= <-]. rewrite length_replicate. split; [reflexivity|].
    intros k Hk. cbn [orb]. by apply lookup_replicate_2.
  - intros [= <-]. rewrite length_foldl_insert.
    unfold Np.zeros. rewrite length_replicate. split; [reflexivity|].
    intros k Hk. rewrite foldl_insert_ones, length_replicate.
    cbn [orb Nat.add].
    apply Nat.ltb_lt in Hk as Hk'. rewrite Hk', andb_true_r.
    destruct (decide (k ∈ seq (unmasked_total (take i bs))
                               (Np.count_true (beam_fit_mask b))))
      as [Hin|Hnin].
    + rewrite bool_decide_eq_true_2 by done. apply elem_of_seq in Hin.
      replace (_ <=? k) with true by (symmetry; apply Nat.leb_le; lia).
      replace (k <? _) with true by (symmetry; apply Nat.ltb_lt; lia).
      done.
    + rewrite bool_decide_eq_false_2 by done.
      rewrite lookup_replicate_2 by done.
      rewrite elem_of_seq in Hnin.
      destruct (Nat.leb_spec (unmasked_total (take i bs)) k);
        destruct (Nat.ltb_spec k (unmasked_total (take i bs)
                                  + Np.count_true (beam_fit_mask b)));
        try done.
      lia.
Qed.

Lemma _init_background_rows_witness :
  exists row,
    _init_background 6
      (_get_slices_masked 0 [Sample.beam3; Sample.masked_beam; Sample.beam3])
      !! 1 = Some row
    /\ length row = 6
    /\ forall k, k < 6 -> row !! k = Some 1%Q.
Proof.
  eexists. split; [reflexivity|].
  match goal with
  | |- length ?row = _ /\ _ =>
      destruct (_init_background_rows
                  [Sample.beam3; Sample.masked_beam; Sample.beam3]
                  1 Sample.masked_beam row eq_refl eq_refl) as [H1 H2]
  end.
  split; [exact H1|]. intros k Hk. exact (H2 k Hk).
Defined.

(** ** More on the photometry *)

Lemma drop_tail_app_take {A : Type} (n : nat) (l t : list A) :
  n <= length t ->
  drop_tail n (l ++ t) = l ++ take (length t - n) t.
Proof.
  intros Hn. unfold drop_tail. rewrite length_app.
  rewrite take_app.
  rewrite take_ge by lia. f_equal. f_equal. lia.
Qed.

Lemma count_true_le_length (m : list bool) : Np.count_true m <= length m.
Proof. unfold Np.count_true. apply length_filter. Qed.

Section PhotometryMore.

Variable np_sqrt : Q -> Q.

(** X12.  A call of [set_photometry] that attaches the photometry leaves
    [Nphot] at the number of positive uncertainties, lengthens each of
    the five concatenated arrays by the number of fluxes, and raises
    [Nmask] by [Nphot]. *)
Theorem set_photometry_accounting (g : GroupFitter) (flam eflam : list Q)
    (filters : list FilterDefinition) (force : bool)
    (tf : option TemplateGrid) (min_err : Q) :
  (set_photometry np_sqrt g flam eflam filters force tf min_err).2
    = ReturnNone ->
  let g' := (set_photometry np_sqrt g flam eflam filters force tf min_err).1 in
  Nphot g' = Np.count_true (map (fun e => Np.Qlt_bool 0 e) eflam)
  /\ 0 < Nphot g'
  /\ length (scif g') = length (scif g) + length flam
  /\ length (sivarf g') = length (sivarf g) + length flam
  /\ length (weightf g') = length (weightf g) + length flam
  /\ length (fit_mask g') = length (fit_mask g) + length flam
  /\ length (wavef g') = length (wavef g) + length flam
  /\ Nmask g' = Np.count_true (fit_mask g) + Nphot g'.
Proof.
  unfold set_photometry.
  destruct ((0 <? Nphot g) && negb force); [discriminate|]. cbv zeta.
  destruct (Np.count_true _ =? 0) eqn:H0; [discriminate|].
  destruct (negb (length flam =? length eflam)
            || negb (length flam =? length filters)) eqn:Hlen;
    [discriminate|].
  intros _. cbn [fst Nphot scif sivarf weightf fit_mask wavef Nmask].
  apply orb_false_iff in Hlen as [H1 H2].
  apply negb_false_iff, Nat.eqb_eq in H1, H2.
  apply Nat.eqb_neq in H0.
  rewrite !length_app, !length_map, length_zip_with, count_true_app.
  repeat apply conj; try reflexivity; lia.
Qed.

(** X13.  After a call of [set_photometry] that attached photometry,
    [unset_photometry] takes [Nphot] entries off the end of each array:
    when some uncertainty is not positive, the first
    [len(flam) - Nphot] photometric entries stay behind. *)
Theorem set_unset_photometry_leftover (g : GroupFitter)
    (flam eflam : list Q) (filters : list FilterDefinition) (force : bool)
    (tf : option TemplateGrid) (min_err : Q) :
  (set_photometry np_sqrt g flam eflam filters force tf min_err).2
    = ReturnNone ->
  let n := Np.count_true (map (fun e => Np.Qlt_bool 0 e) eflam) in
  let g2 := (unset_photometry
               (set_photometry np_sqrt g flam eflam filters force tf
                               min_err).1).1 in
  Nphot g2 = 0
  /\ scif g2 = scif g ++ take (length flam - n) flam
  /\ wavef g2 = wavef g ++ take (length flam - n) (map pivot filters)
  /\ fit_mask g2
     = fit_mask g
       ++ take (length flam - n) (map (fun e => Np.Qlt_bool 0 e) eflam)
  /\ length (sivarf g2) = length (sivarf g) + (length flam - n)
  /\ length (weightf g2) = length (weightf g) + (length flam - n).
Proof.
  unfold set_photometry.
  destruct ((0 <? Nphot g) && negb force); [discriminate|]. cbv zeta.
  destruct (Np.count_true _ =? 0) eqn:H0; [discriminate|].
  destruct (negb (length flam =? length eflam)
            || negb (length flam =? length filters)) eqn:Hlen;
    [discriminate|].
  intros _. cbn [fst].
  apply orb_false_iff in Hlen as [H1 H2].
  apply negb_false_iff, Nat.eqb_eq in H1, H2.
  unfold unset_photometry. cbn [Nphot]. rewrite H0. cbv zeta.
  cbn [fst Nphot scif sivarf weightf fit_mask wavef].
  pose proof (count_true_le_length (map (fun e => Np.Qlt_bool 0 e) eflam))
    as Hle.
  rewrite length_map in Hle.
  split; [reflexivity|].
  rewrite !drop_tail_app_take
    by (rewrite ?length_map, ?length_zip_with; lia).
  rewrite !length_app, !length_take, !length_map, ?length_zip_with.
  rewrite <- H1, <- H2.
  repeat apply conj; try reflexivity; lia.
Qed.

(** X14.  A call rejected for mismatched lengths has already recorded
    [Nphot]: the arrays are as before, but a later call without [force]
    is refused, and [unset_photometry] then takes [Nphot] entries of the
    spectra off the arrays. *)
Theorem set_photometry_rejected_state (g : GroupFitter)
    (flam eflam : list Q) (filters : list FilterDefinition) (force : bool)
    (tf : option TemplateGrid) (min_err : Q) :
  (set_photometry np_sqrt g flam eflam filters force tf min_err).2
    = ReturnFalse ->
  let n := Np.count_true (map (fun e => Np.Qlt_bool 0 e) eflam) in
  let g' := (set_photometry np_sqrt g flam eflam filters force tf min_err).1 in
  0 < n /\ Nphot g' = n /\ scif g' = scif g
  /\ (forall flam2 eflam2 filters2 tf2 min_err2,
        set_photometry np_sqrt g' flam2 eflam2 filters2 false tf2 min_err2
        = (g', ReturnTrue))
  /\ scif (unset_photometry g').1 = drop_tail n (scif g)
  /\ fit_mask (unset_photometry g').1 = drop_tail n (fit_mask g).
Proof.
  unfold set_photometry at 1 2 3.
  destruct ((0 <? Nphot g) && negb force); [discriminate|]. cbv zeta.
  destruct (Np.count_true _ =? 0) eqn:H0; [discriminate|].
  destruct (negb (length flam =? length eflam)
            || negb (length flam =? length filters)) eqn:Hlen;
    [|discriminate].
  intros _. cbn [fst]. apply Nat.eqb_neq in H0 as H0'.
  split; [lia|]. split; [reflexivity|]. split; [reflexivity|].
  split.
  - intros flam2 eflam2 filters2 tf2 min_err2. unfold set_photometry.
    cbn [Nphot negb].
    replace (0 <? Np.count_true _) with true
      by (symmetry; apply Nat.ltb_lt; lia).
    reflexivity.
  - unfold unset_photometry. cbn [Nphot]. rewrite H0. by cbn.
Qed.

End PhotometryMore.

Lemma set_photometry_accounting_witness :
  let g' := (set_photometry Sample.sqrt_floor (Sample.group3 [1; 3; 2]%Q)
               [3 # 1000; 5 # 1000]%Q [1 # 1000; -1]%Q two_filters
               false None 0%Q).1 in
  Nphot g' = 1 /\ length (scif g') = 5 /\ Nmask g' = 4.
Proof.
  destruct (set_photometry_accounting Sample.sqrt_floor
              (Sample.group3 [1; 3; 2]%Q)
              [3 # 1000; 5 # 1000]%Q [1 # 1000; -1]%Q two_filters
              false None 0%Q eq_refl)
    as (H1 & _ & H3 & _ & _ & _ & _ & H8).
  cbv zeta. split; [exact H1|]. split; [exact H3|exact H8].
Defined.

Lemma set_unset_photometry_leftover_witness :
  scif (unset_photometry
          (set_photometry Sample.sqrt_floor (Sample.group3 [1; 3; 2]%Q)
             [3 # 1000; 5 # 1000]%Q [1 # 1000; -1]%Q two_filters
             false None 0%Q).1).1
  = [1; 3; 2; 3 # 1000]%Q.
Proof.
  destruct (set_unset_photometry_leftover Sample.sqrt_floor
              (Sample.group3 [1; 3; 2]%Q)
              [3 # 1000; 5 # 1000]%Q [1 # 1000; -1]%Q two_filters
              false None 0%Q eq_refl)
    as (_ & H2 & _).
  exact H2.
Defined.

Lemma set_photometry_rejected_state_witness :
  let g' := (set_photometry Sample.sqrt_floor (Sample.group3 [1; 3; 2]%Q)
               [3 # 1000; 5 # 1000]%Q [1 # 1000]%Q two_filters
               false None 0%Q).1 in
  Nphot g' = 1
  /\ scif g' = [1; 3; 2]%Q
  /\ scif (unset_photometry g').1 = [1; 3]%Q.
Proof.
  destruct (set_photometry_rejected_state Sample.sqrt_floor
              (Sample.group3 [1; 3; 2]%Q)
              [3 # 1000; 5 # 1000]%Q [1 # 1000]%Q two_filters
              false None 0%Q eq_refl)
    as (_ & H2 & H3 & _ & H5 & _).
  cbv zeta. split; [exact H2|]. split; [exact H3|exact H5].
Defined.

(** ** More on the fit at one redshift *)

Lemma sum_nonneg (l : list Q) : Forall (Qle 0) l -> (0 <= Np.sum l)%Q.
Proof.
  unfold Np.sum. induction 1 as [|x l Hx Hl IH]; cbn [foldr]; lra.
Qed.

Lemma Qsquare_nonneg (x : Q) : (0 <= x ^ 2)%Q.
Proof.
  change (x ^ 2)%Q with (x * x)%Q.
  destruct (Qlt_le_dec x 0) as [H|H].
  - assert (0 <= (- x) * (- x))%Q by (apply Qmult_le_0_compat; lra).
    assert ((- x) * (- x) == x * x)%Q by ring. lra.
  - by apply Qmult_le_0_compat.
Qed.




Lemma mul_from_lookup (n : nat) (c : Q) (l : list Q) (i : nat) :
  Np.mul_from n c l !! i
  = (fun x => if n <=? i then (x * c)%Q else x) <$> l !! i.
Proof.
  destruct (decide (i < length l)) as [Hi|Hi].
  - unfold Np.mul_from. destruct (Nat.leb_spec n i) as [Hle|Hlt].
    + rewrite lookup_app_r by (rewrite length_take; lia).
      rewrite length_take, Nat.min_l by lia.
      change (map ?f ?x) with (f <$> x). rewrite list_lookup_fmap.
      rewrite lookup_drop. by replace (n + (i - n)) with i by lia.
    + rewrite lookup_app_l by (rewrite length_take; lia).
      rewrite lookup_take_lt by done. by destruct (l !! i).
  - rewrite !lookup_ge_None_2; [done|lia|rewrite length_mul_from; lia].
Qed.

Lemma oktemp_of_lookup (A : list (list Q)) (i : nat) (row : list Q) :
  A !! i = Some row ->
  oktemp_of A !! i = Some (negb (Qeq_bool (Np.sum row) 0)).
Proof.
  intros H. unfold oktemp_of. change (map ?f ?l) with (f <$> l).
  by rewrite list_lookup_fmap, H.
Qed.

(** X16.  A row of the design matrix that sums to zero, as the row of a
    template that no exposure sees, is left out of the solve and comes
    back with the coefficient zero. *)
Theorem xfit_at_z_dropped_row (E : Externals) (g : GroupFitter) (z : Q)
    (T : TemplateSet) (fitter : string) (fb : bool) (gu : nat)
    (A : list (list Q)) (ok : list bool) (Ax : list (list Q))
    (data : list Q) (chi2 : Q) (coeffs err : list Q)
    (covar : list (list Q)) (ph : option (list Q)) (i : nat)
    (row : list Q) :
  design_system E g z T fitter fb = Some (A, ok, Ax, data) ->
  xfit_at_z E g z T fitter fb gu false
    = Some (Fit chi2 coeffs err covar ph) ->
  A !! i = Some row -> (Np.sum row == 0)%Q ->
  exists c, coeffs !! i = Some c /\ (c == 0)%Q.
Proof.
  intros Hsys Hx Hrow Hsum.
  assert (exists solved, solve E g T fitter ok Ax data = Some solved)
    as [solved Hsolve].
  { revert Hx. unfold xfit_at_z. rewrite Hsys. obind.
    destruct (solve _ _ _ _ _ _ _) as [solved|]; [by eexists|discriminate]. }
  pose proof (xfit_at_z_coeffs E _ _ _ _ _ _ _ _ _ _ _ _ _ _ _ _
                Hsys Hsolve Hx) as (Hco & _).
  cbv zeta in Hco.
  apply design_system_facts in Hsys as (_ & Hok & _).
  assert (ok !! i = Some false) as Hdrop.
  { rewrite Hok, (oktemp_of_lookup A i row Hrow).
    apply Qeq_bool_iff in Hsum. by rewrite Hsum. }
  rewrite Hco, mul_from_lookup, (scatter_lookup_false _ _ _ Hdrop).
  cbn [fmap option_fmap option_map]. eexists. split; [reflexivity|].
  destruct (_ <=? _); [ring|reflexivity].
Qed.

Lemma xfit_at_z_dropped_row_witness :
  exists chi2 coeffs err covar ph,
    xfit_at_z Sample.externals (Sample.group3 [1; 3; 2]%Q) 0%Q
      [("line Ha"%string, Sample.line_template)] "nnls" false 0 false
      = Some (Fit chi2 coeffs err covar ph)
    /\ exists c, coeffs !! 0 = Some c /\ (c == 0)%Q.
Proof.
  do 5 eexists.
  match goal with
  | |- ?A = Some (Fit ?c ?co ?er ?cv ?ph) /\ _ =>
      assert (A = Some (Fit c co er cv ph)) as Hx by (vm_compute; reflexivity)
  end.
  split; [exact Hx|].
  eapply (xfit_at_z_dropped_row Sample.externals
            (Sample.group3 [1; 3; 2]%Q) 0%Q
            [("line Ha"%string, Sample.line_template)] "nnls" false 0).
  - vm_compute. reflexivity.
  - exact Hx.
  - reflexivity.
  - reflexivity.
Defined.

(** X17.  With [get_design_matrix], [xfit_at_z] returns, without solving,
    a matrix of one row per unmasked pixel and one column per kept row
    of the design matrix, and the data of each unmasked pixel. *)
Theorem xfit_at_z_design_matrix (E : Externals) (g : GroupFitter) (z : Q)
    (T : TemplateSet) (fitter : string) (fb : bool) (gu : nat)
    (r : XfitResult) :
  xfit_at_z E g z T fitter fb gu true = Some r ->
  exists A ok Ax AxT data,
    design_system E g z T fitter fb = Some (A, ok, Ax, data)
    /\ r = DesignMatrix AxT data
    /\ length AxT = Nmask g
    /\ Forall (fun row => length row = Np.count_true ok) AxT
    /\ Np.count_true ok <= Nbeams g + length T
    /\ length data = Nmask g
    /\ forall k j x col,
         Ax !! j = Some col -> col !! k = Some x ->
         exists prow, AxT !! k = Some prow /\ prow !! j = Some x.
Proof.
  unfold xfit_at_z.
  destruct (design_system _ _ _ _ _ _) as [[[[A ok] Ax] data]|] eqn:Hsys;
    obind; [|discriminate].
  intros [= <-]. exists A, ok, Ax. do 2 eexists.
  split; [reflexivity|]. split; [reflexivity|].
  apply design_system_facts in Hsys
    as ([HA1 HA2] & Hok & Hl1 & Hl2 & Hcnt & [HAx1 HAx2] & Hd).
  unfold Np.transpose.
  split; [by rewrite length_map, length_seq|]. split.
  { apply List.Forall_forall. intros row Hrow.
    apply in_map_iff in Hrow as (j & <- & _). by rewrite length_map. }
  split.
  { rewrite Hok. unfold oktemp_of.
    etransitivity; [apply count_true_le_length|].
    by rewrite length_map, HA1. }
  split.
  { unfold masked_data in Hd.
    destruct (pedestal_array g _) as [pa|]; obind; [|discriminate].
    destruct (Np.elementwise Qplus _ _) as [a|] eqn:Ha; obind;
      [|discriminate].
    destruct (Np.elementwise Qmult _ _) as [b|] eqn:Hb; obind;
      [|discriminate].
    apply elementwise_Some in Ha as (Hal & -> & Hal').
    apply elementwise_Some in Hb as (Hbl & -> & Hbl').
    apply bool_index_Some in Hd as [Hm ->].
    rewrite length_compress by done. exact Hcnt. }
  intros k j x col Hj Hk.
  rewrite List.Forall_forall in HAx2.
  assert (length col = Nmask g) as Hcol.
  { apply HAx2. apply list_elem_of_In. by eapply list_elem_of_lookup_2. }
  assert (k < Nmask g) as Hklt.
  { apply lookup_lt_Some in Hk. lia. }
  change (map ?f ?l) with (f <$> l). rewrite list_lookup_fmap.
  rewrite lookup_seq_lt by done. cbn [fmap option_fmap option_map Nat.add].
  eexists. split; [reflexivity|].
  change (map ?f ?l) with (f <$> l). rewrite list_lookup_fmap, Hj.
  cbn. by rewrite Hk.
Qed.

Lemma xfit_at_z_design_matrix_witness :
  exists AxT data,
    xfit_at_z Sample.externals (Sample.group3 [1; 3; 2]%Q) 0%Q
      [("line Ha"%string, Sample.line_template)] "nnls" true 0 true
      = Some (DesignMatrix AxT data)
    /\ length AxT = 3 /\ length data = 3.
Proof.
  do 2 eexists.
  match goal with
  | |- ?A = Some ?r /\ _ =>
      assert (A = Some r) as Hx by (vm_compute; reflexivity)
  end.
  split; [exact Hx|].
  destruct (xfit_at_z_design_matrix _ _ _ _ _ _ _ _ Hx)
    as (A & ok & Ax & AxT & data & _ & Heq & H1 & _ & _ & H2 & _).
  injection Heq as <- <-. split; [exact H1|exact H2].
Defined.

Lemma compress_zeros (m : list bool) (n : nat) :
  Forall (fun x => (x == 0)%Q) (Np.compress m (Np.zeros n)).
Proof.
  apply Forall_compress. unfold Np.zeros.
  apply Forall_replicate. reflexivity.
Qed.

Lemma mapM_bool_index_lookup (m : list bool) (M R : list (list Q)) (i : nat)
    (row : list Q) :
  mapM (Np.bool_index m) M = Some R -> M !! i = Some row ->
  R !! i = Some (Np.compress m row) /\ length m = length row.
Proof.
  intros HM Hrow. apply mapM_Some in HM.
  destruct (Forall2_lookup_l _ _ _ _ _ HM Hrow) as (r & Hr & Hb).
  apply bool_index_Some in Hb as [Hl ->]. by split.
Qed.

(** X18.  The matrix of [_interpolate_photometry] has one row per exposure
    and per template and one column per photometric point of positive
    uncertainty; its rows for the exposures, the background rows, are
    zero. *)
Theorem _interpolate_photometry_background (E : Externals)
    (g : GroupFitter) (z : Q) (T : TemplateSet) (A_phot : list (list Q)) :
  _interpolate_photometry E g z T = Some A_phot ->
  length A_phot = Nbeams g + length T
  /\ Forall (fun row =>
               length row
               = Np.count_true (map (fun e => Np.Qlt_bool 0 e)
                                    (photom_eflam g))) A_phot
  /\ forall i row,
       i < Nbeams g -> A_phot !! i = Some row ->
       Forall (fun x => (x == 0)%Q) row.
Proof.
  unfold _interpolate_photometry. cbv zeta.
  set (mask := map (fun e => Np.Qlt_bool 0 e) (photom_eflam g)).
  set (nflam := length (photom_flam g)).
  assert (Hvia :
    forall rows,
      length rows = length T ->
      mapM (Np.bool_index mask) (Np.zeros2 (Nbeams g) nflam ++ rows)
        = Some A_phot ->
      length A_phot = Nbeams g + length T
      /\ Forall (fun row => length row = Np.count_true mask) A_phot
      /\ forall i row,
           i < Nbeams g -> A_phot !! i = Some row ->
           Forall (fun x => (x == 0)%Q) row).
  { intros rows Hrows HM. split; [|split].
    - apply length_mapM in HM. rewrite <- HM, length_app.
      unfold Np.zeros2. rewrite length_replicate. lia.
    - apply mapM_Some in HM. apply List.Forall_forall. intros row Hrow.
      apply list_elem_of_In, list_elem_of_lookup in Hrow as [i Hi].
      destruct (Forall2_lookup_r _ _ _ _ _ HM Hi) as (r0 & Hr0 & Hb).
      apply bool_index_Some in Hb as [Hl ->]. by apply length_compress.
    - intros i row Hi Hrow.
      destruct (mapM_bool_index_lookup mask _ _ i (Np.zeros nflam) HM)
        as [Hr _].
      { rewrite lookup_app_l
          by (unfold Np.zeros2; rewrite length_replicate; lia).
        unfold Np.zeros2. by apply lookup_replicate_2. }
      rewrite Hrow in Hr. injection Hr as ->. apply compress_zeros. }
  assert (Hfilters :
    (rows ← mapM (fun tt : string * SpectrumTemplate =>
                    tz ← zscale E (snd tt) z;
                    if (length (photom_filters g) <=? nflam)
                       && (length (photom_filters g)
                             <=? length (photom_pivot g))
                    then
                      Some (zip_with
                              (fun filt p =>
                                 (integrate_filter E tz filt * c_AA / p ^ 2)%Q)
                              (photom_filters g) (photom_pivot g)
                            ++ Np.zeros (nflam - length (photom_filters g)))
                    else None) T;
     mapM (Np.bool_index mask) (Np.zeros2 (Nbeams g) nflam ++ rows))
    = Some A_phot ->
    length A_phot = Nbeams g + length T
    /\ Forall (fun row => length row = Np.count_true mask) A_phot
    /\ forall i row,
         i < Nbeams g -> A_phot !! i = Some row ->
         Forall (fun x => (x == 0)%Q) row).
  { destruct (mapM _ T) as [rows|] eqn:Hrows; obind; [|discriminate].
    apply Hvia. by apply length_mapM in Hrows. }
  destruct (tempfilt g) as [grid|]; [|exact Hfilters].
  destruct (NTEMP_grid grid =? length T) eqn:Hn; [|exact Hfilters].
  destruct ((length (call_grid grid z) =? length T) && _) eqn:Hsh;
    [|discriminate].
  apply andb_true_iff in Hsh as [Hlen Hcols].
  apply Nat.eqb_eq in Hlen.
  destruct (Np.rows_op Qmult _ _) as [scaled|] eqn:Hsc; obind;
    [|discriminate].
  intros HM. split; [|split].
  - apply length_mapM in HM. apply rows_op_Some in Hsc as (Hl & _).
    rewrite <- HM, Hl, length_app. unfold Np.zeros2.
    rewrite length_replicate. lia.
  - apply mapM_Some in HM. apply List.Forall_forall. intros row Hrow.
    apply list_elem_of_In, list_elem_of_lookup in Hrow as [i Hi].
    destruct (Forall2_lookup_r _ _ _ _ _ HM Hi) as (r0 & Hr0 & Hb).
    apply bool_index_Some in Hb as [Hl ->]. by apply length_compress.
  - intros i row Hi Hrow.
    unfold Np.rows_op in Hsc. apply mapM_Some in Hsc.
    assert ((Np.zeros2 (Nbeams g) nflam ++ call_grid grid z) !! i
            = Some (Np.zeros nflam)) as Hz.
    { rewrite lookup_app_l
        by (unfold Np.zeros2; rewrite length_replicate; lia).
      unfold Np.zeros2. by apply lookup_replicate_2. }
    destruct (Forall2_lookup_l _ _ _ _ _ Hsc Hz) as (srow & Hsrow & Hel).
    destruct (mapM_bool_index_lookup mask _ _ i srow HM Hsrow) as [Hr _].
    rewrite Hrow in Hr. injection Hr as ->.
    apply Forall_compress. apply elementwise_Some in Hel as (_ & -> & _).
    clear. unfold Np.zeros.
    generalize (map (fun p : Q => (c_AA / p ^ 2 * (1 + z))%Q)
                    (photom_pivot g)) as f.
    induction nflam as [|n IH]; intros [|a f]; cbn; constructor;
      [ring|apply IH].
Qed.

Lemma _interpolate_photometry_background_witness :
  exists A_phot row,
    _interpolate_photometry Sample.externals Sample.photometry_only_group
      0%Q [("line Ha"%string, Sample.line_template)] = Some A_phot
    /\ length A_phot = 2
    /\ A_phot !! 0 = Some row
    /\ Forall (fun x => (x == 0)%Q) row.
Proof.
  do 2 eexists.
  match goal with
  | |- ?A = Some ?r /\ _ =>
      assert (A = Some r) as Hx by (vm_compute; reflexivity)
  end.
  split; [exact Hx|].
  destruct (_interpolate_photometry_background _ _ _ _ _ Hx)
    as (H1 & _ & H3).
  split; [exact H1|]. split; [reflexivity|].
  apply (H3 0); [vm_compute; lia|reflexivity].
Defined.

(** ** The bounded solver *)

Lemma compress_lookup_rank {A : Type} (m : list bool) (l : list A)
    (i : nat) (y : A) :
  m !! i = Some true -> l !! i = Some y ->
  Np.compress m l !! Np.count_true (take i m) = Some y.
Proof.
  revert l i. induction m as [|b m IH]; intros l i Hm Hl; [done|].
  destruct l as [|x l]; [done|]. destruct i as [|i].
  - cbn in Hm, Hl. injection Hm as ->. injection Hl as ->. reflexivity.
  - cbn in Hm, Hl. cbn [take Np.compress]. rewrite count_true_cons.
    destruct b; cbn [Nat.add]; by apply IH.
Qed.

Lemma sub_head_lookup_all (n : nat) (c : Q) (l : list Q) (r : nat) :
  Np.sub_head n c l !! r
  = (fun x => if r <? n then (x - c)%Q else x) <$> l !! r.
Proof.
  destruct (decide (r < length l)) as [Hr|Hr].
  - unfold Np.sub_head. destruct (Nat.ltb_spec r n) as [Hlt|Hge].
    + rewrite lookup_app_l by (rewrite length_map, length_take; lia).
      change (map ?f ?x) with (f <$> x). rewrite list_lookup_fmap.
      by rewrite lookup_take_lt by done.
    + rewrite lookup_app_r by (rewrite length_map, length_take; lia).
      rewrite length_map, length_take, Nat.min_l by lia.
      rewrite lookup_drop. replace (n + (r - n)) with r by lia.
      by destruct (l !! r).
  - rewrite !lookup_ge_None_2; [done|lia|rewrite length_sub_head; lia].
Qed.

Lemma pedestal_of_other (fitter : string) (fb : bool) :
  String.eqb fitter "nnls" = false -> String.eqb fitter "lstsq" = false ->
  pedestal_of fitter fb = 0%Q.
Proof. intros H1 H2. unfold pedestal_of. rewrite H1, H2. by destruct fb. Qed.

(** X19.  With a solver other than [nnls] and [lstsq], and [lsq_linear]
    keeping to its bounds, every background coefficient that
    [xfit_at_z] returns lies in [-0.05, 0.05] and the coefficient of
    every template whose name does not start with [line] is not
    negative, whatever rows are dropped. *)
Theorem xfit_at_z_bounded (E : Externals) (g : GroupFitter) (z : Q)
    (T : TemplateSet) (fitter : string) (fb : bool) (gu : nat)
    (chi2 : Q) (coeffs err : list Q) (covar : list (list Q))
    (ph : option (list Q)) :
  String.eqb fitter "nnls" = false -> String.eqb fitter "lstsq" = false ->
  respects_bounds E ->
  xfit_at_z E g z T fitter fb gu false
    = Some (Fit chi2 coeffs err covar ph) ->
  (forall i c, i < Nbeams g -> coeffs !! i = Some c ->
               (- (5 # 100) <= c /\ c <= 5 # 100)%Q)
  /\ (forall j name t c,
        T !! j = Some (name, t) -> String.prefix "line" name = false ->
        coeffs !! (Nbeams g + j) = Some c -> (0 <= c)%Q).
Proof.
  intros Hn Hl Hcontract Hx.
  destruct (design_system E g z T fitter fb)
    as [[[[A ok] Ax] data]|] eqn:Hsys.
  2:{ unfold xfit_at_z in Hx. rewrite Hsys in Hx. discriminate. }
  assert (exists solved, solve E g T fitter ok Ax data = Some solved)
    as [solved Hsolve].
  { revert Hx. unfold xfit_at_z. rewrite Hsys. obind.
    destruct (solve _ _ _ _ _ _ _) as [solved|]; [by eexists|discriminate]. }
  pose proof (xfit_at_z_coeffs E _ _ _ _ _ _ _ _ _ _ _ _ _ _ _ _
                Hsys Hsolve Hx) as (Hco & Hcnt & _).
  cbv zeta in Hco. rewrite (pedestal_of_other _ _ Hn Hl) in Hco.
  apply design_system_facts in Hsys as ([HA _] & Hok & _).
  assert (length ok = Nbeams g + length T) as Hokl
    by (rewrite Hok; unfold oktemp_of; by rewrite length_map).
  unfold solve in Hsolve. rewrite Hn, Hl in Hsolve.
  set (ci := if fb then Np.sub_head (Nbeams g) 0 solved else solved) in *.
  assert (Hkept : forall i c,
            ok !! i = Some true -> coeffs !! i = Some c ->
            exists x lo hi,
              lower_bound g T !! i = Some lo
              /\ upper_bound g T !! i = Some hi
              /\ within lo hi x
              /\ (c == if Nbeams g <=? i then x * COEFF_SCALE else x)%Q).
  { intros i c Hi Hc.
    pose proof (count_true_take_lt _ _ Hi) as Hr.
    destruct (lookup_lt_is_Some_2 solved (Np.count_true (take i ok)))
      as [x Hxr]; [lia|].
    assert (i < length (lower_bound g T)) as Hlo.
    { unfold lower_bound. rewrite length_app, length_replicate, length_map.
      apply lookup_lt_Some in Hi. lia. }
    assert (i < length (upper_bound g T)) as Hhi.
    { unfold upper_bound. rewrite length_app, length_replicate, length_map.
      apply lookup_lt_Some in Hi. lia. }
    apply lookup_lt_is_Some_2 in Hlo as [lo Hlo].
    apply lookup_lt_is_Some_2 in Hhi as [hi Hhi].
    exists x, lo, hi. split; [exact Hlo|]. split; [exact Hhi|]. split.
    - eapply (Hcontract _ _ _ _ _ Hsolve); [| |exact Hxr];
        by apply compress_lookup_rank.
    - assert (exists y, ci !! Np.count_true (take i ok) = Some y
                        /\ (y == x)%Q) as (y & Hy & Hyx).
      { subst ci. destruct fb.
        - rewrite sub_head_lookup_all, Hxr.
          cbn [fmap option_fmap option_map].
          eexists. split; [reflexivity|].
          destruct (Np.count_true (take i ok) <? Nbeams g);
            [ring|reflexivity].
        - by exists x. }
      rewrite Hco, mul_from_lookup in Hc.
      rewrite (scatter_lookup_true _ _ _ _ Hi Hy) in Hc. cbn in Hc.
      injection Hc as <-. destruct (_ <=? _); by rewrite Hyx. }
  assert (Hdropped : forall i c,
            ok !! i = Some false -> coeffs !! i = Some c -> (c == 0)%Q).
  { intros i c Hi Hc. rewrite Hco, mul_from_lookup in Hc.
    rewrite (scatter_lookup_false _ _ _ Hi) in Hc. cbn in Hc.
    injection Hc as <-. destruct (_ <=? _); [ring|reflexivity]. }
  split.
  - intros i c Hi Hc.
    destruct (lookup_lt_is_Some_2 ok i) as [[|] Hoki]; [lia| |].
    + destruct (Hkept i c Hoki Hc) as (x & lo & hi & Hlo & Hhi & Hw & Hcx).
      unfold lower_bound in Hlo. unfold upper_bound in Hhi.
      rewrite lookup_app_l in Hlo, Hhi by (rewrite length_replicate; lia).
      apply lookup_replicate in Hlo as [-> _].
      apply lookup_replicate in Hhi as [-> _].
      destruct Hw as [Hw1 Hw2].
      replace (Nbeams g <=? i) with false in Hcx
        by (symmetry; apply Nat.leb_gt; lia).
      lra.
    + rewrite (Hdropped i c Hoki Hc). lra.
  - intros j name t c Hj Hline Hc.
    pose proof (lookup_lt_Some _ _ _ Hj) as Hjl.
    destruct (lookup_lt_is_Some_2 ok (Nbeams g + j)) as [[|] Hoki]; [lia| |].
    + destruct (Hkept _ c Hoki Hc) as (x & lo & hi & Hlo & Hhi & Hw & Hcx).
      unfold lower_bound in Hlo.
      rewrite lookup_app_r in Hlo by (rewrite length_replicate; lia).
      rewrite length_replicate in Hlo.
      replace (Nbeams g + j - Nbeams g) with j in Hlo by lia.
      change (map ?f ?l) with (f <$> l) in Hlo.
      apply list_lookup_fmap_Some in Hlo as (tt & -> & Htt).
      pose proof (eq_trans (eq_sym Htt) Hj) as Heq. injection Heq as ->.
      cbn [fst] in Hw. rewrite Hline in Hw. destruct Hw as [Hw1 _].
      replace (Nbeams g <=? Nbeams g + j) with true in Hcx
        by (symmetry; apply Nat.leb_le; lia).
      rewrite Hcx. apply Qmult_le_0_compat; [exact Hw1|]. discriminate.
    + rewrite (Hdropped _ c Hoki Hc). lra.
Qed.

Lemma clip_within (lo hi : Bound) (v : Q) :
  feasible lo hi = true -> within lo hi (Sample.clip lo hi v).
Proof.
  unfold feasible, within, Sample.clip.
  destruct lo as [|l|], hi as [|h|]; try discriminate; intros Hf;
    try apply Qle_bool_iff in Hf;
    repeat match goal with
           | |- context [Np.Qlt_bool ?a ?b] =>
               let H := fresh "Hb" in
               destruct (Np.Qlt_bool a b) eqn:H;
               [apply Qlt_bool_iff in H|apply Qlt_bool_false in H]
           end;
    split; try exact I; lra.
Qed.

Lemma bounded_externals_respects_bounds : respects_bounds bounded_externals.
Proof.
  intros Ax data lo hi x. cbn [lsq_linear bounded_externals].
  unfold checked_bvls1.
  destruct (forallb _ (zip lo hi)) eqn:Hf; [|discriminate].
  unfold Sample.bvls1.
  destruct Ax as [|a [|a' Ax]].
  - intros [= <-] k l h xk _ _ Hk. done.
  - destruct lo as [|l0 [|? ?]]; try discriminate.
    destruct hi as [|h0 [|? ?]]; try discriminate.
    cbn in Hf. rewrite andb_true_r in Hf.
    destruct (Sample.lstsq2 [a] data) as [v|]; obind; [|discriminate].
    intros [= <-] k l h xk Hl Hh Hk.
    destruct k as [|k]; [|done].
    cbn in Hl, Hh. injection Hl as <-. injection Hh as <-.
    change (map ?f ?y) with (f <$> y) in Hk.
    apply list_lookup_fmap_Some in Hk as (v0 & -> & _).
    by apply clip_within.
  - destruct lo, hi; discriminate.
Qed.

Lemma xfit_at_z_bounded_witness :
  exists chi2 coeffs err covar ph c,
    xfit_at_z bounded_externals (Sample.group3 [1; 3; 2]%Q) 0%Q
      [("cont"%string, Sample.line_template)] "bounded" false 0 false
      = Some (Fit chi2 coeffs err covar ph)
    /\ coeffs !! 1 = Some c /\ (0 <= c)%Q.
Proof.
  do 6 eexists.
  match goal with
  | |- ?A = Some (Fit ?c ?co ?er ?cv ?ph) /\ _ =>
      assert (A = Some (Fit c co er cv ph)) as Hx by (vm_compute; reflexivity)
  end.
  split; [exact Hx|].
  split; [reflexivity|].
  destruct (xfit_at_z_bounded bounded_externals
              (Sample.group3 [1; 3; 2]%Q) 0%Q
              [("cont"%string, Sample.line_template)] "bounded" false 0
              _ _ _ _ _
              eq_refl eq_refl bounded_externals_respects_bounds Hx)
    as [_ H].
  exact (H 0 "cont"%string Sample.line_template _ eq_refl eq_refl eq_refl).
Defined.

(** ** More on the posterior *)



Lemma _loss_nonneg (dz gamma : Q) : (0 <= _loss dz gamma)%Q.
Proof.
  unfold _loss. pose proof (Qsquare_nonneg (dz / gamma)) as Ht.
  assert (1 / (1 + (dz / gamma) ^ 2) <= 1)%Q; [|lra].
  apply Qle_shift_div_r; lra.
Qed.

Section PosteriorMore.

Variable E : Externals.
Variable g : GroupFitter.

(** The columns and widths that [_parse_zfit_output] stores *)
Lemma _parse_zfit_output_columns (fit : GridTable)
    (prior : option (list Q * list Q)) (r : FitTable) :
  _parse_zfit_output E g fit prior = Some r ->
  exists dz,
    Np.gradient (fit_zgrid fit) = Some dz
    /\ fit_risk r
       = map (fun za =>
                Np.sum (zip_with
                          (fun pd zd =>
                             (fst pd
                              * _loss ((za - snd pd) / (1 + snd pd))
                                      (15 # 100)
                              * zd)%Q)
                          (zip (fit_pdf r) (fit_zgrid fit)) dz))
             (fit_zgrid fit)
    /\ meta_ZWIDTH1 r = (meta_Z84 r - meta_Z16 r)%Q
    /\ meta_ZWIDTH2 r = (meta_Z97 r - meta_Z02 r)%Q
    /\ (exists zm, Np.argmax (fit_pdf r) = Some zm
                   /\ meta_z_map r = refine E (fit_zgrid fit) (fit_pdf r) zm)
    /\ (exists zi, Np.argmin (fit_risk r) = Some zi
                   /\ meta_z_risk r
                      = refine E (fit_zgrid fit) (fit_risk r) zi).
Proof.
  unfold _parse_zfit_output. cbv zeta.
  destruct (posterior_pdf _ _ _ _ _) as [[pdf ip]|]; obind; [|discriminate].
  destruct (pz_percentiles _ _ _) as [pz|] eqn:Hpz; obind; [|discriminate].
  destruct (pz_percentiles_five E _ _ _ Hpz) as (a & b & c & d & e & ->).
  destruct (Np.gradient _) as [dz|]; obind; [|discriminate].
  destruct (Np.argmin _) as [zi|] eqn:Hzi; obind; [|discriminate].
  destruct (Np.argmax _) as [zm|] eqn:Hzm; obind; [|discriminate].
  intros [= <-]. cbn. exists dz. split; [reflexivity|].
  split; [reflexivity|]. split; [reflexivity|]. split; [reflexivity|].
  split; [by exists zm|by exists zi].
Qed.

(** X21.  The widths of the posterior are the differences of the
    percentiles, and are ordered: [0 <= ZWIDTH1 <= ZWIDTH2], when
    [np.exp] takes no negative value and does not decrease. *)
Theorem _parse_zfit_output_widths (fit : GridTable)
    (prior : option (list Q * list Q)) (r : FitTable) :
  (forall x, (0 <= np_exp E x)%Q) ->
  (forall x y, (x <= y)%Q -> (np_exp E x <= np_exp E y)%Q) ->
  _parse_zfit_output E g fit prior = Some r ->
  meta_ZWIDTH1 r = (meta_Z84 r - meta_Z16 r)%Q
  /\ meta_ZWIDTH2 r = (meta_Z97 r - meta_Z02 r)%Q
  /\ (0 <= meta_ZWIDTH1 r)%Q
  /\ (meta_ZWIDTH1 r <= meta_ZWIDTH2 r)%Q.
Proof.
  intros Hnn Hmono Hr.
  destruct (_parse_zfit_output_columns fit prior r Hr)
    as (dz & _ & _ & H1 & H2 & _).
  destruct (_parse_zfit_output_inv E g fit prior r Hr) as (_ & _ & _ & Hpz).
  pose proof (pz_percentiles_sorted E Hnn Hmono _ _ _ _ _ _ _ Hpz)
    as (Ha & Hb & Hc & Hd).
  rewrite H1, H2. repeat apply conj; try reflexivity; lra.
Qed.

Lemma length_gradient_inner (prev : Q) (l : list Q) :
  length (Np.gradient_inner prev l) = length l.
Proof.
  revert prev. induction l as [|x l IH]; intros prev; [reflexivity|].
  destruct l as [|y l]; [reflexivity|].
  change (Np.gradient_inner prev (x :: y :: l))
    with (((y - prev) / 2)%Q :: Np.gradient_inner x (y :: l)).
  cbn [length]. f_equal. apply IH.
Qed.

Lemma length_gradient (l dz : list Q) :
  Np.gradient l = Some dz -> length dz = length l /\ 2 <= length l.
Proof.
  unfold Np.gradient. destruct l as [|f0 [|f1 l]]; try discriminate.
  intros [= <-]. split; [|cbn; lia].
  change (length ((f1 - f0)%Q :: Np.gradient_inner f0 (f1 :: l))
          = S (length (f1 :: l))).
  cbn [length]. f_equal. apply length_gradient_inner.
Qed.

(** X22.  [_parse_zfit_output] returns a table only for a grid of at least
    two redshifts, and the [pdf], [risk] and [prior] columns it adds
    have the length of the grid. *)
Theorem _parse_zfit_output_aligned (fit : GridTable)
    (prior : option (list Q * list Q)) (r : FitTable) :
  _parse_zfit_output E g fit prior = Some r ->
  2 <= length (fit_zgrid fit)
  /\ length (fit_pdf r) = length (fit_zgrid fit)
  /\ length (fit_risk r) = length (fit_zgrid fit)
  /\ (forall ip, fit_prior r = Some ip ->
                 length ip = length (fit_zgrid fit)).
Proof.
  intros Hr.
  destruct (_parse_zfit_output_columns fit prior r Hr)
    as (dz & Hdz & Hrisk & _).
  destruct (_parse_zfit_output_inv E g fit prior r Hr) as (_ & _ & Hpdf & _).
  apply length_gradient in Hdz as [_ Hlen].
  split; [exact Hlen|]. split; [by eapply posterior_pdf_length|].
  split; [by rewrite Hrisk, length_map|].
  intros ip Hip. revert Hpdf. rewrite Hip. unfold posterior_pdf.
  destruct (Np.amin _); obind; [|discriminate].
  match goal with
  | |- context [mbind _ ?x] => destruct x as [pdf0|]
  end; obind; [|discriminate].
  destruct prior as [[pz pp]|]; obind.
  - destruct (mapM _ (fit_zgrid fit)) as [ipl|] eqn:Hm; obind;
      [|discriminate].
    destruct (Np.elementwise _ _ _); obind; [|discriminate].
    destruct (negb _); [discriminate|].
    destruct (Qeq_bool _ 0); [discriminate|].
    intros [= _ <-]. symmetry. by apply length_mapM in Hm.
  - destruct (negb _); [discriminate|].
    destruct (Qeq_bool _ 0); discriminate.
Qed.

End PosteriorMore.

Lemma _parse_zfit_output_widths_witness :
  exists r,
    _parse_zfit_output Sample.externals Sample.line_group
      (Sample.chi2_table [2; 1; 2]%Q) None = Some r
    /\ (0 <= meta_ZWIDTH1 r)%Q /\ (meta_ZWIDTH1 r <= meta_ZWIDTH2 r)%Q.
Proof.
  edestruct (_parse_zfit_output_returns Sample.externals Sample.line_group
               (Sample.chi2_table [2; 1; 2]%Q) None) as (r & Hr & _).
  - vm_compute. reflexivity.
  - apply is_Some_check. vm_compute. reflexivity.
  - cbn. lia.
  - discriminate.
  - exists r. split; [exact Hr|].
    destruct (_parse_zfit_output_widths Sample.externals Sample.line_group
                _ _ r exp1_nonneg exp1_mono Hr) as (_ & _ & H3 & H4).
    split; [exact H3|exact H4].
Defined.

Lemma _parse_zfit_output_aligned_witness :
  exists r,
    _parse_zfit_output Sample.externals Sample.line_group
      (Sample.chi2_table [2; 1; 2]%Q) (Some Sample.rising_prior) = Some r
    /\ length (fit_pdf r) = 3 /\ length (fit_risk r) = 3.
Proof.
  edestruct (_parse_zfit_output_returns Sample.externals Sample.line_group
               (Sample.chi2_table [2; 1; 2]%Q) (Some Sample.rising_prior))
    as (r & Hr & _).
  - vm_compute. reflexivity.
  - apply is_Some_check. vm_compute. reflexivity.
  - cbn. lia.
  - discriminate.
  - exists r. split; [exact Hr|].
    destruct (_parse_zfit_output_aligned Sample.externals Sample.line_group
                _ _ r Hr) as (_ & H2 & H3 & _).
    split; [exact H2|exact H3].
Defined.

Lemma posterior_pdf_nonneg (E : Externals) (g : GroupFitter)
    (zgrid chi2 : list Q) (prior : option (list Q * list Q))
    (pdf : list Q) (ip : option (list Q)) :
  (forall x, (0 <= np_exp E x)%Q) ->
  StronglySorted Qle zgrid ->
  (forall ipl, ip = Some ipl -> Forall (Qle 0) ipl) ->
  posterior_pdf E g zgrid chi2 prior = Some (pdf, ip) ->
  Forall (Qle 0) pdf.
Proof.
  intros Hnn Hs Hip. unfold posterior_pdf.
  destruct (Np.amin chi2) as [cmin|]; obind; [|discriminate].
  match goal with
  | |- context [mbind _ ?x] => destruct x as [pdf0|] eqn:Hpdf0
  end; obind; [|discriminate].
  assert (Forall (Qle 0) pdf0) as H0.
  { destruct (DoF g =? 0)%Z.
    - destruct (Qeq_bool cmin 0); [discriminate|]. injection Hpdf0 as <-.
      apply List.Forall_forall. intros y Hy.
      apply in_map_iff in Hy as (c & <- & _). apply Hnn.
    - destruct (Qeq_bool _ 0); [discriminate|]. injection Hpdf0 as <-.
      unfold chi2_pdf. apply List.Forall_forall. intros y Hy.
      apply in_map_iff in Hy as (c & <- & _). apply Hnn. }
  intros H.
  assert (exists pdf1,
            Forall (Qle 0) pdf1
            /\ (if negb (length pdf1 =? length zgrid) then None
                else if Qeq_bool (Np.trapz pdf1 zgrid) 0 then None
                     else Some (map (fun p => (p / Np.trapz pdf1 zgrid)%Q)
                                    pdf1, ip))
               = Some (pdf, ip)) as (pdf1 & H1 & Hres).
  { revert H. destruct prior as [[pz pp]|]; obind.
    - destruct (mapM _ zgrid) as [ipl|]; obind; [|discriminate].
      destruct (Np.elementwise Qmult pdf0 ipl) as [p1|] eqn:Hel; obind;
        [|discriminate].
      intros H. exists p1.
      assert (ip = Some ipl) as Hipl.
      { revert H. destruct (negb _); [discriminate|].
        destruct (Qeq_bool (Np.trapz _ _) 0); [discriminate|]. by intros [= _ <-]. }
      split; [|rewrite Hipl; rewrite Hipl in H; exact H].
      apply elementwise_Some in Hel as (_ & -> & _).
      specialize (Hip ipl Hipl). clear - H0 Hip. revert ipl Hip.
      induction H0 as [|p pdf0 Hp H0 IH]; intros [|q ipl] Hq;
        cbn [zip_with]; constructor.
      + inversion Hq; subst. by apply Qmult_le_0_compat.
      + apply IH. by inversion Hq.
    - intros H. exists pdf0. split; [exact H0|].
      assert (ip = None) as ->; [|exact H].
      revert H. destruct (negb _); [discriminate|].
      destruct (Qeq_bool (Np.trapz _ _) 0); [discriminate|]. by intros [= _ <-]. }
  revert Hres.
  destruct (negb _); [discriminate|].
  destruct (Qeq_bool (Np.trapz _ _) 0) eqn:Hn; [discriminate|]. intros [= <-].
  pose proof (trapz_nonneg _ _ H1 Hs) as Hge.
  assert (0 < Np.trapz pdf1 zgrid)%Q as Hpos.
  { apply Qle_lt_or_eq in Hge as [?|Heq]; [done|].
    symmetry in Heq. apply Qeq_bool_iff in Heq. congruence. }
  apply List.Forall_forall. intros y Hy.
  apply in_map_iff in Hy as (p & <- & Hp).
  rewrite List.Forall_forall in H1. specialize (H1 p Hp).
  apply Qle_shift_div_l; lra.
Qed.

Lemma risk_terms_nonneg (za : Q) (pdf zgrid dz : list Q) :
  Forall (Qle 0) pdf -> Forall (Qle 0) dz ->
  Forall (Qle 0)
    (zip_with (fun pd zd =>
                 (fst pd * _loss ((za - snd pd) / (1 + snd pd)) (15 # 100)
                  * zd)%Q)
              (zip pdf zgrid) dz).
Proof.
  intros Hp. revert zgrid dz.
  induction Hp as [|p pdf Hp0 Hp IH]; intros zgrid dz Hdz; [constructor|].
  destruct zgrid as [|zv zgrid]; [constructor|].
  destruct Hdz as [|d dz Hd Hdz]; [constructor|].
  cbn [zip zip_with fst snd]. constructor; [|by apply IH].
  apply Qmult_le_0_compat; [|exact Hd].
  apply Qmult_le_0_compat; [exact Hp0|apply _loss_nonneg].
Qed.

(** X23.  The [pdf] and [risk] columns that [xfit_redshift] returns are not
    negative, when [np.exp] takes no negative value and the interpolated
    prior, if there is one, has none. *)
Theorem xfit_redshift_pdf_risk_nonneg (E : Externals) (g : GroupFitter)
    (prior : option (list Q * list Q)) (zr : ZrArg) (dz : Q * Q)
    (fb : bool) (fitter : string) (po : nat) (zoom : bool)
    (T : TemplateSet) (gu : nat) (r : FitTable) :
  (forall x, (0 <= np_exp E x)%Q) ->
  (forall ipl, fit_prior r = Some ipl -> Forall (Qle 0) ipl) ->
  xfit_redshift E g prior zr dz fb fitter po zoom T gu = Some r ->
  Forall (Qle 0) (fit_pdf r) /\ Forall (Qle 0) (fit_risk r).
Proof.
  intros Hnn Hip H. apply xfit_redshift_grid in H.
  cbn zeta in H. destruct H as (cp & zr2 & _ & Hm & _ & Hparse).
  apply merged_grid_spec in Hm
    as (coarse & zoomp & rows & _ & _ & _ & Hs & _).
  apply Sorted_StronglySorted in Hs; [|intros x y w; apply Qle_trans].
  destruct (_parse_zfit_output_inv E g _ prior r Hparse)
    as (_ & _ & Hpdf & _).
  pose proof (posterior_pdf_nonneg E g _ _ _ _ _ Hnn Hs Hip Hpdf) as Hp.
  split; [exact Hp|].
  destruct (_parse_zfit_output_columns E g _ prior r Hparse)
    as (dzs & Hdz & -> & _).
  apply gradient_nonneg in Hdz; [|exact Hs].
  apply List.Forall_forall. intros y Hy.
  apply in_map_iff in Hy as (za & <- & _).
  apply sum_nonneg. by apply risk_terms_nonneg.
Qed.

Lemma xfit_redshift_pdf_risk_nonneg_witness :
  exists r,
    xfit_redshift Sample.line_externals Sample.line_group None
      (ZrInt 0) (4 # 10000, 2 # 10000)%Q false "lstsq" 0 true
      Sample.line_templates 0 = Some r
    /\ Forall (Qle 0) (fit_pdf r) /\ Forall (Qle 0) (fit_risk r).
Proof.
  destruct stellar_run as (r & Hr). exists r. split; [exact Hr|].
  refine (xfit_redshift_pdf_risk_nonneg Sample.line_externals
            _ _ _ _ _ _ _ _ _ _ r exp1_nonneg _ Hr).
  intros ipl Hip. exfalso.
  apply xfit_redshift_grid in Hr. cbn zeta in Hr.
  destruct Hr as (cp & zr2 & _ & _ & _ & Hp).
  apply _parse_zfit_output_inv in Hp as (_ & _ & Hpdf & _).
  rewrite Hip in Hpdf. revert Hpdf. unfold posterior_pdf.
  destruct (Np.amin _); obind; [|discriminate].
  match goal with
  | |- context [mbind _ ?x] => destruct x
  end; obind; [|discriminate].
  destruct (negb _); [discriminate|].
  destruct (Qeq_bool (Np.trapz _ _) 0); discriminate.
Defined.

Lemma amin_spec (l : list Q) (m : Q) :
  Np.amin l = Some m -> m ∈ l /\ Forall (fun x => (m <= x)%Q) l.
Proof.
  destruct l as [|x l]; [discriminate|]. cbn [Np.amin]. intros [= <-].
  revert x. induction l as [|y l IH]; intros x; cbn [foldl].
  - split; [by left|]. constructor; [lra|constructor].
  - destruct (Np.Qlt_bool y x) eqn:Hb.
    + apply Qlt_bool_iff in Hb. destruct (IH y) as [Hin Hall].
      split.
      * right. exact Hin.
      * inversion Hall; subst. constructor; [lra|exact Hall].
    + apply Qlt_bool_false in Hb. destruct (IH x) as [Hin Hall].
      split.
      * apply elem_of_cons in Hin as [->|Hin]; [by left|by do 2 right].
      * inversion Hall as [|? ? Hx Hl]; subst.
        constructor; [exact Hx|]. constructor; [lra|exact Hl].
Qed.

Lemma amax_spec (l : list Q) (m : Q) :
  Np.amax l = Some m -> m ∈ l /\ Forall (fun x => (x <= m)%Q) l.
Proof.
  destruct l as [|x l]; [discriminate|]. cbn [Np.amax]. intros [= <-].
  revert x. induction l as [|y l IH]; intros x; cbn [foldl].
  - split; [by left|]. constructor; [lra|constructor].
  - destruct (Np.Qlt_bool x y) eqn:Hb.
    + apply Qlt_bool_iff in Hb. destruct (IH y) as [Hin Hall].
      split.
      * right. exact Hin.
      * inversion Hall; subst. constructor; [lra|exact Hall].
    + apply Qlt_bool_false in Hb. destruct (IH x) as [Hin Hall].
      split.
      * apply elem_of_cons in Hin as [->|Hin]; [by left|by do 2 right].
      * inversion Hall as [|? ? Hx Hl]; subst.
        constructor; [exact Hx|]. constructor; [lra|exact Hl].
Qed.

(** The header of the table of [xfit_redshift] *)
Lemma xfit_redshift_header (E : Externals) (g : GroupFitter)
    (prior : option (list Q * list Q)) (zr : ZrArg) (dz : Q * Q)
    (fb : bool) (fitter : string) (po : nat) (zoom : bool)
    (T : TemplateSet) (gu : nat) (r : FitTable) :
  xfit_redshift E g prior zr dz fb fitter po zoom T gu = Some r ->
  Np.amin (fit_chi2 (grid r)) = Some (meta_chimin (grid r))
  /\ Np.amax (fit_chi2 (grid r)) = Some (meta_chimax (grid r))
  /\ meta_DoF (grid r) = DoF g
  /\ meta_N (grid r) = Nbeams g
  /\ meta_polyord (grid r) = po.
Proof.
  unfold xfit_redshift.
  destruct zr as [[|p|p]|l]; cbn zeta; cbn [mbind option_bind];
    try discriminate.
  all: destruct (log_zgrid E _ _); [|discriminate]; obind.
  all: destruct (xfit_at_z _ _ _ _ _ _ _ _) as [[|cp cop erp cvp php]|];
    try discriminate; obind.
  all: destruct (merged_grid _ _ _ _ _ _ _ _ _ _ _)
    as [[[[zs chi2] coeffs] covar]|] eqn:Hm; [|discriminate]; obind.
  all: destruct (Np.amin chi2) eqn:Hmin; [|discriminate]; obind.
  all: destruct (Np.amax chi2) eqn:Hmax; [|discriminate]; obind.
  all: destruct (Np.argmin chi2); [|discriminate]; obind.
  all: destruct (coeffs !! _); [|discriminate]; obind.
  all: intros Hp; apply _parse_zfit_output_inv in Hp as (-> & _).
  all: cbn; by repeat apply conj.
Qed.

(** X24.  The [chimin] and [chimax] entries of the header of
    [xfit_redshift] are values of the [chi2] column, and every value of
    the column lies between them. *)
Theorem xfit_redshift_chi2_range (E : Externals) (g : GroupFitter)
    (prior : option (list Q * list Q)) (zr : ZrArg) (dz : Q * Q)
    (fb : bool) (fitter : string) (po : nat) (zoom : bool)
    (T : TemplateSet) (gu : nat) (r : FitTable) :
  xfit_redshift E g prior zr dz fb fitter po zoom T gu = Some r ->
  meta_chimin (grid r) ∈ fit_chi2 (grid r)
  /\ meta_chimax (grid r) ∈ fit_chi2 (grid r)
  /\ Forall (fun c => meta_chimin (grid r) <= c
                      /\ c <= meta_chimax (grid r))%Q
            (fit_chi2 (grid r)).
Proof.
  intros H. apply xfit_redshift_header in H as (Hmin & Hmax & _).
  apply amin_spec in Hmin as [H1 H2]. apply amax_spec in Hmax as [H3 H4].
  split; [exact H1|]. split; [exact H3|].
  rewrite List.Forall_forall in *. intros c Hc. split; auto.
Qed.

Lemma xfit_redshift_chi2_range_witness :
  exists r,
    xfit_redshift Sample.line_externals Sample.line_group None
      (ZrInt 0) (4 # 10000, 2 # 10000)%Q false "lstsq" 0 true
      Sample.line_templates 0 = Some r
    /\ meta_chimin (grid r) ∈ fit_chi2 (grid r)
    /\ Forall (fun c => meta_chimin (grid r) <= c
                        /\ c <= meta_chimax (grid r))%Q
              (fit_chi2 (grid r)).
Proof.
  destruct stellar_run as (r & Hr). exists r. split; [exact Hr|].
  destruct (xfit_redshift_chi2_range _ _ _ _ _ _ _ _ _ _ _ r Hr)
    as (H1 & _ & H3).
  split; [exact H1|exact H3].
Defined.

(** ** The scale array *)




(** ** The zoom *)

(** X26.  Every point of the zoom lies within [2*dz[0]] of the vertex of
    the parabola through a peak inside the grid and its two neighbours,
    up to [dz[1]/10] above; a peak on the edge of the grid gives none. *)
Theorem zoom_points_near_vertex (E : Externals) (zgrid chi2 : list Q)
    (dz : Q * Q) (indexes : list nat) (pts : list Q) :
  (0 < snd dz)%Q ->
  zoom_points E zgrid chi2 dz indexes = Some pts ->
  Forall (fun z =>
            exists ix zi,
              ix ∈ indexes /\ 0 < ix < length chi2 - 1
              /\ vertex (polyfit E (around ix zgrid) (around ix chi2) 2)
                 = Some zi
              /\ (zi - 2 * fst dz <= z
                  /\ z < zi + 2 * fst dz + snd dz / 10)%Q)
         pts.
Proof.
  intros Hdz. unfold zoom_points.
  assert (Hgen : forall (idx : list nat) (acc pts' : list Q),
    (forall ix, ix ∈ idx -> ix ∈ indexes) ->
    Forall (fun z =>
              exists ix zi,
                ix ∈ indexes /\ 0 < ix < length chi2 - 1
                /\ vertex (polyfit E (around ix zgrid) (around ix chi2) 2)
                   = Some zi
                /\ (zi - 2 * fst dz <= z
                    /\ z < zi + 2 * fst dz + snd dz / 10)%Q) acc ->
    foldM (fun acc ix =>
             if (0 <? ix) && (ix <? length chi2 - 1) then
               zi ← vertex (polyfit E (around ix zgrid) (around ix chi2) 2);
               pts ← Np.arange (zi - 2 * fst dz)%Q
                               (zi + 2 * fst dz + snd dz / 10)%Q (snd dz);
               Some (acc ++ pts)
             else Some acc) idx acc = Some pts' ->
    Forall (fun z =>
              exists ix zi,
                ix ∈ indexes /\ 0 < ix < length chi2 - 1
                /\ vertex (polyfit E (around ix zgrid) (around ix chi2) 2)
                   = Some zi
                /\ (zi - 2 * fst dz <= z
                    /\ z < zi + 2 * fst dz + snd dz / 10)%Q) pts').
  { intros idx. induction idx as [|ix idx IH]; intros acc pts' Hin Hacc.
    - cbn [foldM]. by intros [= <-].
    - cbn [foldM]. obind.
      destruct ((0 <? ix) && (ix <? length chi2 - 1)) eqn:Hc; obind.
      + destruct (vertex _) as [zi|] eqn:Hv; obind; [|discriminate].
        destruct (Np.arange _ _ _) as [new|] eqn:Hnew; obind;
          [|discriminate].
        apply IH; [intros j Hj; apply Hin; by right|].
        apply Forall_app. split; [exact Hacc|].
        destruct (arange_bounds _ _ _ _ Hdz Hnew) as (Hall & _).
        eapply Forall_impl; [exact Hall|]. cbn. intros z Hz.
        exists ix, zi. apply andb_true_iff in Hc as [H1 H2].
        apply Nat.ltb_lt in H1, H2.
        split; [apply Hin; by left|]. split; [lia|]. by split.
      + apply IH; [intros j Hj; apply Hin; by right|exact Hacc]. }
  apply (Hgen indexes [] pts); [done|constructor].
Qed.

Lemma zoom_points_near_vertex_witness :
  exists pts,
    zoom_points Sample.line_externals [0; 1 # 250; 1 # 125]%Q [2; 1; 2]%Q
      (4 # 10000, 2 # 10000)%Q [1] = Some pts
    /\ length pts = 9
    /\ Forall (fun z =>
                 exists zi,
                   (zi == 1 # 250)%Q
                   /\ (zi - 2 * (4 # 10000) <= z
                       /\ z < zi + 2 * (4 # 10000) + (2 # 10000) / 10)%Q)
              pts.
Proof.
  eexists.
  match goal with
  | |- ?A = Some ?r /\ _ =>
      assert (A = Some r) as Hx by (vm_compute; reflexivity)
  end.
  split; [exact Hx|]. split; [reflexivity|].
  pose proof (zoom_points_near_vertex Sample.line_externals
                [0; 1 # 250; 1 # 125]%Q [2; 1; 2]%Q
                (4 # 10000, 2 # 10000)%Q [1] _ eq_refl Hx) as H.
  eapply Forall_impl; [exact H|]. cbn beta.
  intros z (ix & zi & Hix & _ & Hv & Hz).
  apply list_elem_of_singleton in Hix. subst ix.
  vm_compute in Hv. injection Hv as <-.
  eexists. split; [|exact Hz]. reflexivity.
Defined.

(** ** The photometric rescaling *)

Lemma rows_op_lookup (f : Q -> Q -> Q) (M M' : list (list Q)) (v : list Q)
    (i : nat) (row : list Q) :
  Np.rows_op f M v = Some M' -> M !! i = Some row ->
  M' !! i = Some (zip_with f row v) /\ length row = length v.
Proof.
  unfold Np.rows_op. intros HM Hrow. apply mapM_Some in HM.
  destruct (Forall2_lookup_l _ _ _ _ _ HM Hrow) as (r & Hr & Hel).
  apply elementwise_Some in Hel as (Hl & -> & _). by split.
Qed.

(** [scale] of [xfit_at_z]: the scale array over the unmasked
    wavelengths, set to one at the photometric points *)
Lemma apply_pscale_scale (g : GroupFitter) (fb : bool)
    (Ax0 Ax : list (list Q)) (ps : list Q) :
  pscale g = Some ps -> apply_pscale g fb Ax0 = Some Ax ->
  exists scale0 scale,
    scale0 = compute_scale_array ps (Np.compress (fit_mask g) (wavef g))
    /\ scale = (if 0 <? Nphot g then fill_tail (Nphot g) 1%Q scale0
                else scale0)
    /\ exists Ax',
         Np.rows_op Qmult Ax0 scale = Some Ax'
         /\ if fb then
              exists head,
                Nbeams g <= length Ax'
                /\ Np.rows_op Qdiv (take (Nbeams g) Ax') scale = Some head
                /\ Ax = head ++ drop (Nbeams g) Ax'
            else Ax = Ax'.
Proof.
  intros Hps. unfold apply_pscale. rewrite Hps.
  destruct (Np.bool_index _ _) as [wm|] eqn:Hwm; obind; [|discriminate].
  apply bool_index_Some in Hwm as [_ ->].
  destruct (Np.rows_op Qmult Ax0 _) as [Ax'|] eqn:Hmul; obind;
    [|discriminate].
  intros H. do 2 eexists. split; [reflexivity|]. split; [reflexivity|].
  exists Ax'. split; [exact Hmul|].
  destruct fb; [|by injection H as <-].
  destruct (Nbeams g <=? length Ax') eqn:Hn; [|discriminate].
  apply Nat.leb_le in Hn.
  destruct (Np.rows_op Qdiv _ _) as [head|] eqn:Hdiv; obind; [|discriminate].
  injection H as <-. by exists head.
Qed.

(** X27.  The photometric rescaling of the design matrix leaves the
    photometric columns as they are, and, when the background is fitted,
    the first [self.N] rows too where the scale is not zero; every other
    entry is multiplied by the scale of its column. *)
Theorem apply_pscale_frame (g : GroupFitter) (fb : bool)
    (Ax0 Ax : list (list Q)) (ps : list Q) (j k : nat) (row0 : list Q)
    (x0 : Q) :
  pscale g = Some ps -> apply_pscale g fb Ax0 = Some Ax ->
  Ax0 !! j = Some row0 -> row0 !! k = Some x0 ->
  exists row x s,
    Ax !! j = Some row /\ row !! k = Some x
    /\ compute_scale_array ps (Np.compress (fit_mask g) (wavef g)) !! k
       = Some s
    /\ (0 < Nphot g -> length row0 - Nphot g <= k -> (x == x0)%Q)
    /\ (fb = true -> j < Nbeams g -> ~ (s == 0)%Q -> (x == x0)%Q)
    /\ (fb = false \/ Nbeams g <= j ->
        Nphot g = 0 \/ k < length row0 - Nphot g -> (x == x0 * s)%Q).
Proof.
  intros Hps Hap Hj Hk.
  destruct (apply_pscale_scale g fb Ax0 Ax ps Hps Hap)
    as (scale0 & scale & Hs0 & Hs & Ax' & Hmul & Hfb).
  destruct (rows_op_lookup _ _ _ _ _ _ Hmul Hj) as [Hj' Hlen].
  assert (length scale = length scale0) as Hsl.
  { rewrite Hs. destruct (0 <? Nphot g); [|reflexivity].
    apply length_fill_tail. }
  assert (k < length scale0) as Hklt.
  { apply lookup_lt_Some in Hk. lia. }
  destruct (lookup_lt_is_Some_2 scale0 k Hklt) as [s Hs0k].
  assert (exists s', scale !! k = Some s'
             /\ s' = if (0 <? Nphot g) && (length row0 - Nphot g <=? k)
                     then 1%Q else s) as (s' & Hsk & Hs').
  { rewrite Hs. destruct (0 <? Nphot g); cbn [andb]; [|by exists s].
    rewrite (fill_tail_lookup _ _ _ _ _ Hs0k).
    eexists. split; [reflexivity|]. by rewrite <- Hsl, <- Hlen. }
  assert (zip_with Qmult row0 scale !! k = Some (x0 * s')%Q) as Hm
    by (by rewrite lookup_zip_with, Hk, Hsk).
  assert (exists row x,
            Ax !! j = Some row /\ row !! k = Some x
            /\ (x == if fb && (j <? Nbeams g) then x0 * s' / s'
                     else x0 * s')%Q) as (row & x & Hrow & Hx & Hval).
  { destruct fb; cbn [andb].
    - destruct Hfb as (head & Hn & Hdiv & ->).
      destruct (Nat.ltb_spec j (Nbeams g)) as [Hlt|Hge].
      + assert (take (Nbeams g) Ax' !! j
                = Some (zip_with Qmult row0 scale)) as Ht
          by (by rewrite lookup_take_lt).
        destruct (rows_op_lookup _ _ _ _ _ _ Hdiv Ht) as [Hh _].
        do 2 eexists. split; [|split; [|reflexivity]].
        * rewrite lookup_app_l; [exact Hh|].
          apply rows_op_Some in Hdiv as (-> & _).
          rewrite length_take. apply lookup_lt_Some in Hj'. lia.
        * by rewrite lookup_zip_with, Hm, Hsk.
      + do 2 eexists. split; [|split; [exact Hm|reflexivity]].
        apply rows_op_Some in Hdiv as (Hhl & _).
        rewrite lookup_app_r by (rewrite Hhl, length_take; lia).
        rewrite Hhl, length_take, Nat.min_l by lia.
        rewrite lookup_drop. by replace (Nbeams g + (j - Nbeams g)) with j
          by lia.
    - subst Ax. do 2 eexists. split; [exact Hj'|].
      split; [exact Hm|reflexivity]. }
  exists row, x, s. split; [exact Hrow|]. split; [exact Hx|].
  rewrite <- Hs0. split; [exact Hs0k|]. split; [|split].
  - intros Hn Hkp. rewrite Hval, Hs'.
    replace (0 <? Nphot g) with true by (symmetry; apply Nat.ltb_lt; lia).
    replace (length row0 - Nphot g <=? k) with true
      by (symmetry; apply Nat.leb_le; lia).
    cbn [andb]. destruct (fb && (j <? Nbeams g)); field.
  - intros -> Hjlt Hne. rewrite Hval.
    replace (j <? Nbeams g) with true by (symmetry; apply Nat.ltb_lt; lia).
    cbn [andb]. rewrite Hs'.
    destruct ((0 <? Nphot g) && (length row0 - Nphot g <=? k));
      field; try exact Hne; discriminate.
  - intros Hrowcase Hcol. rewrite Hval.
    assert (fb && (j <? Nbeams g) = false) as ->.
    { destruct Hrowcase as [->|Hge]; [reflexivity|].
      apply andb_false_iff. right. apply Nat.ltb_ge. lia. }
    assert (s' = s) as ->; [|reflexivity].
    rewrite Hs'. destruct Hcol as [H0|Hlt].
    + rewrite H0. reflexivity.
    + replace (length row0 - Nphot g <=? k) with false
        by (symmetry; apply Nat.leb_gt; lia).
      by rewrite andb_false_r.
Qed.

Lemma apply_pscale_frame_witness :
  exists Ax row x,
    apply_pscale (with_pscale (Sample.group3 [1; 3; 2]%Q) [20]%Q) true
      [[1; 1; 1]; [0; 5; 0]]%Q = Some Ax
    /\ Ax !! 0 = Some row /\ row !! 1 = Some x /\ (x == 1)%Q.
Proof.
  destruct (apply_pscale (with_pscale (Sample.group3 [1; 3; 2]%Q) [20]%Q)
              true [[1; 1; 1]; [0; 5; 0]]%Q) as [Ax|] eqn:Hap;
    [|vm_compute in Hap; discriminate Hap].
  destruct (apply_pscale_frame
              (with_pscale (Sample.group3 [1; 3; 2]%Q) [20]%Q) true
              [[1; 1; 1]; [0; 5; 0]]%Q Ax [20]%Q 0 1 [1; 1; 1]%Q 1%Q
              eq_refl Hap eq_refl eq_refl)
    as (row & x & s & Hrow & Hx & Hs & _ & Hbg & _).
  exists Ax, row, x. split; [reflexivity|].
  split; [exact Hrow|]. split; [exact Hx|].
  apply Hbg; [reflexivity|cbn; lia|].
  vm_compute in Hs. injection Hs as <-. discriminate.
Defined.
